(** * Telemetry provider lifecycle and context combinators (package telemetry)

    A shallow embedding of the Go package [internal/telemetry]:
    - [trace.go]    : [TraceProvider], [SetupTracing], [multiSpanExporter];
    - metrics       : [MetricProvider], [SetupMetrics] (reader based version);
    - logging       : [LogProvider], [SetupLogging], [LoggerWithContext];
    - provider      : [Provider], [NewProvider], [Provider.Shutdown];
    - [context.go]  : [WithSpan] and the errgroup based fan-out combinators.

    The wrapped SDK (exporters, tracer and meter providers, zap, gRPC) is not
    part of the package.  Every call into it is recorded in an ordered event
    log, and its result is read from an environment that may answer
    differently depending on everything that happened before. *)

From Stdlib Require Import String Ascii ZArith Lia Bool PeanoNat.
From Stdlib Require Import List Permutation.
From Stdlib Require Import DecimalString.
Import ListNotations.

Set Implicit Arguments.

Notation "s1 +++ s2" := (String.append s1 s2) (at level 60, right associativity).

(** ** Go errors *)

(** The two concrete error types the package builds with [fmt.Errorf]:
    without [%w] (an [errorString]) and with [%w] (a [wrapError]).  Errors
    coming back from the SDK are values of the same type. *)
Inductive error : Type :=
| errorString (s : string)
| wrapError (msg : string) (err : error).

(** [err.Error()] *)
Definition Error (e : error) : string :=
  match e with
  | errorString s => s
  | wrapError msg _ => msg
  end.

(** [errors.Unwrap(err)] *)
Definition Unwrap (e : error) : option error :=
  match e with
  | errorString _ => None
  | wrapError _ err => Some err
  end.

(** [fmt.Errorf(prefix + "%w", err)] *)
Definition Errorf_w (prefix : string) (err : error) : error :=
  wrapError (prefix +++ Error err) err.

(** [fmt.Sprintf("%v", errs)] for [errs []error]: the messages separated by
    one space, between square brackets. *)
Fixpoint join_errors (errs : list error) : string :=
  match errs with
  | [] => EmptyString
  | [e] => Error e
  | e :: rest => Error e +++ " " +++ join_errors rest
  end.

Definition Sprint_errors (errs : list error) : string :=
  "[" +++ join_errors errs +++ "]".

(** [fmt.Errorf(prefix + "%v", errs)] *)
Definition Errorf_v (prefix : string) (errs : list error) : error :=
  errorString (prefix +++ Sprint_errors errs).

(** [sub] occurs inside [s]. *)
Definition Mentions (s sub : string) : Prop :=
  exists pre post, s = pre +++ sub +++ post.

(** ** The event log *)

(** SDK objects are identified by the position of the event that created
    them. *)
Definition Handle := nat.

(** [[]sdktrace.ReadOnlySpan] *)
Definition Batch := list nat.

Inductive kind : Type :=
| Logger | Resource | TLSConf
| GrpcConn (endpoint : string)
| StdoutTraceExporter | OtlpTraceExporter | TracerProvider
| StdoutMetricExporter | OtlpMetricExporter | MeterProvider
| RuntimeMetrics.

Inductive method : Type :=
| MetricProvider_Shutdown | TraceProvider_Shutdown | LogProvider_Shutdown.

Inductive Level : Type := DebugLevel | ErrorLevel.

Inductive event : Type :=
(* constructors of the SDK and the two helpers that only call it
   ([createResource], [createTLSConfig]) *)
| EvNew (k : kind)
(* [x.Shutdown(ctx)] of an SDK object, [logger.Sync()] for a zap logger *)
| EvShutdown (h : Handle)
(* [exporter.ExportSpans(ctx, spans)] *)
| EvExportSpans (h : Handle) (spans : Batch)
(* entry of a [Shutdown] method of one of the three sub-providers *)
| EvEnter (m : method)
(* tracing scopes *)
| EvSpanStart (s : Handle) (name : string) (parent : option Handle)
| EvSpanEnd (s : Handle)
| EvRecordError (s : Handle) (e : error)
| EvSetStatusError (s : Handle) (description : string)
| EvLog (lvl : Level) (msg : string) (span_name : string)
        (correlation : option Handle) (err : option error)
(* errgroup *)
| EvWithContext
| EvGo (g : nat) (i : nat)
| EvTaskReturn (g : nat) (i : nat) (r : option error)
| EvCancel (g : nat)
(* anything a caller supplied function wants to leave in the log *)
| EvWork (tag : nat).

(** The outside world.  [ext e past] is what the SDK call [e] returns when
    [past] is the log so far; [yield] and [pick] are the goroutine
    scheduler (see the task groups below). *)
Record Env : Type := {
  ext : event -> list event -> option error;
  yield : list event -> nat;
  pick : list event -> nat
}.

(** ** Computations

    A computation reads the environment and the log so far and returns a
    value together with the events it appends.  The log is append only by
    construction. *)
Definition M (A : Type) : Type := Env -> list event -> A * list event.

Definition ret {A} (a : A) : M A := fun _ _ => (a, []).

Definition bind {A B} (m : M A) (k : A -> M B) : M B :=
  fun env past =>
    let (a, es) := m env past in
    let (b, es') := k a env (past ++ es) in
    (b, es ++ es').

Notation "x <- m ;; k" := (bind m (fun x => k))
  (at level 61, m at next level, right associativity).
Notation "m ;;; k" := (bind m (fun _ => k))
  (at level 61, right associativity).

(** Record an event that has no result. *)
Definition emit (e : event) : M unit := fun _ _ => (tt, [e]).

(** An SDK call that returns an [error]. *)
Definition call (e : event) : M (option error) :=
  fun env past => (ext env e past, [e]).

Inductive result (A : Type) : Type :=
| Ok (a : A)
| Err (e : error).
Arguments Ok {A} a.
Arguments Err {A} e.

(** An SDK constructor: a fresh object or an error. *)
Definition new (k : kind) : M (result Handle) :=
  fun env past =>
    match ext env (EvNew k) past with
    | Some e => (Err e, [EvNew k])
    | None => (Ok (length past), [EvNew k])
    end.

(** An SDK constructor that cannot fail. *)
Definition make (k : kind) : M Handle :=
  fun _ past => (length past, [EvNew k]).


(** ** trace.go *)

(** The [cleanup func() error] closures built by [SetupTracing] and
    [SetupMetrics], one constructor per function literal. *)
#[warnings="-register-all"] Inductive cleanupFn : Type :=
(* func() error { return exporter.Shutdown(context.Background()) } *)
| cleanupOne (exporter : Handle)
(* func() error { err1 := oldCleanup(); err2 := exporter.Shutdown(...);
                  if err1 != nil { return err1 }; return err2 } *)
| cleanupBoth (oldCleanup : cleanupFn) (exporter : Handle)
(* func() error { if prev != nil { if err := prev(); err != nil { return err } }
                  return exporter.Shutdown(...) } *)
| cleanupPrev (prev : option cleanupFn) (exporter : Handle).

Fixpoint run_cleanup (c : cleanupFn) : M (option error) :=
  match c with
  | cleanupOne exporter => call (EvShutdown exporter)
  | cleanupBoth oldCleanup exporter =>
      err1 <- run_cleanup oldCleanup ;;
      err2 <- call (EvShutdown exporter) ;;
      match err1 with
      | Some e => ret (Some e)
      | None => ret err2
      end
  | cleanupPrev prev exporter =>
      match prev with
      | Some p =>
          err <- run_cleanup p ;;
          match err with
          | Some e => ret (Some e)
          | None => call (EvShutdown exporter)
          end
      | None => call (EvShutdown exporter)
      end
  end.

Record Config : Type := {
  ServiceName : string;
  ServiceVersion : string;
  Environment : string;
  OTLPEndpoint : string;
  EnableConsoleExporter : bool;
  EnableMetrics : bool;
  EnableLogs : bool;
  TLSConfig_Enabled : bool;
  RetryConfig_Enabled : bool
}.

Record TraceProvider_t : Type := {
  tp_provider : Handle;
  tp_cleanup : option cleanupFn
}.

(** [multiSpanExporter]: the wrapped exporters, in registration order. *)
Definition multiSpanExporter_t := list Handle.

Definition newMultiSpanExporter (exporters : list Handle) : multiSpanExporter_t :=
  exporters.

Module multiSpanExporter.

Fixpoint ExportSpans (e : multiSpanExporter_t) (spans : Batch) : M (option error) :=
  match e with
  | [] => ret None
  | exporter :: rest =>
      err <- call (EvExportSpans exporter spans) ;;
      match err with
      | Some x => ret (Some x)
      | None => ExportSpans rest spans
      end
  end.

(** The [for] loop of [Shutdown], with the slice [errs] it appends to. *)
Fixpoint Shutdown_loop (e : multiSpanExporter_t) (errs : list error) : M (list error) :=
  match e with
  | [] => ret errs
  | exporter :: rest =>
      err <- call (EvShutdown exporter) ;;
      match err with
      | Some x => Shutdown_loop rest (errs ++ [x])
      | None => Shutdown_loop rest errs
      end
  end.

Definition Shutdown (e : multiSpanExporter_t) : M (option error) :=
  errs <- Shutdown_loop e [] ;;
  if 0 <? length errs
  then ret (Some (Errorf_v "multiple errors during shutdown: " errs))
  else ret None.

End multiSpanExporter.

Definition is_empty (s : string) : bool :=
  match s with EmptyString => true | _ => false end.

(** The connection part of the OTLP branch, shared text of [SetupTracing]
    and [SetupMetrics]: TLS credentials when enabled, then the blocking
    dial.  Returns the wrapped error of the step that failed. *)
Definition dial (cfg : Config) : M (option error) :=
  tls <- (if TLSConfig_Enabled cfg
          then r <- new TLSConf ;;
               match r with
               | Err e => ret (Some (Errorf_w "failed to create TLS config: " e))
               | Ok _ => ret None
               end
          else ret None) ;;
  match tls with
  | Some e => ret (Some e)
  | None =>
      r <- new (GrpcConn (OTLPEndpoint cfg)) ;;
      match r with
      | Err e => ret (Some (Errorf_w "failed to connect to OTLP endpoint: " e))
      | Ok _ => ret None
      end
  end.

(** The exporter handed to the batch span processor: nothing, one SDK
    exporter, or a [multiSpanExporter]. *)
Inductive SpanExporter : Type :=
| NoExporter
| Single (h : Handle)
| Multi (m : multiSpanExporter_t).

(** The console branch of [SetupTracing].  [exporter] is always nil when it
    is reached, so only the first arm of its [if exporter == nil] runs. *)
Definition setup_console_trace (cfg : Config)
  : M (result (SpanExporter * option cleanupFn)) :=
  if EnableConsoleExporter cfg then
    r <- new StdoutTraceExporter ;;
    match r with
    | Err e => ret (Err (Errorf_w "failed to create stdout exporter: " e))
    | Ok consoleExporter =>
        ret (Ok (Single consoleExporter, Some (cleanupOne consoleExporter)))
    end
  else ret (Ok (NoExporter, None)).

(** The OTLP branch of [SetupTracing]. *)
Definition setup_otlp_trace (cfg : Config) (exporter : SpanExporter)
    (cleanup : option cleanupFn)
  : M (result (SpanExporter * option cleanupFn)) :=
  if negb (is_empty (OTLPEndpoint cfg)) then
    d <- dial cfg ;;
    match d with
    | Some e => ret (Err e)
    | None =>
        r <- new OtlpTraceExporter ;;
        match r with
        | Err e => ret (Err (Errorf_w "failed to create OTLP exporter: " e))
        | Ok otlpExporter =>
            match exporter, cleanup with
            | NoExporter, _ =>
                ret (Ok (Single otlpExporter, Some (cleanupOne otlpExporter)))
            | Single x, Some oldCleanup =>
                ret (Ok (Multi (newMultiSpanExporter [x; otlpExporter]),
                         Some (cleanupBoth oldCleanup otlpExporter)))
            | _, _ =>
                (* not reachable: an exporter is always set with its cleanup,
                   and no multi exporter exists before this branch *)
                ret (Ok (exporter, cleanup))
            end
        end
    end
  else ret (Ok (exporter, cleanup)).

Definition SetupTracing (cfg : Config) : M (result TraceProvider_t) :=
  res <- new Resource ;;
  match res with
  | Err e => ret (Err (Errorf_w "failed to create resource: " e))
  | Ok _ =>
      c <- setup_console_trace cfg ;;
      match c with
      | Err e => ret (Err e)
      | Ok (exporter, cleanup) =>
          o <- setup_otlp_trace cfg exporter cleanup ;;
          match o with
          | Err e => ret (Err e)
          | Ok (_, cleanup') =>
              (* sampler, batch processor, provider and the global
                 registrations cannot fail *)
              tp <- make TracerProvider ;;
              ret (Ok {| tp_provider := tp; tp_cleanup := cleanup' |})
          end
      end
  end.

Module TraceProvider.

Definition Shutdown (tp : TraceProvider_t) : M (option error) :=
  emit (EvEnter TraceProvider_Shutdown) ;;;
  err <- call (EvShutdown (tp_provider tp)) ;;
  match err with
  | Some e => ret (Some e)
  | None =>
      match tp_cleanup tp with
      | Some cleanup => run_cleanup cleanup
      | None => ret None
      end
  end.

End TraceProvider.

(** ** Metrics (reader based [SetupMetrics]) *)

Record MetricProvider_t : Type := {
  mp_meterProvider : option Handle;
  mp_cleanup : option cleanupFn
}.

(** The console branch of [SetupMetrics]: one more reader, and the cleanup
    chained after the previous one. *)
Definition setup_console_metric (cfg : Config)
  : M (result (list Handle * option cleanupFn)) :=
  if EnableConsoleExporter cfg then
    r <- new StdoutMetricExporter ;;
    match r with
    | Err e => ret (Err (Errorf_w "failed to create stdout metric exporter: " e))
    | Ok consoleExporter =>
        ret (Ok ([consoleExporter], Some (cleanupPrev None consoleExporter)))
    end
  else ret (Ok ([], None)).

(** The OTLP branch of [SetupMetrics]. *)
Definition setup_otlp_metric (cfg : Config) (readers : list Handle)
    (cleanup : option cleanupFn)
  : M (result (list Handle * option cleanupFn)) :=
  if negb (is_empty (OTLPEndpoint cfg)) then
    d <- dial cfg ;;
    match d with
    | Some e => ret (Err e)
    | None =>
        r <- new OtlpMetricExporter ;;
        match r with
        | Err e => ret (Err (Errorf_w "failed to create OTLP metric exporter: " e))
        | Ok otlpExporter =>
            ret (Ok (readers ++ [otlpExporter], Some (cleanupPrev cleanup otlpExporter)))
        end
    end
  else ret (Ok (readers, cleanup)).

(** Returns [Ok None] for Go's [(nil, nil)]. *)
Definition SetupMetrics (cfg : Config) : M (result (option MetricProvider_t)) :=
  if negb (EnableMetrics cfg) then ret (Ok None)
  else
    res <- new Resource ;;
    match res with
    | Err e => ret (Err (Errorf_w "failed to create resource: " e))
    | Ok _ =>
        c <- setup_console_metric cfg ;;
        match c with
        | Err e => ret (Err e)
        | Ok (readers, cleanup) =>
            o <- setup_otlp_metric cfg readers cleanup ;;
            match o with
            | Err e => ret (Err e)
            | Ok (readers', cleanup') =>
                if length readers' =? 0
                then ret (Ok (Some {| mp_meterProvider := None; mp_cleanup := None |}))
                else
                  mp <- make MeterProvider ;;
                  r <- new RuntimeMetrics ;;
                  match r with
                  | Err e => ret (Err (Errorf_w "failed to start runtime metrics: " e))
                  | Ok _ =>
                      ret (Ok (Some {| mp_meterProvider := Some mp;
                                       mp_cleanup := cleanup' |}))
                  end
            end
        end
    end.

Module MetricProvider.

Definition Shutdown (mp : MetricProvider_t) : M (option error) :=
  emit (EvEnter MetricProvider_Shutdown) ;;;
  err <- match mp_meterProvider mp with
         | Some meterProvider => call (EvShutdown meterProvider)
         | None => ret None
         end ;;
  match err with
  | Some e => ret (Some e)
  | None =>
      match mp_cleanup mp with
      | Some cleanup => run_cleanup cleanup
      | None => ret None
      end
  end.

End MetricProvider.

(** ** Logging *)

Record LogProvider_t : Type := {
  lp_logger : Handle
}.

Definition SetupLogging (cfg : Config) : M (result LogProvider_t) :=
  r <- new Logger ;;
  match r with
  | Err e => ret (Err e)
  | Ok logger => ret (Ok {| lp_logger := logger |})
  end.

Module LogProvider.

Definition Shutdown (lp : LogProvider_t) : M (option error) :=
  emit (EvEnter LogProvider_Shutdown) ;;;
  call (EvShutdown (lp_logger lp)).

End LogProvider.

(** ** The provider *)

Record Provider_t : Type := {
  config : Config;
  traceProvider : option TraceProvider_t;
  metricProvider : option MetricProvider_t;
  logProvider : option LogProvider_t
}.

Definition NewProvider (cfg : Config) : M (result Provider_t) :=
  l <- SetupLogging cfg ;;
  match l with
  | Err e => ret (Err (Errorf_w "failed to setup logging: " e))
  | Ok logProvider =>
      t <- SetupTracing cfg ;;
      match t with
      | Err e =>
          LogProvider.Shutdown logProvider ;;;
          ret (Err (Errorf_w "failed to setup tracing: " e))
      | Ok traceProvider =>
          if EnableMetrics cfg then
            m <- SetupMetrics cfg ;;
            match m with
            | Err e =>
                LogProvider.Shutdown logProvider ;;;
                TraceProvider.Shutdown traceProvider ;;;
                ret (Err (Errorf_w "failed to setup metrics: " e))
            | Ok metricProvider =>
                ret (Ok {| config := cfg;
                           traceProvider := Some traceProvider;
                           metricProvider := metricProvider;
                           logProvider := Some logProvider |})
            end
          else
            ret (Ok {| config := cfg;
                       traceProvider := Some traceProvider;
                       metricProvider := None;
                       logProvider := Some logProvider |})
      end
  end.

Module Provider.

(** One teardown stage of [Shutdown]: skipped for a nil sub-provider; an
    error is wrapped and appended to [errs]. *)
Definition stage {A} (sub : option A) (shutdown : A -> M (option error))
    (prefix : string) (errs : list error) : M (list error) :=
  match sub with
  | Some x =>
      err <- shutdown x ;;
      match err with
      | Some e => ret (errs ++ [Errorf_w prefix e])
      | None => ret errs
      end
  | None => ret errs
  end.

Definition Shutdown (p : Provider_t) : M (option error) :=
  errs <- stage (metricProvider p) MetricProvider.Shutdown
                "failed to shutdown metrics: " [] ;;
  errs <- stage (traceProvider p) TraceProvider.Shutdown
                "failed to shutdown tracing: " errs ;;
  errs <- stage (logProvider p) LogProvider.Shutdown
                "failed to shutdown logging: " errs ;;
  if 0 <? length errs
  then ret (Some (Errorf_v "errors during shutdown: " errs))
  else ret None.

Definition Config (p : Provider_t) : Config := config p.

End Provider.

(** ** context.go *)

(** [context.Context]: the active span, and the task groups whose
    cancellation reaches this context (innermost first). *)
Record Context : Type := {
  ctx_span : option Handle;
  ctx_groups : list nat
}.

(** A call either returns or panics. *)
Inductive outcome (A : Type) : Type :=
| Ret (a : A)
| Panic (v : string).
Arguments Ret {A} a.
Arguments Panic {A} v.

(** A caller supplied [func(context.Context) error]. *)
Definition Work := Context -> M (outcome (option error)).

(** [defer cleanup(); body]: the deferred call runs when the body returns
    and when it panics. *)
Definition defer {A} (cleanup : M unit) (body : M (outcome A)) : M (outcome A) :=
  r <- body ;;
  cleanup ;;;
  ret r.

(** [Tracer("").Start(ctx, name, opts...)]: a new span, child of the span of
    [ctx].  The start options go to the SDK unchanged and are left out. *)
Definition ContextWithSpan (ctx : Context) (name : string) : M (Context * Handle) :=
  fun _ past =>
    let span := length past in
    (({| ctx_span := Some span; ctx_groups := ctx_groups ctx |}, span),
     [EvSpanStart span name (ctx_span ctx)]).

(** [LoggerWithContext(ctx)]: the global logger, with the trace and span
    identifiers of the context when it carries a span. *)
Definition LoggerWithContext (ctx : Context) : option Handle := ctx_span ctx.

Definition WithSpan (ctx : Context) (name : string) (fn : Work)
  : M (outcome (option error)) :=
  cs <- ContextWithSpan ctx name ;;
  let (ctx', span) := cs in
  defer (emit (EvSpanEnd span))
    (let logger := LoggerWithContext ctx' in
     emit (EvLog DebugLevel "Starting span" name logger None) ;;;
     r <- fn ctx' ;;
     match r with
     | Panic v => ret (Panic v)
     | Ret err =>
         match err with
         | Some e =>
             emit (EvRecordError span e) ;;;
             emit (EvSetStatusError span (Error e)) ;;;
             emit (EvLog ErrorLevel "Span error" name logger (Some e))
         | None =>
             emit (EvLog DebugLevel "Completed span" name logger None)
         end ;;;
         ret (Ret err)
     end).

(** ** Task groups ([golang.org/x/sync/errgroup])

    The package builds every fan-out on [errgroup.Group].  Its behaviour is
    written out here: [Go] blocks while the semaphore set by [SetLimit] is
    full, every goroutine runs its function, the first non-nil error is kept
    (single writer) and cancels the group context, [Wait] returns the kept
    error once all goroutines are done.

    Goroutines are interleaved at the granularity of whole task functions:
    a spawned task runs to completion in one step, at a time the scheduler
    chooses.  [yield env past] is the number of spawned tasks that complete
    before the launching loop reaches its next [g.Go]; [pick env past]
    chooses which of the spawned tasks completes next. *)

Record Group : Type := {
  g_id : nat;
  g_sem : option nat            (* capacity of the semaphore; None: no limit *)
}.

(** How a call that joins goroutines ends. *)
Inductive group_result : Type :=
| Returned (err : option error)
| Crashed (v : string)          (* a task function panicked *)
| Blocked.                      (* [g.Go] waits for a slot that never frees *)

(** [errgroup.WithContext(ctx)] *)
Definition WithContext (ctx : Context) : M (Group * Context) :=
  fun _ past =>
    let g := length past in
    (({| g_id := g; g_sem := None |},
      {| ctx_span := ctx_span ctx; ctx_groups := g :: ctx_groups ctx |}),
     [EvWithContext]).

(** [g.SetLimit(n)]: a negative value indicates no limit. *)
Definition SetLimit (g : Group) (n : Z) : Group :=
  if (n <? 0)%Z
  then {| g_id := g_id g; g_sem := None |}
  else {| g_id := g_id g; g_sem := Some (Z.to_nat n) |}.

Fixpoint remove_nth {A} (k : nat) (l : list A) : list A :=
  match l, k with
  | [], _ => []
  | _ :: rest, 0 => rest
  | x :: rest, S k' => x :: remove_nth k' rest
  end.

Section TaskGroup.

Variable T : Type.

(** The function passed to [g.Go] for the item at index [i]. *)
Variable task : nat -> T -> M (outcome (option error)).

Variable g : Group.

Record gstate : Type := {
  running : list (nat * T);     (* spawned, not finished *)
  g_err : option error;         (* g.err, written once *)
  g_panic : option string
}.

(** The [k]-th spawned goroutine runs: [f()], then the [errOnce] block
    for a non-nil error, then [done] frees its slot. *)
Definition run_task (st : gstate) (k : nat) : M gstate :=
  match nth_error (running st) k with
  | None => ret st
  | Some (i, x) =>
      r <- task i x ;;
      match r with
      | Panic v =>
          ret {| running := remove_nth k (running st);
                 g_err := g_err st; g_panic := Some v |}
      | Ret err =>
          emit (EvTaskReturn (g_id g) i err) ;;;
          match err, g_err st with
          | Some e, None =>
              emit (EvCancel (g_id g)) ;;;
              ret {| running := remove_nth k (running st);
                     g_err := Some e; g_panic := g_panic st |}
          | _, _ =>
              ret {| running := remove_nth k (running st);
                     g_err := g_err st; g_panic := g_panic st |}
          end
      end
  end.

(** [n] spawned goroutines complete, chosen by the scheduler. *)
Fixpoint finish_tasks (n : nat) (st : gstate) : M gstate :=
  match n with
  | 0 => ret st
  | S n' =>
      match g_panic st, running st with
      | Some _, _ => ret st
      | None, [] => ret st
      | None, _ :: _ =>
          k <- (fun env past => (pick env past mod length (running st), [])) ;;
          st' <- run_task st k ;;
          finish_tasks n' st'
      end
  end.

(** The semaphore send at the start of [g.Go]: returns [true] when it can
    never complete. *)
Definition acquire (st : gstate) : M (gstate * bool) :=
  match g_sem g with
  | None => ret (st, false)
  | Some limit =>
      if limit =? 0 then ret (st, true)
      else
        st' <- finish_tasks (length (running st) + 1 - limit) st ;;
        ret (st', false)
  end.

(** The launching loop [for i, item := range items { g.Go(...) }]. *)
Fixpoint launch (todo : list (nat * T)) (st : gstate) : M (gstate * bool) :=
  match todo with
  | [] => ret (st, false)
  | (i, x) :: rest =>
      c <- (fun env past => (yield env past, [])) ;;
      st1 <- finish_tasks c st ;;
      sb <- acquire st1 ;;
      let (st2, blocked) := sb in
      match g_panic st2, blocked with
      | Some _, _ => ret (st2, blocked)
      | None, true => ret (st2, true)
      | None, false =>
          emit (EvGo (g_id g) i) ;;;
          launch rest {| running := running st2 ++ [(i, x)];
                         g_err := g_err st2; g_panic := g_panic st2 |}
      end
  end.

(** The loop followed by [g.Wait()]. *)
Definition run_group (items : list T) : M group_result :=
  sb <- launch (combine (seq 0 (length items)) items)
               {| running := []; g_err := None; g_panic := None |} ;;
  let (st, blocked) := sb in
  match g_panic st, blocked with
  | Some v, _ => ret (Crashed v)
  | None, true => ret Blocked
  | None, false =>
      st' <- finish_tasks (length (running st)) st ;;
      match g_panic st' with
      | Some v => ret (Crashed v)
      | None =>
          emit (EvCancel (g_id g)) ;;;
          ret (Returned (g_err st'))
      end
  end.

End TaskGroup.

(** [strconv.Itoa] for a slice index. *)
Definition itoa (i : nat) : string := NilEmpty.string_of_uint (Nat.to_uint i).

(** [fmt.Sprintf("%s-%d", name, i)] *)
Definition spanName (name : string) (i : nat) : string :=
  name +++ "-" +++ itoa i.

Definition GoWithContext (ctx : Context) (fn : Work) : M group_result :=
  gc <- WithContext ctx ;;
  let (g, gCtx) := gc in
  run_group (fun _ (_ : unit) => fn gCtx) g [tt].

Definition GoWithSpan (ctx : Context) (name : string) (fn : Work) : M group_result :=
  GoWithContext ctx (fun gCtx => WithSpan gCtx name fn).

Definition GoForEach {T} (ctx : Context) (items : list T)
    (fn : Context -> T -> M (outcome (option error))) : M group_result :=
  gc <- WithContext ctx ;;
  let (g, gCtx) := gc in
  run_group (fun _ item => fn gCtx item) g items.

Definition GoForEachWithSpan {T} (ctx : Context) (name : string) (items : list T)
    (fn : Context -> T -> M (outcome (option error))) : M group_result :=
  gc <- WithContext ctx ;;
  let (g, gCtx) := gc in
  run_group (fun i item =>
               WithSpan gCtx (spanName name i) (fun spanCtx => fn spanCtx item))
            g items.

Definition GoWithLimit {T} (ctx : Context) (concurrency : Z) (items : list T)
    (fn : Context -> T -> M (outcome (option error))) : M group_result :=
  gc <- WithContext ctx ;;
  let (g, gCtx) := gc in
  let g := SetLimit g concurrency in
  run_group (fun _ item => fn gCtx item) g items.

Definition GoWithLimitAndSpan {T} (ctx : Context) (name : string) (concurrency : Z)
    (items : list T) (fn : Context -> T -> M (outcome (option error)))
  : M group_result :=
  gc <- WithContext ctx ;;
  let (g, gCtx) := gc in
  let g := SetLimit g concurrency in
  run_group (fun i item =>
               WithSpan gCtx (spanName name i) (fun spanCtx => fn spanCtx item))
            g items.

(** ** Services (package services) and configuration helpers

    The callers of the package: the storage service and the data
    transformations of the processor and analyzer, and
    [parseResourceAttributes] of config.go.
    Calls that only write telemetry and never influence a result (zap
    logging, span attributes and events, [time.Sleep]) are left out of
    these models; spans and recorded errors are kept. *)

(** A [[]byte]; every element is meant to lie in 0..255. *)
Definition bytes := list Z.

(** [l[i] = v]; the index is in range wherever the models use it (Go
    would panic otherwise, here the slice is left as it is). *)
Fixpoint set_nth (l : bytes) (i : nat) (v : Z) : bytes :=
  match l, i with
  | [], _ => []
  | _ :: rest, 0 => v :: rest
  | x :: rest, S i' => x :: set_nth rest i' v
  end.

(** [l[i], l[j] = l[j], l[i]] *)
Definition swap_at (l : bytes) (i j : nat) : bytes :=
  set_nth (set_nth l i (nth j l 0%Z)) j (nth i l 0%Z).

(** A Go [map[string]V]: at most one binding per key. *)
Definition gomap (V : Type) : Type := list (string * V).

Fixpoint map_get {V} (m : gomap V) (key : string) : option V :=
  match m with
  | [] => None
  | (k, v) :: rest => if String.eqb k key then Some v else map_get rest key
  end.

(** [m[key] = v] *)
Definition map_put {V} (m : gomap V) (key : string) (v : V) : gomap V :=
  (key, v) :: filter (fun kv => negb (String.eqb (fst kv) key)) m.

Record Storage_t : Type := {
  s_name : string;
  s_data : gomap bytes
}.

Definition NewStorage (name : string) : Storage_t :=
  {| s_name := name; s_data := [] |}.

Module Storage.

(** Returns the storage after the call and the error.  The closure given
    to [WithSpan] writes [s.data[id] = data] first and checks the size
    afterwards, so the write is part of every return. *)
Definition StoreData (s : Storage_t) (ctx : Context) (id : string) (data : bytes)
  : M (outcome (Storage_t * option error)) :=
  cs <- ContextWithSpan ctx "storage.store_data" ;;
  let (ctx', span) := cs in
  defer (emit (EvSpanEnd span))
    (r <- WithSpan ctx' "storage.write_operation"
            (fun _ =>
               ret (Ret (if (1000000 <? Z.of_nat (length data))%Z
                         then Some (errorString "data too large to store")
                         else None))) ;;
     let s' := {| s_name := s_name s; s_data := map_put (s_data s) id data |} in
     match r with
     | Panic v => ret (Panic v)
     | Ret (Some err) =>
         emit (EvRecordError span err) ;;;
         ret (Ret (s', Some (Errorf_w "storage operation failed: " err)))
     | Ret None => ret (Ret (s', None))
     end).

(** Returns the data ([[]] for nil) and the error. *)
Definition GetData (s : Storage_t) (ctx : Context) (id : string)
  : M (outcome (bytes * option error)) :=
  cs <- ContextWithSpan ctx "storage.get_data" ;;
  let (ctx', span) := cs in
  defer (emit (EvSpanEnd span))
    (r <- WithSpan ctx' "storage.read_operation"
            (fun _ =>
               ret (Ret (match map_get (s_data s) id with
                         | Some _ => None
                         | None =>
                             Some (errorString
                                     ("data with id " +++ id +++ " not found"))
                         end))) ;;
     match r with
     | Panic v => ret (Panic v)
     | Ret (Some err) =>
         emit (EvRecordError span err) ;;;
         ret (Ret ([], Some (Errorf_w "storage operation failed: " err)))
     | Ret None =>
         ret (Ret (match map_get (s_data s) id with
                   | Some data => data
                   | None => []
                   end, None))
     end).

End Storage.

Module Processor.

(** The loop [for i, j := 0, len(result)-1; i < j; i, j = i+1, j-1] that
    swaps [result[i]] and [result[j]]; it runs at most [fuel] times. *)
Fixpoint reverse_loop (fuel : nat) (i j : Z) (result : bytes) : bytes :=
  match fuel with
  | 0 => result
  | S fuel' =>
      if (i <? j)%Z
      then reverse_loop fuel' (i + 1)%Z (j - 1)%Z
             (swap_at result (Z.to_nat i) (Z.to_nat j))
      else result
  end.

(** Returns [result] and the error of [WithSpan]; the closure copies the
    data, reverses the copy in place and returns nil. *)
Definition transformData (ctx : Context) (data : bytes)
  : M (outcome (bytes * option error)) :=
  r <- WithSpan ctx "processor.transform_data" (fun _ => ret (Ret None)) ;;
  match r with
  | Panic v => ret (Panic v)
  | Ret err =>
      ret (Ret (reverse_loop (length data) 0 (Z.of_nat (length data) - 1) data, err))
  end.

End Processor.

Module Analyzer.

(** The loop [for i := range result] that increments every byte below
    255; [n] iterations are left, [i] is the index. *)
Fixpoint increment_loop (n : nat) (i : nat) (result : bytes) : bytes :=
  match n with
  | 0 => result
  | S n' =>
      increment_loop n' (S i)
        (if (nth i result 0 <? 255)%Z
         then set_nth result i (nth i result 0 + 1)%Z
         else result)
  end.

Definition preprocess (data : bytes) : bytes * option error :=
  (increment_loop (length data) 0 data, None).

(** The loop [for i := 0; i < len(result); i += 2] that swaps
    [result[i]] and [result[i+1]] when both exist; it runs at most [fuel]
    times. *)
Fixpoint pairs_loop (fuel : nat) (i : nat) (result : bytes) : bytes :=
  match fuel with
  | 0 => result
  | S fuel' =>
      if i <? length result
      then pairs_loop fuel' (i + 2)
             (if i + 1 <? length result then swap_at result i (i + 1) else result)
      else result
  end.

(** [unlucky] is the outcome of the draw [rand.Float64() < 0.01]. *)
Definition detectPatterns (unlucky : bool) (data : bytes) : bytes * option error :=
  if unlucky then ([], Some (errorString "pattern detection algorithm failed"))
  else (pairs_loop (length data) 0 data, None).

End Analyzer.

(** [strings.Split(s, sep)] for a separator of one byte. *)
Fixpoint split_on (sep : ascii) (s : string) : list string :=
  match s with
  | EmptyString => [EmptyString]
  | String c rest =>
      if Ascii.eqb c sep then EmptyString :: split_on sep rest
      else match split_on sep rest with
           | [] => [String c EmptyString]
           | hd :: tl => String c hd :: tl
           end
  end.

(** [strings.SplitN(s, sep, 2)] for a separator of one byte: the text
    before and after the first separator, or nothing when there is none
    (a result of length 1). *)
Fixpoint cut (sep : ascii) (s : string) : option (string * string) :=
  match s with
  | EmptyString => None
  | String c rest =>
      if Ascii.eqb c sep then Some (EmptyString, rest)
      else match cut sep rest with
           | Some (before, after) => Some (String c before, after)
           | None => None
           end
  end.

Definition parseResourceAttributes (attributesStr : string) : gomap string :=
  if is_empty attributesStr then []
  else
    fold_left
      (fun attributes pair =>
         match cut "=" pair with
         | Some (k, v) => map_put attributes k v
         | None => attributes
         end)
      (split_on "," attributesStr) [].

(** * Properties *)

Unset Implicit Arguments.

(** ** Computations and strings *)

Lemma bind_eq {A B} (m : M A) (k : A -> M B) env past :
  bind m k env past =
  (fst (k (fst (m env past)) env (past ++ snd (m env past))),
   snd (m env past) ++ snd (k (fst (m env past)) env (past ++ snd (m env past)))).
Proof.
  unfold bind. destruct (m env past) as [a es]; simpl.
  destruct (k a env (past ++ es)); reflexivity.
Qed.

Lemma append_assoc (a b c : string) : (a +++ b) +++ c = a +++ b +++ c.
Proof. induction a as [|ch a IH]; simpl; [reflexivity | now rewrite IH]. Qed.

Lemma append_empty_r (a : string) : a +++ EmptyString = a.
Proof. induction a as [|ch a IH]; simpl; [reflexivity | now rewrite IH]. Qed.

Lemma Mentions_refl s : Mentions s s.
Proof. exists EmptyString, EmptyString. simpl. now rewrite append_empty_r. Qed.

Lemma Mentions_prepend p s sub : Mentions s sub -> Mentions (p +++ s) sub.
Proof.
  intros (pre & post & ->). exists (p +++ pre), post. now rewrite append_assoc.
Qed.

Lemma Mentions_append s q sub : Mentions s sub -> Mentions (s +++ q) sub.
Proof.
  intros (pre & post & ->). exists pre, (post +++ q).
  now rewrite !append_assoc.
Qed.

Lemma join_errors_mentions errs e :
  In e errs -> Mentions (join_errors errs) (Error e).
Proof.
  induction errs as [|a [|b rest] IH]; intros Hin.
  - destruct Hin.
  - destruct Hin as [-> | []]. apply Mentions_refl.
  - destruct Hin as [-> | Hin].
    + change (Mentions (Error e +++ " " +++ join_errors (b :: rest)) (Error e)).
      apply Mentions_append, Mentions_refl.
    + change (Mentions (Error a +++ " " +++ join_errors (b :: rest)) (Error e)).
      now apply Mentions_prepend, Mentions_prepend, IH.
Qed.

Lemma Errorf_v_mentions prefix errs e :
  In e errs -> Mentions (Error (Errorf_v prefix errs)) (Error e).
Proof.
  intros Hin.
  change (Mentions (prefix +++ "[" +++ join_errors errs +++ "]") (Error e)).
  apply Mentions_prepend, Mentions_prepend, Mentions_append.
  now apply join_errors_mentions.
Qed.

Lemma nonempty_ltb {A} (l : list A) : (0 <? length l) = negb (length l =? 0).
Proof. destruct l; reflexivity. Qed.

(** ** multiSpanExporter *)

(** The offers of one batch to a list of sinks, in order. *)
Definition offers (spans : Batch) (sinks : list Handle) : list event :=
  map (fun h => EvExportSpans h spans) sinks.

(** What sink [h] answers when the sinks [before] were offered the batch
    just ahead of it. *)
Definition export_answer (env : Env) (past : list event) (spans : Batch)
    (before : list Handle) (h : Handle) : option error :=
  ext env (EvExportSpans h spans) (past ++ offers spans before).

Lemma ExportSpans_cons env x rest spans past :
  multiSpanExporter.ExportSpans (x :: rest) spans env past =
  match ext env (EvExportSpans x spans) past with
  | Some e => (Some e, [EvExportSpans x spans])
  | None =>
      (fst (multiSpanExporter.ExportSpans rest spans env (past ++ [EvExportSpans x spans])),
       EvExportSpans x spans ::
       snd (multiSpanExporter.ExportSpans rest spans env (past ++ [EvExportSpans x spans])))
  end.
Proof.
  simpl. rewrite bind_eq. unfold call; simpl.
  destruct (ext env (EvExportSpans x spans) past); reflexivity.
Qed.

(** The run of [ExportSpans] splits the sinks into those offered the batch
    and those skipped. *)
Lemma ExportSpans_split env spans e : forall past,
  exists offered skipped,
    e = offered ++ skipped /\
    snd (multiSpanExporter.ExportSpans e spans env past) = offers spans offered /\
    (forall pre h post, offered = pre ++ h :: post -> post <> [] ->
       export_answer env past spans pre h = None) /\
    match fst (multiSpanExporter.ExportSpans e spans env past) with
    | None =>
        skipped = [] /\
        (forall pre h, offered = pre ++ [h] ->
           export_answer env past spans pre h = None)
    | Some x =>
        exists pre h, offered = pre ++ [h] /\
          export_answer env past spans pre h = Some x
    end.
Proof.
  induction e as [|x rest IH]; intros past.
  - exists [], []. simpl. repeat split.
    + intros pre h post H; destruct pre; discriminate.
    + intros pre h H; destruct pre; discriminate.
  - rewrite ExportSpans_cons.
    destruct (ext env (EvExportSpans x spans) past) as [err|] eqn:Hx.
    + exists [x], rest. simpl. repeat split.
      * intros pre h post H Hpost.
        destruct pre as [|a [|b pre]]; simpl in H; try discriminate.
        injection H as _ <-. now elim Hpost.
      * exists [], x. split; [reflexivity|].
        unfold export_answer; simpl. now rewrite app_nil_r.
    + destruct (IH (past ++ [EvExportSpans x spans]))
        as (offered & skipped & Hsplit & Hev & Hmid & Hlast).
      exists (x :: offered), skipped. rewrite Hev.
      assert (Hshift : forall pre h,
                 export_answer env (past ++ [EvExportSpans x spans]) spans pre h
                 = export_answer env past spans (x :: pre) h).
      { intros pre h. unfold export_answer. simpl. now rewrite <- app_assoc. }
      split; [simpl; now rewrite Hsplit|].
      split; [reflexivity|].
      split.
      * intros pre h post H Hpost.
        destruct pre as [|a pre]; simpl in H; injection H as <- H.
        -- unfold export_answer; simpl. now rewrite app_nil_r.
        -- rewrite <- Hshift. now apply (Hmid pre h post).
      * cbn [fst].
        destruct (fst (multiSpanExporter.ExportSpans rest spans env
                         (past ++ [EvExportSpans x spans]))) as [err|].
        -- destruct Hlast as (pre & h & -> & Hans).
           exists (x :: pre), h. split; [reflexivity|]. now rewrite <- Hshift.
        -- destruct Hlast as [-> Hlast]. split; [reflexivity|].
           intros pre h H.
           destruct pre as [|a pre]; simpl in H; injection H as <- H.
           ++ destruct offered; [|discriminate].
              unfold export_answer; simpl. now rewrite app_nil_r.
           ++ rewrite <- Hshift. now apply Hlast.
Qed.

(** C4.  [multiSpanExporter.ExportSpans] is fail fast: it offers the batch
    to the sinks in registration order; if some sink returns an error, the
    offers stop with the first such sink, its error is returned and no
    later sink is offered the batch; if every sink succeeds, every sink was
    offered the batch and the result is nil. *)
Theorem ExportSpans_fail_fast (env : Env) (e : multiSpanExporter_t)
    (spans : Batch) (past : list event) :
  match fst (multiSpanExporter.ExportSpans e spans env past) with
  | None =>
      snd (multiSpanExporter.ExportSpans e spans env past) = offers spans e /\
      forall pre h post, e = pre ++ h :: post ->
        export_answer env past spans pre h = None
  | Some x =>
      exists pre h post,
        e = pre ++ h :: post /\
        snd (multiSpanExporter.ExportSpans e spans env past)
          = offers spans (pre ++ [h]) /\
        export_answer env past spans pre h = Some x /\
        forall pre' h' post', pre = pre' ++ h' :: post' ->
          export_answer env past spans pre' h' = None
  end.
Proof.
  destruct (ExportSpans_split env spans e past)
    as (offered & skipped & Hsplit & Hev & Hmid & Hlast).
  destruct (fst (multiSpanExporter.ExportSpans e spans env past)) as [x|].
  - destruct Hlast as (pre & h & -> & Hans).
    exists pre, h, skipped.
    split; [now rewrite Hsplit, <- app_assoc|].
    split; [assumption|]. split; [assumption|].
    intros pre' h' post' ->.
    apply (Hmid pre' h' (post' ++ [h])).
    + now rewrite <- app_assoc.
    + destruct post'; discriminate.
  - destruct Hlast as [-> Hlast]. rewrite app_nil_r in Hsplit. subst offered.
    split; [assumption|].
    intros pre h post ->.
    destruct post as [|p post].
    + now apply Hlast.
    + apply (Hmid pre h (p :: post)); [reflexivity | discriminate].
Qed.

(** P5: with three sinks of which the second fails, the third is never
    offered the batch and the second sink's error is returned. *)
Example ExportSpans_second_of_three_fails :
  let env := {| ext := fun e _ =>
                         match e with
                         | EvExportSpans 2 _ => Some (errorString "sink 2 down")
                         | _ => None
                         end;
                yield := fun _ => 0; pick := fun _ => 0 |} in
  multiSpanExporter.ExportSpans [1; 2; 3] [10; 11] env []
  = (Some (errorString "sink 2 down"),
     [EvExportSpans 1 [10; 11]; EvExportSpans 2 [10; 11]]).
Proof. reflexivity. Qed.

(** An environment in which exporting to sink 1 fails and everything else
    succeeds. *)
Definition env_sink1_down : Env :=
  {| ext := fun e _ =>
              match e with
              | EvExportSpans 1 _ => Some (errorString "sink 1 down")
              | _ => None
              end;
     yield := fun _ => 0;
     pick := fun _ => 0 |}.

(** C5, as stated, fails: with two registered sinks of which the first
    returns an error, the send fails and the second sink is never offered
    the batch. *)
Lemma ExportSpans_skips_remaining_members :
  fst (multiSpanExporter.ExportSpans [1; 2] [10] env_sink1_down [])
    = Some (errorString "sink 1 down") /\
  ~ In (EvExportSpans 2 [10])
       (snd (multiSpanExporter.ExportSpans [1; 2] [10] env_sink1_down [])).
Proof.
  split; [reflexivity|].
  simpl. intros [H | []]. discriminate.
Qed.

(** C5, amended.  The members offered a batch are a prefix of the Exporter
    Set, in registration order: all [n] members when the send succeeds;
    when it fails, the error is the one returned by the last member
    offered (so the send fails only if a member fails, and that member is
    the first to fail) and the members registered after it are skipped. *)
Theorem ExportSpans_offers_prefix (env : Env) (e : multiSpanExporter_t)
    (spans : Batch) (past : list event) :
  exists n,
    n <= length e /\
    snd (multiSpanExporter.ExportSpans e spans env past)
      = offers spans (firstn n e) /\
    (forall k h, k < n - 1 -> nth_error e k = Some h ->
       export_answer env past spans (firstn k e) h = None) /\
    match fst (multiSpanExporter.ExportSpans e spans env past) with
    | None =>
        n = length e /\
        forall k h, nth_error e k = Some h ->
          export_answer env past spans (firstn k e) h = None
    | Some x =>
        exists h, 0 < n /\ nth_error e (n - 1) = Some h /\
          export_answer env past spans (firstn (n - 1) e) h = Some x
    end.
Proof.
  destruct (ExportSpans_split env spans e past)
    as (offered & skipped & Hsplit & Hev & Hmid & Hlast).
  assert (Hfirst : firstn (length offered) e = offered).
  { rewrite Hsplit, firstn_app, Nat.sub_diag, firstn_all. simpl.
    now rewrite app_nil_r. }
  assert (Hnth : forall k h, nth_error offered k = Some h ->
            exists post, offered = firstn k e ++ h :: post).
  { intros k h Hk. destruct (nth_error_split _ _ Hk) as (l1 & l2 & Ho & Hlen).
    exists l2. rewrite Hsplit, Ho, <- Hlen, <- app_assoc, firstn_app.
    now rewrite Nat.sub_diag, firstn_all, app_nil_r. }
  exists (length offered). rewrite Hfirst.
  split; [rewrite Hsplit, length_app; lia|].
  split; [assumption|].
  split.
  - intros k h Hk He.
    assert (Ho : nth_error offered k = Some h).
    { rewrite Hsplit, nth_error_app1 in He by lia. exact He. }
    destruct (Hnth k h Ho) as (post & Hpost).
    apply (Hmid (firstn k e) h post Hpost).
    intros ->. apply (f_equal (@length _)) in Hpost.
    rewrite length_app, length_firstn in Hpost. simpl in Hpost. lia.
  - destruct (fst (multiSpanExporter.ExportSpans e spans env past)) as [x|].
    + destruct Hlast as (pre & h & Ho & Hans).
      assert (Hl : length offered = length pre + 1).
      { rewrite Ho, length_app. reflexivity. }
      assert (Hpre : firstn (length offered - 1) e = pre).
      { rewrite Hsplit, Ho, <- app_assoc, firstn_app.
        replace (length (pre ++ [h]) - 1) with (length pre)
          by (rewrite length_app; simpl; lia).
        now rewrite Nat.sub_diag, firstn_all, app_nil_r. }
      exists h. split; [lia|]. split.
      * rewrite Hl. replace (length pre + 1 - 1) with (length pre) by lia.
        rewrite Hsplit, Ho, <- app_assoc.
        rewrite nth_error_app2 by lia. now rewrite Nat.sub_diag.
      * now rewrite Hpre.
    + destruct Hlast as [-> Hlast]. rewrite app_nil_r in Hsplit. subst offered.
      split; [reflexivity|].
      intros k h Hk. destruct (Hnth k h Hk) as (post & Hpost).
      destruct post as [|p post].
      * now apply Hlast.
      * apply (Hmid (firstn k e) h (p :: post) Hpost). discriminate.
Qed.

(** What sink [h] answers to [Shutdown] when the sinks [before] were shut
    down just ahead of it. *)
Definition shutdown_answer (env : Env) (past : list event)
    (before : list Handle) (h : Handle) : option error :=
  ext env (EvShutdown h) (past ++ map EvShutdown before).

Lemma Shutdown_loop_cons env x rest errs past :
  multiSpanExporter.Shutdown_loop (x :: rest) errs env past =
  (fst (multiSpanExporter.Shutdown_loop rest
          (match ext env (EvShutdown x) past with
           | Some e => errs ++ [e]
           | None => errs
           end) env (past ++ [EvShutdown x])),
   EvShutdown x ::
   snd (multiSpanExporter.Shutdown_loop rest
          (match ext env (EvShutdown x) past with
           | Some e => errs ++ [e]
           | None => errs
           end) env (past ++ [EvShutdown x]))).
Proof.
  simpl. rewrite bind_eq. unfold call; simpl.
  destruct (ext env (EvShutdown x) past); reflexivity.
Qed.

(** The loop of [Shutdown] calls every sink and appends exactly the errors
    the sinks returned. *)
Lemma Shutdown_loop_spec env e : forall errs past,
  snd (multiSpanExporter.Shutdown_loop e errs env past) = map EvShutdown e /\
  exists collected,
    fst (multiSpanExporter.Shutdown_loop e errs env past) = errs ++ collected /\
    forall x, In x collected <->
      exists pre h post, e = pre ++ h :: post /\
        shutdown_answer env past pre h = Some x.
Proof.
  induction e as [|a rest IH]; intros errs past.
  - split; [reflexivity|]. exists []. split; [simpl; now rewrite app_nil_r|].
    intros x; split; [intros [] | intros (pre & h & post & H & _)].
    destruct pre; discriminate.
  - rewrite Shutdown_loop_cons. cbn [fst snd].
    set (errs' := match ext env (EvShutdown a) past with
                  | Some e => errs ++ [e] | None => errs end).
    destruct (IH errs' (past ++ [EvShutdown a])) as (Hev & collected & Hfst & Hin).
    split; [simpl; now rewrite Hev|].
    assert (Hshift : forall pre h,
               shutdown_answer env (past ++ [EvShutdown a]) pre h
               = shutdown_answer env past (a :: pre) h).
    { intros pre h. unfold shutdown_answer. simpl. now rewrite <- app_assoc. }
    assert (Hhead : shutdown_answer env past [] a = ext env (EvShutdown a) past).
    { unfold shutdown_answer. simpl. now rewrite app_nil_r. }
    exists (match ext env (EvShutdown a) past with
            | Some e => e :: collected | None => collected end).
    split.
    + rewrite Hfst. unfold errs'.
      destruct (ext env (EvShutdown a) past); [|reflexivity].
      now rewrite <- app_assoc.
    + intros x. split.
      * intros Hx.
        assert (Hcases : ext env (EvShutdown a) past = Some x \/ In x collected).
        { destruct (ext env (EvShutdown a) past); [|now right].
          destruct Hx as [-> | Hx]; [now left | now right]. }
        destruct Hcases as [Hx' | Hx'].
        -- exists [], a, rest. split; [reflexivity|]. now rewrite Hhead.
        -- apply Hin in Hx'. destruct Hx' as (pre & h & post & -> & Hans).
           exists (a :: pre), h, post. split; [reflexivity|]. now rewrite <- Hshift.
      * intros (pre & h & post & Hsplit & Hans).
        destruct pre as [|b pre]; simpl in Hsplit; injection Hsplit as <- Hsplit.
        -- rewrite Hhead in Hans. rewrite Hans. now left.
        -- assert (In x collected).
           { apply Hin. exists pre, h, post. split; [assumption|].
             now rewrite Hshift. }
           destruct (ext env (EvShutdown a) past); [now right | assumption].
Qed.

(** C6.  [multiSpanExporter.Shutdown] is fail safe: it invokes [Shutdown]
    on every wrapped sink, in order, whatever the earlier sinks returned;
    it returns nil exactly when no sink returned an error, and otherwise
    an aggregate error whose message mentions the message of every error a
    sink returned. *)
Theorem multiSpanExporter_Shutdown_fail_safe (env : Env)
    (e : multiSpanExporter_t) (past : list event) :
  snd (multiSpanExporter.Shutdown e env past) = map EvShutdown e /\
  (fst (multiSpanExporter.Shutdown e env past) = None <->
   forall pre h post, e = pre ++ h :: post ->
     shutdown_answer env past pre h = None) /\
  (forall pre h post x, e = pre ++ h :: post ->
     shutdown_answer env past pre h = Some x ->
     exists agg, fst (multiSpanExporter.Shutdown e env past) = Some agg /\
                 Mentions (Error agg) (Error x)).
Proof.
  destruct (Shutdown_loop_spec env e [] past) as (Hev & collected & Hfst & Hin).
  simpl in Hfst.
  assert (Hrun : multiSpanExporter.Shutdown e env past =
                 (if 0 <? length collected
                  then Some (Errorf_v "multiple errors during shutdown: " collected)
                  else None, map EvShutdown e)).
  { unfold multiSpanExporter.Shutdown. rewrite bind_eq, Hev, Hfst.
    destruct (0 <? length collected); simpl; now rewrite app_nil_r. }
  rewrite Hrun. cbn [fst snd].
  split; [reflexivity|]. split.
  - split.
    + intros Hnone pre h post Hsplit.
      destruct (shutdown_answer env past pre h) as [x|] eqn:Hans; [|reflexivity].
      assert (Hx : In x collected) by (apply Hin; eauto).
      destruct collected; [destruct Hx | discriminate].
    + intros Hall. destruct collected as [|x rest]; [reflexivity|].
      destruct (proj1 (Hin x) (or_introl eq_refl)) as (pre & h & post & Hsplit & Hans).
      rewrite (Hall pre h post Hsplit) in Hans. discriminate.
  - intros pre h post x Hsplit Hans.
    assert (Hx : In x collected) by (apply Hin; eauto).
    destruct collected as [|c rest]; [destruct Hx|].
    eexists. split; [reflexivity|]. now apply Errorf_v_mentions.
Qed.

(** P6: with three sinks of which the first fails on [Shutdown], the second
    and third are still shut down and the aggregate names the failure. *)
Example Shutdown_first_of_three_fails :
  let env := {| ext := fun e _ =>
                         match e with
                         | EvShutdown 1 => Some (errorString "sink 1 stuck")
                         | _ => None
                         end;
                yield := fun _ => 0; pick := fun _ => 0 |} in
  multiSpanExporter.Shutdown [1; 2; 3] env []
  = (Some (errorString "multiple errors during shutdown: [sink 1 stuck]"),
     [EvShutdown 1; EvShutdown 2; EvShutdown 3]).
Proof. reflexivity. Qed.

(** ** TraceProvider *)

(** C10.  [TraceProvider.Shutdown] is fail fast: when the SDK tracer
    provider's [Shutdown] returns an error, that error is returned at once;
    the only SDK call made is the provider's own [Shutdown], so no exporter
    of the cleanup chain is shut down by this call. *)
Theorem TraceProvider_Shutdown_fail_fast (env : Env) (tp : TraceProvider_t)
    (past : list event) (e : error) :
  ext env (EvShutdown (tp_provider tp)) (past ++ [EvEnter TraceProvider_Shutdown])
    = Some e ->
  TraceProvider.Shutdown tp env past
  = (Some e, [EvEnter TraceProvider_Shutdown; EvShutdown (tp_provider tp)]).
Proof.
  intros H. unfold TraceProvider.Shutdown.
  rewrite !bind_eq. unfold emit, call. cbn [fst snd]. rewrite H. reflexivity.
Qed.


(** A tracer provider with two chained exporters, and an environment in
    which the SDK tracer provider refuses to shut down. *)
Definition tp_two_exporters : TraceProvider_t :=
  {| tp_provider := 5; tp_cleanup := Some (cleanupBoth (cleanupOne 2) 4) |}.

Definition env_tracer_stuck : Env :=
  {| ext := fun e _ =>
              match e with
              | EvShutdown 5 => Some (errorString "tracer provider stuck")
              | _ => None
              end;
     yield := fun _ => 0;
     pick := fun _ => 0 |}.

Lemma TraceProvider_Shutdown_fail_fast_witness :
  TraceProvider.Shutdown tp_two_exporters env_tracer_stuck []
  = (Some (errorString "tracer provider stuck"),
     [EvEnter TraceProvider_Shutdown; EvShutdown 5]).
Proof.
  apply (TraceProvider_Shutdown_fail_fast env_tracer_stuck tp_two_exporters []).
  reflexivity.
Defined.

(** ** Provider *)

Lemma bind_fst {A B} (m : M A) (k : A -> M B) env past :
  fst (bind m k env past)
  = fst (k (fst (m env past)) env (past ++ snd (m env past))).
Proof. now rewrite bind_eq. Qed.

Lemma bind_snd {A B} (m : M A) (k : A -> M B) env past :
  snd (bind m k env past)
  = snd (m env past) ++ snd (k (fst (m env past)) env (past ++ snd (m env past))).
Proof. now rewrite bind_eq. Qed.

(** The sub-provider [Shutdown] methods entered, in order. *)
Fixpoint enters (es : list event) : list method :=
  match es with
  | [] => []
  | EvEnter m :: rest => m :: enters rest
  | _ :: rest => enters rest
  end.

Lemma enters_app a b : enters (a ++ b) = enters a ++ enters b.
Proof.
  induction a as [|e a IH]; [reflexivity|].
  destruct e; simpl; now rewrite ?IH.
Qed.

Lemma run_cleanup_enters : forall c env past,
  enters (snd (run_cleanup c env past)) = [].
Proof.
  fix IH 1. intros [x | old x | [p|] x] env past.
  - reflexivity.
  - cbn [run_cleanup]. rewrite !bind_snd, !enters_app, IH.
    destruct (fst (run_cleanup old env past)); reflexivity.
  - cbn [run_cleanup]. rewrite bind_snd, enters_app, IH.
    destruct (fst (run_cleanup p env past)); reflexivity.
  - reflexivity.
Qed.

Lemma MetricProvider_Shutdown_enters mp env past :
  enters (snd (MetricProvider.Shutdown mp env past)) = [MetricProvider_Shutdown].
Proof.
  unfold MetricProvider.Shutdown. rewrite !bind_snd, !enters_app.
  change (enters (snd (emit (EvEnter MetricProvider_Shutdown) env past)))
    with [MetricProvider_Shutdown].
  match goal with
  | |- _ ++ ?a ++ ?b = _ => assert (Ha : a = []); [|assert (Hb : b = [])]
  end.
  - destruct (mp_meterProvider mp); reflexivity.
  - match goal with
    | |- enters (snd (match ?r with _ => _ end _ _)) = _ => destruct r
    end; [reflexivity|].
    destruct (mp_cleanup mp); [apply run_cleanup_enters | reflexivity].
  - now rewrite Ha, Hb.
Qed.

Lemma TraceProvider_Shutdown_enters tp env past :
  enters (snd (TraceProvider.Shutdown tp env past)) = [TraceProvider_Shutdown].
Proof.
  unfold TraceProvider.Shutdown. rewrite !bind_snd, !enters_app.
  change (enters (snd (emit (EvEnter TraceProvider_Shutdown) env past)))
    with [TraceProvider_Shutdown].
  match goal with
  | |- _ ++ ?a ++ ?b = _ => assert (Ha : a = []); [|assert (Hb : b = [])]
  end.
  - reflexivity.
  - match goal with
    | |- enters (snd (match ?r with _ => _ end _ _)) = _ => destruct r
    end; [reflexivity|].
    destruct (tp_cleanup tp); [apply run_cleanup_enters | reflexivity].
  - now rewrite Ha, Hb.
Qed.

Lemma LogProvider_Shutdown_run lp env past :
  LogProvider.Shutdown lp env past
  = (ext env (EvShutdown (lp_logger lp)) (past ++ [EvEnter LogProvider_Shutdown]),
     [EvEnter LogProvider_Shutdown; EvShutdown (lp_logger lp)]).
Proof. reflexivity. Qed.

(** A teardown stage that is skipped for a nil sub-provider. *)
Definition sub_shutdown {A} (sub : option A) (shutdown : A -> M (option error))
  : M (option error) :=
  match sub with
  | Some x => shutdown x
  | None => ret None
  end.

(** The slice [errs] after a stage that returned [r]. *)
Definition collect (prefix : string) (r : option error) (errs : list error)
  : list error :=
  match r with
  | Some e => errs ++ [Errorf_w prefix e]
  | None => errs
  end.

Lemma stage_run {A} (sub : option A) shutdown prefix errs env past :
  Provider.stage sub shutdown prefix errs env past
  = (collect prefix (fst (sub_shutdown sub shutdown env past)) errs,
     snd (sub_shutdown sub shutdown env past)).
Proof.
  unfold Provider.stage, sub_shutdown. destruct sub as [x|]; [|reflexivity].
  rewrite bind_eq. destruct (fst (shutdown x env past)); simpl;
    now rewrite app_nil_r.
Qed.

(** [Provider.Shutdown] runs its three stages one after the other, each on
    the log left by the previous ones, and aggregates what they returned. *)
Lemma Provider_Shutdown_run p env past :
  let m := sub_shutdown (metricProvider p) MetricProvider.Shutdown env past in
  let t := sub_shutdown (traceProvider p) TraceProvider.Shutdown env
             (past ++ snd m) in
  let l := sub_shutdown (logProvider p) LogProvider.Shutdown env
             (past ++ snd m ++ snd t) in
  let errs := collect "failed to shutdown logging: " (fst l)
                (collect "failed to shutdown tracing: " (fst t)
                   (collect "failed to shutdown metrics: " (fst m) [])) in
  Provider.Shutdown p env past
  = (if 0 <? length errs
     then Some (Errorf_v "errors during shutdown: " errs) else None,
     snd m ++ snd t ++ snd l).
Proof.
  intros m t l errs. unfold Provider.Shutdown.
  rewrite bind_eq, stage_run. cbn [fst snd]. fold m.
  rewrite bind_eq, stage_run. cbn [fst snd]. fold t.
  rewrite bind_eq, stage_run. cbn [fst snd].
  replace ((past ++ snd m) ++ snd t) with (past ++ snd m ++ snd t)
    by now rewrite app_assoc.
  fold l. fold errs.
  destruct (0 <? length errs); simpl; now rewrite app_nil_r.
Qed.

(** Case analysis on the next scrutinee of a computation's value. *)
Ltac next_case :=
  rewrite ?bind_fst;
  match goal with
  | |- context [match ?x with _ => _ end] => destruct x eqn:?
  end;
  cbn [fst snd ret] in *.

(** With metrics enabled, [SetupMetrics] never returns [(nil, nil)]. *)
Lemma SetupMetrics_enabled cfg env past :
  EnableMetrics cfg = true ->
  fst (SetupMetrics cfg env past) <> Ok None.
Proof.
  intros Hm. unfold SetupMetrics. rewrite Hm. cbn [negb].
  repeat (next_case; try discriminate).
Qed.

(** A provider returned by [NewProvider] with metrics enabled owns all
    three sub-providers. *)
Lemma NewProvider_ok_fields cfg env past p :
  fst (NewProvider cfg env past) = Ok p ->
  EnableMetrics cfg = true ->
  exists mp tp lp,
    metricProvider p = Some mp /\ traceProvider p = Some tp /\
    logProvider p = Some lp.
Proof.
  intros Hnew Hm. unfold NewProvider in Hnew. rewrite Hm in Hnew.
  rewrite bind_fst in Hnew.
  destruct (fst (SetupLogging cfg env past)) as [lp|]; [|discriminate].
  rewrite bind_fst in Hnew.
  destruct (fst (SetupTracing cfg env _)) as [tp|];
    [|rewrite bind_fst in Hnew; discriminate].
  rewrite bind_fst in Hnew.
  destruct (fst (SetupMetrics cfg env _)) as [[mp|]|] eqn:Hmp.
  - injection Hnew as <-. now exists mp, tp, lp.
  - now apply SetupMetrics_enabled in Hmp.
  - rewrite !bind_fst in Hnew. discriminate.
Qed.

Lemma collect_length prefix r errs :
  length (collect prefix r errs)
  = length errs + match r with Some _ => 1 | None => 0 end.
Proof.
  destruct r; simpl; [rewrite length_app; reflexivity | lia].
Qed.

Lemma collect_In prefix r errs x :
  In x errs -> In x (collect prefix r errs).
Proof. destruct r; simpl; [rewrite in_app_iff; now left | trivial]. Qed.

Lemma collect_In_new prefix e errs :
  In (Errorf_w prefix e) (collect prefix (Some e) errs).
Proof. simpl. rewrite in_app_iff. right. now left. Qed.

(** C1.  For a provider that [NewProvider] returned with metrics enabled,
    [Provider.Shutdown] enters the metric sub-provider's [Shutdown], then
    the trace sub-provider's, then the log sub-provider's: the three
    teardowns run one after the other whatever the earlier ones returned.
    The result is nil exactly when all three returned nil, and otherwise an
    aggregate error whose message lists, for every teardown that failed,
    its stage and the message of its error. *)
Theorem Provider_Shutdown_order_and_aggregate (env : Env) (cfg : Config)
    (past0 past : list event) (p : Provider_t) :
  fst (NewProvider cfg env past0) = Ok p ->
  EnableMetrics cfg = true ->
  exists mp tp lp,
    metricProvider p = Some mp /\ traceProvider p = Some tp /\
    logProvider p = Some lp /\
    let m := MetricProvider.Shutdown mp env past in
    let t := TraceProvider.Shutdown tp env (past ++ snd m) in
    let l := LogProvider.Shutdown lp env (past ++ snd m ++ snd t) in
    let r := Provider.Shutdown p env past in
    snd r = snd m ++ snd t ++ snd l /\
    enters (snd r)
      = [MetricProvider_Shutdown; TraceProvider_Shutdown; LogProvider_Shutdown] /\
    (fst r = None <-> fst m = None /\ fst t = None /\ fst l = None) /\
    (forall e, fst m = Some e ->
       exists agg, fst r = Some agg /\
         Mentions (Error agg) ("failed to shutdown metrics: " +++ Error e)) /\
    (forall e, fst t = Some e ->
       exists agg, fst r = Some agg /\
         Mentions (Error agg) ("failed to shutdown tracing: " +++ Error e)) /\
    (forall e, fst l = Some e ->
       exists agg, fst r = Some agg /\
         Mentions (Error agg) ("failed to shutdown logging: " +++ Error e)).
Proof.
  intros Hnew Hm.
  destruct (NewProvider_ok_fields _ _ _ _ Hnew Hm) as (mp & tp & lp & Hmp & Htp & Hlp).
  exists mp, tp, lp. repeat (split; [assumption|]).
  intros m t l r.
  pose proof (Provider_Shutdown_run p env past) as Hrun.
  rewrite Hmp, Htp, Hlp in Hrun. cbn [sub_shutdown] in Hrun.
  fold m t l in Hrun. cbv zeta in Hrun. fold r in Hrun.
  set (errs := collect "failed to shutdown logging: " (fst l)
                (collect "failed to shutdown tracing: " (fst t)
                   (collect "failed to shutdown metrics: " (fst m) []))) in *.
  assert (Hlen : length errs
                 = match fst m with Some _ => 1 | None => 0 end
                   + match fst t with Some _ => 1 | None => 0 end
                   + match fst l with Some _ => 1 | None => 0 end).
  { unfold errs. rewrite !collect_length. simpl. lia. }
  assert (Hsome : forall x, In x errs ->
             exists agg, fst r = Some agg /\ Mentions (Error agg) (Error x)).
  { intros x Hx. rewrite Hrun. cbn [fst].
    destruct errs as [|a rest]; [destruct Hx|].
    eexists. split; [reflexivity|]. now apply Errorf_v_mentions. }
  split; [now rewrite Hrun|].
  split.
  { rewrite Hrun. cbn [snd]. rewrite !enters_app.
    unfold m, t, l.
    now rewrite MetricProvider_Shutdown_enters, TraceProvider_Shutdown_enters,
      LogProvider_Shutdown_run. }
  split.
  { rewrite Hrun. cbn [fst]. rewrite nonempty_ltb, Hlen.
    destruct (fst m), (fst t), (fst l); simpl; split;
      try discriminate; try tauto;
      intros (H1 & H2 & H3); discriminate. }
  split; [|split].
  - intros e He. apply (Hsome (Errorf_w "failed to shutdown metrics: " e)).
    unfold errs. rewrite He. apply collect_In, collect_In, collect_In_new.
  - intros e He. apply (Hsome (Errorf_w "failed to shutdown tracing: " e)).
    unfold errs. rewrite He. apply collect_In, collect_In_new.
  - intros e He. apply (Hsome (Errorf_w "failed to shutdown logging: " e)).
    unfold errs. rewrite He. apply collect_In_new.
Qed.

(** A configuration with the console exporter, an OTLP endpoint and
    metrics; the provider [NewProvider] builds from it on an empty log when
    every SDK call succeeds; and the log of that start-up. *)
Definition cfg_full : Config :=
  {| ServiceName := "optl-service"; ServiceVersion := "v0.1.0";
     Environment := "development"; OTLPEndpoint := "localhost:4317";
     EnableConsoleExporter := true; EnableMetrics := true; EnableLogs := true;
     TLSConfig_Enabled := false; RetryConfig_Enabled := false |}.

Definition env_ok : Env :=
  {| ext := fun _ _ => None; yield := fun _ => 0; pick := fun _ => 0 |}.

Definition provider_full : Provider_t :=
  {| config := cfg_full;
     traceProvider :=
       Some {| tp_provider := 5;
               tp_cleanup := Some (cleanupBoth (cleanupOne 2) 4) |};
     metricProvider :=
       Some {| mp_meterProvider := Some 10;
               mp_cleanup := Some (cleanupPrev (Some (cleanupPrev None 7)) 9) |};
     logProvider := Some {| lp_logger := 0 |} |}.

Definition startup_log : list event :=
  [EvNew Logger; EvNew Resource; EvNew StdoutTraceExporter;
   EvNew (GrpcConn "localhost:4317"); EvNew OtlpTraceExporter;
   EvNew TracerProvider; EvNew Resource; EvNew StdoutMetricExporter;
   EvNew (GrpcConn "localhost:4317"); EvNew OtlpMetricExporter;
   EvNew MeterProvider; EvNew RuntimeMetrics].

Example NewProvider_full :
  NewProvider cfg_full env_ok [] = (Ok provider_full, startup_log).
Proof. reflexivity. Qed.

(** An environment in which only the SDK meter provider (object 10) fails
    to shut down. *)
Definition env_meter_stuck : Env :=
  {| ext := fun e _ =>
              match e with
              | EvShutdown 10 => Some (errorString "meter provider stuck")
              | _ => None
              end;
     yield := fun _ => 0;
     pick := fun _ => 0 |}.

(** P7: the order is metric, trace, log even when the metric teardown
    fails; its cleanup chain is skipped, the other two stages still run. *)
Example Provider_Shutdown_metric_teardown_fails :
  Provider.Shutdown provider_full env_meter_stuck startup_log
  = (Some (errorString
       "errors during shutdown: [failed to shutdown metrics: meter provider stuck]"),
     [EvEnter MetricProvider_Shutdown; EvShutdown 10;
      EvEnter TraceProvider_Shutdown; EvShutdown 5; EvShutdown 2; EvShutdown 4;
      EvEnter LogProvider_Shutdown; EvShutdown 0]).
Proof. reflexivity. Qed.

Lemma Provider_Shutdown_order_and_aggregate_witness :
  exists mp tp lp,
    metricProvider provider_full = Some mp /\
    traceProvider provider_full = Some tp /\
    logProvider provider_full = Some lp /\
    let m := MetricProvider.Shutdown mp env_meter_stuck startup_log in
    let t := TraceProvider.Shutdown tp env_meter_stuck (startup_log ++ snd m) in
    let l := LogProvider.Shutdown lp env_meter_stuck
               (startup_log ++ snd m ++ snd t) in
    let r := Provider.Shutdown provider_full env_meter_stuck startup_log in
    snd r = snd m ++ snd t ++ snd l /\
    enters (snd r)
      = [MetricProvider_Shutdown; TraceProvider_Shutdown; LogProvider_Shutdown] /\
    (fst r = None <-> fst m = None /\ fst t = None /\ fst l = None) /\
    (forall e, fst m = Some e ->
       exists agg, fst r = Some agg /\
         Mentions (Error agg) ("failed to shutdown metrics: " +++ Error e)) /\
    (forall e, fst t = Some e ->
       exists agg, fst r = Some agg /\
         Mentions (Error agg) ("failed to shutdown tracing: " +++ Error e)) /\
    (forall e, fst l = Some e ->
       exists agg, fst r = Some agg /\
         Mentions (Error agg) ("failed to shutdown logging: " +++ Error e)).
Proof.
  apply (Provider_Shutdown_order_and_aggregate env_meter_stuck cfg_full []
           startup_log provider_full); reflexivity.
Defined.

(** C2 on the code.  When logging and tracing are set up and
    [SetupMetrics] fails with [e], [NewProvider] shuts the log sub-provider
    down first and the trace sub-provider second, and returns [e] wrapped
    as "failed to setup metrics", whatever the two teardowns returned. *)
Theorem NewProvider_metrics_failure_teardown (env : Env) (cfg : Config)
    (past : list event) (lp : LogProvider_t) (tp : TraceProvider_t) (e : error) :
  EnableMetrics cfg = true ->
  let s1 := SetupLogging cfg env past in
  let s2 := SetupTracing cfg env (past ++ snd s1) in
  let s3 := SetupMetrics cfg env (past ++ snd s1 ++ snd s2) in
  fst s1 = Ok lp -> fst s2 = Ok tp -> fst s3 = Err e ->
  let d1 := LogProvider.Shutdown lp env
              (past ++ snd s1 ++ snd s2 ++ snd s3) in
  let d2 := TraceProvider.Shutdown tp env
              (past ++ snd s1 ++ snd s2 ++ snd s3 ++ snd d1) in
  NewProvider cfg env past
  = (Err (Errorf_w "failed to setup metrics: " e),
     snd s1 ++ snd s2 ++ snd s3 ++ snd d1 ++ snd d2).
Proof.
  intros Hm s1 s2 s3 H1 H2 H3 d1 d2.
  unfold NewProvider. rewrite Hm.
  rewrite bind_eq. fold s1. rewrite H1.
  rewrite bind_eq. fold s2. rewrite H2.
  rewrite bind_eq.
  replace ((past ++ snd s1) ++ snd s2) with (past ++ snd s1 ++ snd s2)
    by now rewrite app_assoc.
  fold s3. rewrite H3.
  rewrite bind_eq.
  replace ((past ++ snd s1 ++ snd s2) ++ snd s3)
    with (past ++ snd s1 ++ snd s2 ++ snd s3) by now rewrite !app_assoc.
  fold d1.
  rewrite bind_eq.
  replace ((past ++ snd s1 ++ snd s2 ++ snd s3) ++ snd d1)
    with (past ++ snd s1 ++ snd s2 ++ snd s3 ++ snd d1)
    by now rewrite !app_assoc.
  fold d2. cbn [fst snd ret]. now rewrite app_nil_r.
Qed.

(** An environment in which creating the OTLP metric exporter fails. *)
Definition env_metric_exporter_fails : Env :=
  {| ext := fun e _ =>
              match e with
              | EvNew OtlpMetricExporter => Some (errorString "exporter refused")
              | _ => None
              end;
     yield := fun _ => 0;
     pick := fun _ => 0 |}.

Lemma NewProvider_metrics_failure_teardown_witness :
  NewProvider cfg_full env_metric_exporter_fails []
  = (Err (Errorf_w "failed to setup metrics: "
            (Errorf_w "failed to create OTLP metric exporter: "
               (errorString "exporter refused"))),
     [EvNew Logger; EvNew Resource; EvNew StdoutTraceExporter;
      EvNew (GrpcConn "localhost:4317"); EvNew OtlpTraceExporter;
      EvNew TracerProvider; EvNew Resource; EvNew StdoutMetricExporter;
      EvNew (GrpcConn "localhost:4317"); EvNew OtlpMetricExporter;
      EvEnter LogProvider_Shutdown; EvShutdown 0;
      EvEnter TraceProvider_Shutdown; EvShutdown 5; EvShutdown 2; EvShutdown 4]).
Proof.
  apply (NewProvider_metrics_failure_teardown env_metric_exporter_fails cfg_full []
           {| lp_logger := 0 |}
           {| tp_provider := 5;
              tp_cleanup := Some (cleanupBoth (cleanupOne 2) 4) |}
           (Errorf_w "failed to create OTLP metric exporter: "
              (errorString "exporter refused"))); reflexivity.
Defined.

(** The [Shutdown] methods one call of [Provider.Shutdown] enters: one per
    sub-provider the provider owns, metric then trace then log. *)
Definition owned_teardowns (p : Provider_t) : list method :=
  (match metricProvider p with Some _ => [MetricProvider_Shutdown] | None => [] end)
  ++ (match traceProvider p with Some _ => [TraceProvider_Shutdown] | None => [] end)
  ++ (match logProvider p with Some _ => [LogProvider_Shutdown] | None => [] end).

Lemma Provider_Shutdown_enters p env past :
  enters (snd (Provider.Shutdown p env past)) = owned_teardowns p.
Proof.
  rewrite Provider_Shutdown_run. cbn [snd]. rewrite !enters_app.
  unfold owned_teardowns, sub_shutdown.
  destruct (metricProvider p), (traceProvider p), (logProvider p);
    rewrite ?MetricProvider_Shutdown_enters, ?TraceProvider_Shutdown_enters,
      ?LogProvider_Shutdown_run; reflexivity.
Qed.

Lemma TraceProvider_Shutdown_calls_sdk tp env past :
  In (EvShutdown (tp_provider tp)) (snd (TraceProvider.Shutdown tp env past)).
Proof.
  unfold TraceProvider.Shutdown. rewrite !bind_snd.
  apply in_or_app. right. apply in_or_app. left. now left.
Qed.

Lemma MetricProvider_Shutdown_calls_sdk mp h env past :
  mp_meterProvider mp = Some h ->
  In (EvShutdown h) (snd (MetricProvider.Shutdown mp env past)).
Proof.
  intros Hh. unfold MetricProvider.Shutdown. rewrite !bind_snd, Hh.
  apply in_or_app. right. apply in_or_app. left. now left.
Qed.

(** C3, as stated, fails: on the provider built from [cfg_full], with an
    SDK that never fails, the second [Provider.Shutdown] returns nil but
    repeats the whole teardown; the logger (object 0) is synced by the
    first call and again by the second. *)
Lemma Provider_Shutdown_twice_repeats_teardown :
  let first := Provider.Shutdown provider_full env_ok startup_log in
  let second := Provider.Shutdown provider_full env_ok
                  (startup_log ++ snd first) in
  In (EvShutdown 0) (snd first) /\
  second =
    (None,
     [EvEnter MetricProvider_Shutdown; EvShutdown 10; EvShutdown 7; EvShutdown 9;
      EvEnter TraceProvider_Shutdown; EvShutdown 5; EvShutdown 2; EvShutdown 4;
      EvEnter LogProvider_Shutdown; EvShutdown 0]).
Proof.
  split; [|reflexivity].
  simpl. repeat (try (left; reflexivity); right).
Qed.

(** C3, amended.  [Provider.Shutdown] keeps no closed state: a second call
    on the same provider enters the [Shutdown] of every sub-provider the
    provider owns once more, in the same order (metric, trace, log), calls
    the SDK tracer provider, the SDK meter provider and the logger again,
    and returns nil exactly when each of these repeated teardowns returns
    nil. *)
Theorem Provider_Shutdown_not_idempotent (env : Env) (p : Provider_t)
    (past : list event) :
  let first := Provider.Shutdown p env past in
  let past' := past ++ snd first in
  let second := Provider.Shutdown p env past' in
  let m := sub_shutdown (metricProvider p) MetricProvider.Shutdown env past' in
  let t := sub_shutdown (traceProvider p) TraceProvider.Shutdown env
             (past' ++ snd m) in
  let l := sub_shutdown (logProvider p) LogProvider.Shutdown env
             (past' ++ snd m ++ snd t) in
  enters (snd first) = owned_teardowns p /\
  enters (snd second) = owned_teardowns p /\
  snd second = snd m ++ snd t ++ snd l /\
  (forall mp h, metricProvider p = Some mp -> mp_meterProvider mp = Some h ->
     In (EvShutdown h) (snd first) /\ In (EvShutdown h) (snd second)) /\
  (forall tp, traceProvider p = Some tp ->
     In (EvShutdown (tp_provider tp)) (snd first) /\
     In (EvShutdown (tp_provider tp)) (snd second)) /\
  (forall lp, logProvider p = Some lp ->
     In (EvShutdown (lp_logger lp)) (snd first) /\
     In (EvShutdown (lp_logger lp)) (snd second)) /\
  (fst second = None <-> fst m = None /\ fst t = None /\ fst l = None).
Proof.
  intros first past' second m t l.
  assert (Hin : forall q,
    (forall mp h, metricProvider p = Some mp -> mp_meterProvider mp = Some h ->
       In (EvShutdown h) (snd (Provider.Shutdown p env q))) /\
    (forall tp, traceProvider p = Some tp ->
       In (EvShutdown (tp_provider tp)) (snd (Provider.Shutdown p env q))) /\
    (forall lp, logProvider p = Some lp ->
       In (EvShutdown (lp_logger lp)) (snd (Provider.Shutdown p env q)))).
  { intros q. rewrite Provider_Shutdown_run. cbn [snd]. repeat split.
    - intros mp h Hmp Hh. rewrite Hmp. cbn [sub_shutdown].
      apply in_or_app. left. now apply MetricProvider_Shutdown_calls_sdk.
    - intros tp Htp. rewrite Htp. cbn [sub_shutdown].
      apply in_or_app. right. apply in_or_app. left.
      apply TraceProvider_Shutdown_calls_sdk.
    - intros lp Hlp. rewrite Hlp. cbn [sub_shutdown].
      apply in_or_app. right. apply in_or_app. right.
      rewrite LogProvider_Shutdown_run. cbn [snd]. right. now left. }
  split; [apply Provider_Shutdown_enters|].
  split; [apply Provider_Shutdown_enters|].
  split; [unfold second; now rewrite Provider_Shutdown_run|].
  split; [intros mp h Hmp Hh; split; now apply (proj1 (Hin _) mp h)|].
  split; [intros tp Htp; split; now apply (proj1 (proj2 (Hin _)) tp)|].
  split; [intros lp Hlp; split; now apply (proj2 (proj2 (Hin _)) lp)|].
  unfold second. rewrite Provider_Shutdown_run. cbn [fst]. fold m t l.
  rewrite nonempty_ltb, !collect_length.
  destruct (fst m), (fst t), (fst l); simpl; split;
    try discriminate; try tauto;
    intros (H1 & H2 & H3); discriminate.
Qed.

(** ** WithSpan *)

Definition is_open (e : event) : bool :=
  match e with EvSpanStart _ _ _ => true | _ => false end.

Definition is_close (e : event) : bool :=
  match e with EvSpanEnd _ => true | _ => false end.

Definition is_close_of (s : Handle) (e : event) : bool :=
  match e with EvSpanEnd s' => s' =? s | _ => false end.

(** Scope-open and scope-close events in a log, and the close events of
    one scope. *)
Definition scope_opens (es : list event) : nat := length (filter is_open es).
Definition scope_closes (es : list event) : nat := length (filter is_close es).
Definition closes_of (s : Handle) (es : list event) : nat :=
  length (filter (is_close_of s) es).

(** What [WithSpan] records between the return of the work function and the
    deferred [span.End()]. *)
Definition report (name : string) (span : Handle) (r : outcome (option error))
  : list event :=
  match r with
  | Panic _ => []
  | Ret (Some e) =>
      [EvRecordError span e; EvSetStatusError span (Error e);
       EvLog ErrorLevel "Span error" name (Some span) (Some e)]
  | Ret None => [EvLog DebugLevel "Completed span" name (Some span) None]
  end.

(** The context and the log the work function of [WithSpan] starts from. *)
Definition span_context (ctx : Context) (past : list event) : Context :=
  {| ctx_span := Some (length past); ctx_groups := ctx_groups ctx |}.

Definition span_prologue (ctx : Context) (name : string) (past : list event)
  : list event :=
  [EvSpanStart (length past) name (ctx_span ctx);
   EvLog DebugLevel "Starting span" name (Some (length past)) None].

Lemma WithSpan_run ctx name (fn : Work) env past :
  let work := fn (span_context ctx past) env (past ++ span_prologue ctx name past) in
  WithSpan ctx name fn env past
  = (fst work,
     span_prologue ctx name past ++ snd work
       ++ report name (length past) (fst work) ++ [EvSpanEnd (length past)]).
Proof.
  intros work. unfold WithSpan, defer, ContextWithSpan, LoggerWithContext.
  unfold bind, emit, ret. cbn [fst snd ctx_span app].
  rewrite <- app_assoc. cbn [app].
  change (fn _ env _) with work.
  destruct work as [[[e|]|v] es]; cbn [fst snd report app];
    rewrite ?app_nil_r, <- ?app_assoc; reflexivity.
Qed.

Lemma count_app f (a b : list event) :
  length (filter f (a ++ b)) = length (filter f a) + length (filter f b).
Proof. now rewrite filter_app, length_app. Qed.

Lemma report_no_scope_events name span r :
  filter is_open (report name span r) = [] /\
  filter is_close (report name span r) = [] /\
  filter (is_close_of span) (report name span r) = [].
Proof. destruct r as [[e|]|v]; repeat split. Qed.

(** C9.  Whatever the work function does (return nil, return an error or
    panic), [WithSpan] ends the way the work function ended and closes the
    scope it created exactly once: its log is the open event of the new
    scope, the events of the work function, and last the close event of
    the new scope, so the call adds one scope-open and one scope-close
    event to those of the work function.  Hence, when the work function
    leaves its own scopes balanced, the numbers of scope-open and
    scope-close events are equal after the call. *)
Theorem WithSpan_closes_scope_once (env : Env) (ctx : Context) (name : string)
    (fn : Work) (past : list event) :
  let span := length past in
  let work := fn (span_context ctx past) env (past ++ span_prologue ctx name past) in
  let r := WithSpan ctx name fn env past in
  fst r = fst work /\
  snd r = (EvSpanStart span name (ctx_span ctx)
           :: EvLog DebugLevel "Starting span" name (Some span) None
           :: snd work ++ report name span (fst work) ++ [EvSpanEnd span]) /\
  scope_opens (snd r) = S (scope_opens (snd work)) /\
  scope_closes (snd r) = S (scope_closes (snd work)) /\
  closes_of span (snd r) = S (closes_of span (snd work)) /\
  (scope_opens (snd work) = scope_closes (snd work) ->
   scope_opens (snd r) = scope_closes (snd r)).
Proof.
  intros span work r.
  assert (Hr : r = (fst work,
                    span_prologue ctx name past ++ snd work
                    ++ report name span (fst work) ++ [EvSpanEnd span]))
    by apply WithSpan_run.
  destruct (report_no_scope_events name span (fst work)) as (Ho & Hc & Hs).
  assert (Hopens : scope_opens (snd r) = S (scope_opens (snd work))).
  { rewrite Hr. cbn [snd]. unfold scope_opens.
    rewrite !count_app, Ho. cbn [span_prologue filter is_open length]. lia. }
  assert (Hcloses : scope_closes (snd r) = S (scope_closes (snd work))).
  { rewrite Hr. cbn [snd]. unfold scope_closes.
    rewrite !count_app, Hc. cbn [span_prologue filter is_close length]. lia. }
  split; [now rewrite Hr|]. split; [now rewrite Hr|].
  split; [assumption|]. split; [assumption|]. split; [|lia].
  rewrite Hr. cbn [snd]. unfold closes_of.
  rewrite !count_app, Hs. cbn [span_prologue filter is_close_of length].
  fold span. rewrite Nat.eqb_refl. cbn [length]. lia.
Qed.

(** The three exit paths on a parent context without a span. *)
Definition ctx_background : Context := {| ctx_span := None; ctx_groups := [] |}.

Definition work_ok : Work := fun _ _ _ => (Ret None, [EvWork 1]).
Definition work_fails : Work :=
  fun _ _ _ => (Ret (Some (errorString "no data")), [EvWork 1]).
Definition work_panics : Work := fun _ _ _ => (Panic "index out of range", [EvWork 1]).

Example WithSpan_returns_nil :
  WithSpan ctx_background "op" work_ok env_ok []
  = (Ret None,
     [EvSpanStart 0 "op" None; EvLog DebugLevel "Starting span" "op" (Some 0) None;
      EvWork 1; EvLog DebugLevel "Completed span" "op" (Some 0) None;
      EvSpanEnd 0]).
Proof. reflexivity. Qed.

Example WithSpan_returns_error :
  WithSpan ctx_background "op" work_fails env_ok []
  = (Ret (Some (errorString "no data")),
     [EvSpanStart 0 "op" None; EvLog DebugLevel "Starting span" "op" (Some 0) None;
      EvWork 1; EvRecordError 0 (errorString "no data");
      EvSetStatusError 0 "no data";
      EvLog ErrorLevel "Span error" "op" (Some 0) (Some (errorString "no data"));
      EvSpanEnd 0]).
Proof. reflexivity. Qed.

Example WithSpan_panics :
  WithSpan ctx_background "op" work_panics env_ok []
  = (Panic "index out of range",
     [EvSpanStart 0 "op" None; EvLog DebugLevel "Starting span" "op" (Some 0) None;
      EvWork 1; EvSpanEnd 0]).
Proof. reflexivity. Qed.

(** Nested scopes: the inner call is balanced, hence so is the outer. *)
Example WithSpan_nested_balanced :
  let r := WithSpan ctx_background "outer"
             (fun c => WithSpan c "inner" work_fails) env_ok [] in
  scope_opens (snd r) = 2 /\ scope_closes (snd r) = 2 /\
  closes_of 0 (snd r) = 1 /\ closes_of 2 (snd r) = 1.
Proof. repeat split. Qed.

(** ** Task groups *)

(** The return records of group [gid] in a log: index of the task and what
    its function returned, in the order the tasks finished. *)
Fixpoint returns (gid : nat) (es : list event) : list (nat * option error) :=
  match es with
  | [] => []
  | EvTaskReturn g' i r :: rest =>
      if g' =? gid then (i, r) :: returns gid rest else returns gid rest
  | _ :: rest => returns gid rest
  end.

(** The error a group keeps: the one it already has, else the first
    non-nil one among the returns. *)
Definition kept (init : option error) (rs : list (nat * option error))
  : option error :=
  fold_left (fun acc ir => match acc with Some e => Some e | None => snd ir end)
            rs init.

Lemma returns_app gid a b : returns gid (a ++ b) = returns gid a ++ returns gid b.
Proof.
  induction a as [|e a IH]; [reflexivity|].
  destruct e; simpl; rewrite ?IH; try reflexivity.
  destruct (g =? gid); reflexivity.
Qed.

Lemma kept_app init a b : kept init (a ++ b) = kept (kept init a) b.
Proof. apply fold_left_app. Qed.

Lemma kept_Some e rs : kept (Some e) rs = Some e.
Proof. induction rs as [|ir rs IH]; [reflexivity | exact IH]. Qed.

Lemma kept_None_iff rs :
  kept None rs = None <-> forall i r, In (i, r) rs -> r = None.
Proof.
  induction rs as [|[i r] rs IH]; simpl.
  - split; [intros _ i r [] | reflexivity].
  - unfold kept; simpl. destruct r as [e|].
    + fold (kept (Some e) rs). rewrite kept_Some. split; [discriminate|].
      intros H. now specialize (H i (Some e) (or_introl eq_refl)).
    + fold (kept None rs). rewrite IH. split.
      * intros H j r [Heq | Hin]; [now injection Heq as _ <- | eauto].
      * intros H j r Hin. eauto.
Qed.

Lemma kept_None_Some rs e :
  kept None rs = Some e -> exists i, In (i, Some e) rs.
Proof.
  induction rs as [|[i r] rs IH]; [discriminate|].
  unfold kept; simpl. destruct r as [e'|].
  - fold (kept (Some e') rs). rewrite kept_Some. intros [= ->].
    exists i. now left.
  - fold (kept None rs). intros H. destruct (IH H) as (j & Hj).
    exists j. now right.
Qed.

Lemma remove_nth_perm {A} (l : list A) : forall k a,
  nth_error l k = Some a -> Permutation l (a :: remove_nth k l).
Proof.
  induction l as [|x l IH]; intros [|k] a H; try discriminate.
  - injection H as ->. reflexivity.
  - simpl in H. simpl. rewrite perm_swap. constructor. now apply IH.
Qed.

Lemma remove_nth_length {A} (l : list A) : forall k a,
  nth_error l k = Some a -> length l = S (length (remove_nth k l)).
Proof.
  intros k a H. apply remove_nth_perm in H.
  now rewrite (Permutation_length H).
Qed.

Lemma remove_nth_incl {A} (l : list A) : forall k, incl (remove_nth k l) l.
Proof.
  induction l as [|x l IH]; intros [|k]; simpl; try apply incl_refl.
  - apply incl_tl, incl_refl.
  - intros a [-> | Ha]; [now left | right; now apply (IH k)].
Qed.

(** An event that is a return record of group [gid]. *)
Definition is_return (gid : nat) (e : event) : bool :=
  match e with EvTaskReturn g' _ _ => g' =? gid | _ => false end.

Lemma returns_nil_In gid es e :
  returns gid es = [] -> In e es -> is_return gid e = false.
Proof.
  induction es as [|a es IH]; intros Hr Hin; [destruct Hin|].
  destruct Hin as [-> | Hin].
  - destruct e; try reflexivity. simpl in *.
    destruct (g =? gid); [discriminate | reflexivity].
  - apply IH; [|assumption].
    destruct a; simpl in Hr; try assumption.
    destruct (g =? gid); [discriminate | assumption].
Qed.

(** A return record of [gid] found in [quietpart ++ e :: tail], where it
    occurs neither in [quietpart] nor in [tail], is [e]. *)
Lemma unique_return gid quietpart e tail pre i r post :
  returns gid quietpart = [] -> returns gid tail = [] ->
  quietpart ++ e :: tail = pre ++ EvTaskReturn gid i r :: post ->
  pre = quietpart /\ e = EvTaskReturn gid i r.
Proof.
  intros Hq Ht. revert pre.
  induction quietpart as [|a q IH]; intros pre H.
  - destruct pre as [|b pre]; simpl in H.
    + injection H as -> _. now split.
    + injection H as _ H.
      assert (Hin : In (EvTaskReturn gid i r) tail)
        by (rewrite H; apply in_elt).
      apply (returns_nil_In _ _ _ Ht) in Hin. simpl in Hin.
      now rewrite Nat.eqb_refl in Hin.
  - destruct pre as [|b pre]; simpl in H.
    + injection H as -> _. simpl in Hq. now rewrite Nat.eqb_refl in Hq.
    + injection H as <- H.
      assert (Hq' : returns gid q = []).
      { destruct a; simpl in Hq; try assumption.
        destruct (g =? gid); [discriminate | assumption]. }
      destruct (IH Hq' pre H) as [-> ->]. now split.
Qed.

Section TaskGroupProofs.

Variable T : Type.
Variable task : nat -> T -> M (outcome (option error)).
Variable g : Group.
Variable env : Env.

(** The task functions leave no return record of this group in the log:
    the group is local to the combinator that created it. *)
Hypothesis task_quiet :
  forall i x past, returns (g_id g) (snd (task i x env past)) = [].

(** Every return record of the group in [es] closes a run of the task
    function of that index, on the log as it was when the task started. *)
Definition Justified (univ : list (nat * T)) (past es : list event) : Prop :=
  forall pre i r post, es = pre ++ EvTaskReturn (g_id g) i r :: post ->
    exists pre0 x, In (i, x) univ /\
      pre = pre0 ++ snd (task i x env (past ++ pre0)) /\
      fst (task i x env (past ++ pre0)) = Ret r.

(** From state [st], with the tasks [extra] spawned on the way, the group
    reached [st'] and logged [es]: unless a task panicked, every task is
    either returned or still running, and the kept error is the first one
    returned. *)
Definition Progress (past : list event) (st : gstate T) (extra : list (nat * T))
    (st' : gstate T) (es : list event) : Prop :=
  g_panic st' = None ->
  g_panic st = None /\
  Permutation (map fst (running st ++ extra))
              (map fst (returns (g_id g) es) ++ map fst (running st')) /\
  g_err st' = kept (g_err st) (returns (g_id g) es) /\
  incl (running st') (running st ++ extra) /\
  Justified (running st ++ extra) past es.

Lemma Justified_quiet univ past es :
  returns (g_id g) es = [] -> Justified univ past es.
Proof.
  intros Hq pre i r post ->.
  assert (Hin : In (EvTaskReturn (g_id g) i r) (pre ++ EvTaskReturn (g_id g) i r :: post))
    by apply in_elt.
  apply (returns_nil_In _ _ _ Hq) in Hin. simpl in Hin.
  now rewrite Nat.eqb_refl in Hin.
Qed.

Lemma Justified_incl u u' past es :
  incl u u' -> Justified u past es -> Justified u' past es.
Proof.
  intros Hi HJ pre i r post H.
  destruct (HJ pre i r post H) as (pre0 & x & Hin & Hpre & Hr).
  exists pre0, x. auto.
Qed.

Lemma Justified_app u past a b :
  Justified u past a -> Justified u (past ++ a) b -> Justified u past (a ++ b).
Proof.
  intros Ha Hb pre i r post H.
  apply app_eq_app in H. destruct H as (l & [[Hl Hr] | [Hl Hr]]).
  - destruct l as [|e l].
    + simpl in Hr. rewrite app_nil_r in Hl. subst pre.
      destruct (Hb [] i r post (eq_sym Hr)) as (pre0 & x & Hin & Hpre & Hret).
      exists (a ++ pre0), x. split; [assumption|].
      rewrite <- app_assoc in Hpre, Hret.
      split; [|assumption].
      rewrite <- app_assoc, <- Hpre. now rewrite app_nil_r.
    + injection Hr as <- Hr.
      destruct (Ha pre i r l Hl) as (pre0 & x & Hin & Hpre & Hret).
      exists pre0, x. auto.
  - destruct (Hb l i r post Hr) as (pre0 & x & Hin & Hpre & Hret).
    exists (a ++ pre0), x. split; [assumption|].
    rewrite <- app_assoc in Hpre, Hret.
    split; [|assumption].
    rewrite Hl, Hpre at 1. now rewrite <- app_assoc.
Qed.

Lemma Progress_refl past st : Progress past st [] st [].
Proof.
  intros Hp. rewrite app_nil_r. repeat split; try assumption.
  - reflexivity.
  - apply incl_refl.
  - now apply Justified_quiet.
Qed.

Lemma Progress_trans past st x1 st1 es1 x2 st2 es2 :
  Progress past st x1 st1 es1 ->
  Progress (past ++ es1) st1 x2 st2 es2 ->
  Progress past st (x1 ++ x2) st2 (es1 ++ es2).
Proof.
  intros P1 P2 Hp.
  destruct (P2 Hp) as (Hp1 & Hperm2 & Herr2 & Hincl2 & HJ2).
  destruct (P1 Hp1) as (Hp0 & Hperm1 & Herr1 & Hincl1 & HJ1).
  assert (Hinc : incl (running st1 ++ x2) (running st ++ x1 ++ x2)).
  { rewrite (app_assoc (running st)). apply incl_app.
    - apply incl_appl. assumption.
    - apply incl_appr, incl_refl. }
  split; [assumption|]. split; [|split; [|split]].
  - rewrite (app_assoc (running st) x1 x2), (map_app fst (running st ++ x1) x2).
    rewrite Hperm1, returns_app, (map_app fst (returns (g_id g) es1)).
    rewrite <- !app_assoc. apply Permutation_app_head.
    rewrite <- map_app. exact Hperm2.
  - now rewrite returns_app, kept_app, <- Herr1.
  - intros a Ha. apply Hinc, Hincl2, Ha.
  - apply Justified_app.
    + apply (Justified_incl (running st ++ x1)); [|assumption].
      rewrite (app_assoc (running st)). apply incl_appl, incl_refl.
    + now apply (Justified_incl (running st1 ++ x2)).
Qed.

Lemma run_task_running st k a past :
  nth_error (running st) k = Some a ->
  running (fst (run_task task g st k env past)) = remove_nth k (running st).
Proof.
  intros Hk. unfold run_task. rewrite Hk. destruct a as [i x].
  rewrite bind_fst. destruct (fst (task i x env past)) as [[e|]|v];
    [ rewrite bind_fst; destruct (g_err st); [|rewrite bind_fst]
    | rewrite bind_fst | ]; reflexivity.
Qed.

Lemma run_task_Ret st k i x r past :
  nth_error (running st) k = Some (i, x) ->
  fst (task i x env past) = Ret r ->
  run_task task g st k env past
  = ({| running := remove_nth k (running st);
        g_err := kept (g_err st) [(i, r)];
        g_panic := g_panic st |},
     snd (task i x env past)
     ++ EvTaskReturn (g_id g) i r
        :: match r, g_err st with
           | Some _, None => [EvCancel (g_id g)]
           | _, _ => []
           end).
Proof.
  intros Hk Hr. unfold run_task. rewrite Hk, bind_eq, Hr.
  destruct r as [e|], (g_err st) as [e0|]; rewrite !bind_eq; reflexivity.
Qed.

Lemma run_task_Panic st k i x v past :
  nth_error (running st) k = Some (i, x) ->
  fst (task i x env past) = Panic v ->
  g_panic (fst (run_task task g st k env past)) = Some v.
Proof.
  intros Hk Hr. unfold run_task. now rewrite Hk, bind_eq, Hr.
Qed.

Lemma run_task_progress st k past :
  Progress past st [] (fst (run_task task g st k env past))
                      (snd (run_task task g st k env past)).
Proof.
  destruct (nth_error (running st) k) as [[i x]|] eqn:Hk;
    [|unfold run_task; rewrite Hk; apply Progress_refl].
  destruct (fst (task i x env past)) as [r|v] eqn:Hr;
    [|intros Hp; rewrite (run_task_Panic _ _ _ _ _ _ Hk Hr) in Hp; discriminate].
  rewrite (run_task_Ret _ _ _ _ _ _ Hk Hr). cbn [fst snd].
  set (tail := match r, g_err st with
               | Some _, None => [EvCancel (g_id g)] | _, _ => [] end).
  assert (Htail : returns (g_id g) tail = [])
    by (unfold tail; destruct r, (g_err st); reflexivity).
  assert (Hret : returns (g_id g)
                   (snd (task i x env past) ++ EvTaskReturn (g_id g) i r :: tail)
                 = [(i, r)]).
  { rewrite returns_app, task_quiet. simpl. now rewrite Nat.eqb_refl, Htail. }
  intros Hp. cbn [running g_err g_panic] in *.
  rewrite Hret, (app_nil_r (running st)).
  split; [assumption|]. split; [|split; [|split]].
  - change (map fst [(i, r)] ++ map fst (remove_nth k (running st)))
      with (map fst ((i, x) :: remove_nth k (running st))).
    apply Permutation_map. now apply remove_nth_perm.
  - reflexivity.
  - apply remove_nth_incl.
  - intros pre j rj post H.
    destruct (unique_return _ _ _ _ _ _ _ _ (task_quiet i x past) Htail H)
      as [-> Heq].
    injection Heq as <- <-.
    exists [], x. rewrite app_nil_r. simpl.
    split; [now apply (nth_error_In _ k) | now split].
Qed.

Lemma finish_tasks_panicked n st v past :
  g_panic st = Some v -> finish_tasks task g n st env past = (st, []).
Proof. intros H. destruct n; simpl; [reflexivity | now rewrite H]. Qed.

Lemma finish_tasks_S n st past :
  g_panic st = None -> running st <> [] ->
  finish_tasks task g (S n) st env past =
  (fst (finish_tasks task g n
          (fst (run_task task g st (pick env past mod length (running st)) env past))
          env
          (past ++ snd (run_task task g st (pick env past mod length (running st))
                          env past))),
   snd (run_task task g st (pick env past mod length (running st)) env past)
   ++ snd (finish_tasks task g n
          (fst (run_task task g st (pick env past mod length (running st)) env past))
          env
          (past ++ snd (run_task task g st (pick env past mod length (running st))
                          env past)))).
Proof.
  intros Hp Hr. cbn [finish_tasks]. rewrite Hp.
  destruct (running st) as [|a l] eqn:Hrun; [contradiction|].
  rewrite bind_eq. cbn [fst snd]. rewrite bind_eq, app_nil_r. reflexivity.
Qed.

Lemma finish_tasks_progress n : forall st past,
  Progress past st [] (fst (finish_tasks task g n st env past))
                      (snd (finish_tasks task g n st env past)).
Proof.
  induction n as [|n IH]; intros st past; [apply Progress_refl|].
  destruct (g_panic st) as [v|] eqn:Hp.
  { rewrite (finish_tasks_panicked _ _ v) by assumption. apply Progress_refl. }
  destruct (running st) as [|a l] eqn:Hrun.
  { cbn [finish_tasks]. rewrite Hp, Hrun. apply Progress_refl. }
  rewrite finish_tasks_S by (try assumption; rewrite Hrun; discriminate).
  cbn [fst snd].
  eapply (Progress_trans past st [] _ _ []).
  - apply run_task_progress.
  - apply IH.
Qed.

Lemma finish_tasks_length n : forall st past,
  g_panic (fst (finish_tasks task g n st env past)) = None ->
  length (running (fst (finish_tasks task g n st env past)))
  = length (running st) - n.
Proof.
  induction n as [|n IH]; intros st past Hfin; [simpl; lia|].
  destruct (g_panic st) as [v|] eqn:Hp.
  { rewrite (finish_tasks_panicked _ _ v) in Hfin by assumption.
    simpl in Hfin. congruence. }
  destruct (running st) as [|a l] eqn:Hrun.
  { cbn [finish_tasks]. rewrite Hp, Hrun. simpl. now rewrite Hrun. }
  assert (Hne : running st <> []) by (rewrite Hrun; discriminate).
  rewrite finish_tasks_S in Hfin |- * by assumption.
  cbn [fst] in Hfin |- *. rewrite <- Hrun.
  set (k := pick env past mod length (running st)) in *.
  assert (Hk : k < length (running st)).
  { apply Nat.mod_upper_bound. rewrite Hrun. discriminate. }
  destruct (nth_error (running st) k) as [b|] eqn:Hnth;
    [|apply nth_error_None in Hnth; lia].
  rewrite (IH _ _ Hfin), (run_task_running _ _ _ _ Hnth).
  rewrite (remove_nth_length _ _ _ Hnth). lia.
Qed.

Lemma acquire_eq st past :
  acquire task g st env past =
  match g_sem g with
  | None => ((st, false), [])
  | Some limit =>
      if limit =? 0 then ((st, true), [])
      else ((fst (finish_tasks task g (length (running st) + 1 - limit) st env past),
             false),
            snd (finish_tasks task g (length (running st) + 1 - limit) st env past))
  end.
Proof.
  unfold acquire. destruct (g_sem g) as [limit|]; [|reflexivity].
  destruct (limit =? 0); [reflexivity|].
  rewrite bind_eq. cbn [fst snd ret]. now rewrite app_nil_r.
Qed.

Lemma acquire_progress st past :
  Progress past st [] (fst (fst (acquire task g st env past)))
                      (snd (acquire task g st env past)).
Proof.
  rewrite acquire_eq. destruct (g_sem g) as [limit|]; [|apply Progress_refl].
  destruct (limit =? 0); [apply Progress_refl|]. apply finish_tasks_progress.
Qed.

Lemma acquire_blocked st past :
  g_sem g <> Some 0 -> snd (fst (acquire task g st env past)) = false.
Proof.
  intros Hs. rewrite acquire_eq. destruct (g_sem g) as [[|limit]|];
    [congruence | reflexivity | reflexivity].
Qed.

(** The state after [g.Go] spawned the task [(i, x)]. *)
Definition spawned (st : gstate T) (i : nat) (x : T) : gstate T :=
  {| running := running st ++ [(i, x)]; g_err := g_err st; g_panic := g_panic st |}.

Lemma launch_cons i x rest st past :
  let F := finish_tasks task g (yield env past) st env past in
  let A := acquire task g (fst F) env (past ++ snd F) in
  launch task g ((i, x) :: rest) st env past =
  match g_panic (fst (fst A)), snd (fst A) with
  | Some _, _ => (fst A, snd F ++ snd A)
  | None, true => (fst A, snd F ++ snd A)
  | None, false =>
      (fst (launch task g rest (spawned (fst (fst A)) i x) env
              (past ++ snd F ++ snd A ++ [EvGo (g_id g) i])),
       snd F ++ snd A ++ EvGo (g_id g) i ::
       snd (launch task g rest (spawned (fst (fst A)) i x) env
              (past ++ snd F ++ snd A ++ [EvGo (g_id g) i])))
  end.
Proof.
  intros F A. cbn [launch].
  rewrite bind_eq. cbn [fst snd]. rewrite app_nil_r.
  rewrite bind_eq. fold F.
  rewrite bind_eq. fold A.
  destruct (fst A) as [st2 blocked] eqn:HA. cbn [fst snd app].
  destruct (g_panic st2) as [v|] eqn:Hp.
  - cbn [ret fst snd]. now rewrite app_nil_r.
  - destruct blocked.
    + cbn [ret fst snd]. now rewrite app_nil_r.
    + rewrite bind_eq. cbn [emit fst snd].
      unfold spawned. rewrite Hp.
      replace (((past ++ snd F) ++ snd A) ++ [EvGo (g_id g) i])
        with (past ++ snd F ++ snd A ++ [EvGo (g_id g) i])
        by now rewrite !app_assoc.
      reflexivity.
Qed.

Lemma spawn_progress past st i x :
  Progress past st [(i, x)] (spawned st i x) [EvGo (g_id g) i].
Proof.
  intros Hp. cbn [spawned running g_err g_panic] in *.
  repeat split; try assumption.
  - reflexivity.
  - apply incl_refl.
  - now apply Justified_quiet.
Qed.

Lemma launch_progress todo : forall st past,
  snd (fst (launch task g todo st env past)) = false ->
  Progress past st todo (fst (fst (launch task g todo st env past)))
                        (snd (launch task g todo st env past)).
Proof.
  induction todo as [|[i x] rest IH]; intros st past; [intros _; apply Progress_refl|].
  rewrite launch_cons.
  set (F := finish_tasks task g (yield env past) st env past).
  set (A := acquire task g (fst F) env (past ++ snd F)).
  assert (PF : Progress past st [] (fst F) (snd F)) by apply finish_tasks_progress.
  assert (PA : Progress (past ++ snd F) (fst F) [] (fst (fst A)) (snd A))
    by apply acquire_progress.
  destruct (g_panic (fst (fst A))) as [v|] eqn:Hp.
  - intros _ Hp'. cbn [fst] in Hp'. congruence.
  - destruct (snd (fst A)) eqn:Hb.
    + cbn [fst snd]. rewrite Hb. discriminate.
    + cbn [fst snd]. intros Hblocked.
      change ((i, x) :: rest) with ([] ++ [] ++ [(i, x)] ++ rest).
      eapply Progress_trans; [exact PF|].
      eapply Progress_trans; [exact PA|].
      change (EvGo (g_id g) i :: ?l) with ([EvGo (g_id g) i] ++ l).
      eapply Progress_trans; [rewrite <- app_assoc; apply spawn_progress|].
      rewrite <- !app_assoc. apply IH. exact Hblocked.
Qed.

Lemma launch_blocked todo : forall st past,
  g_sem g <> Some 0 -> snd (fst (launch task g todo st env past)) = false.
Proof.
  induction todo as [|[i x] rest IH]; intros st past Hs; [reflexivity|].
  rewrite launch_cons.
  pose proof (acquire_blocked
                (fst (finish_tasks task g (yield env past) st env past))
                (past ++ snd (finish_tasks task g (yield env past) st env past)) Hs)
    as Hb.
  destruct (g_panic _); [exact Hb|]. rewrite Hb. cbn [fst]. now apply IH.
Qed.

(** No task function panics. *)
Definition task_returns : Prop :=
  forall i x past, exists r, fst (task i x env past) = Ret r.

Lemma run_task_nopanic st k past :
  task_returns -> g_panic st = None ->
  g_panic (fst (run_task task g st k env past)) = None.
Proof.
  intros Hret Hp.
  destruct (nth_error (running st) k) as [[i x]|] eqn:Hk.
  - destruct (Hret i x past) as [r Hr].
    now rewrite (run_task_Ret _ _ _ _ _ _ Hk Hr).
  - unfold run_task. now rewrite Hk.
Qed.

Lemma finish_tasks_nopanic n : forall st past,
  task_returns -> g_panic st = None ->
  g_panic (fst (finish_tasks task g n st env past)) = None.
Proof.
  induction n as [|n IH]; intros st past Hret Hp; [assumption|].
  destruct (running st) as [|a l] eqn:Hrun.
  - cbn [finish_tasks]. now rewrite Hp, Hrun.
  - rewrite finish_tasks_S by (try assumption; rewrite Hrun; discriminate).
    cbn [fst]. apply IH; [assumption|]. now apply run_task_nopanic.
Qed.

Lemma acquire_nopanic st past :
  task_returns -> g_panic st = None ->
  g_panic (fst (fst (acquire task g st env past))) = None.
Proof.
  intros Hret Hp. rewrite acquire_eq.
  destruct (g_sem g) as [limit|]; [|assumption].
  destruct (limit =? 0); [assumption|]. now apply finish_tasks_nopanic.
Qed.

Lemma launch_nopanic todo : forall st past,
  task_returns -> g_panic st = None ->
  g_panic (fst (fst (launch task g todo st env past))) = None.
Proof.
  induction todo as [|[i x] rest IH]; intros st past Hret Hp; [assumption|].
  rewrite launch_cons.
  assert (HA : g_panic (fst (fst (acquire task g
                 (fst (finish_tasks task g (yield env past) st env past)) env
                 (past ++ snd (finish_tasks task g (yield env past) st env past)))))
               = None)
    by (apply acquire_nopanic; [assumption | now apply finish_tasks_nopanic]).
  rewrite HA. destruct (snd (fst (acquire _ _ _ _ _))); [exact HA|].
  cbn [fst]. apply IH; assumption.
Qed.

Lemma map_fst_combine_seq (items : list T) : forall a,
  map fst (combine (seq a (length items)) items) = seq a (length items).
Proof.
  induction items as [|x items IH]; intros a; [reflexivity|].
  simpl. now rewrite IH.
Qed.

Lemma in_combine_seq (items : list T) : forall a i x,
  In (i, x) (combine (seq a (length items)) items) ->
  a <= i /\ nth_error items (i - a) = Some x.
Proof.
  induction items as [|y items IH]; intros a i x Hin; [destruct Hin|].
  simpl in Hin. destruct Hin as [Heq | Hin].
  - injection Heq as <- <-. rewrite Nat.sub_diag. now split.
  - destruct (IH (S a) i x Hin) as [Hle Hnth]. split; [lia|].
    replace (i - a) with (S (i - S a)) by lia. exact Hnth.
Qed.

(** A group whose semaphore is not of capacity zero: the loop and [Wait]
    never block; if they return, every task function has run exactly once,
    each return record closes a run of the function on its item, and the
    error returned is the first one returned by a task, nil if there is
    none; and they do return if no task function panics. *)
Lemma run_group_spec (items : list T) (past : list event) :
  g_sem g <> Some 0 ->
  let r := run_group task g items env past in
  fst r <> Blocked /\
  (task_returns -> exists e, fst r = Returned e) /\
  forall e, fst r = Returned e ->
    Permutation (seq 0 (length items)) (map fst (returns (g_id g) (snd r))) /\
    e = kept None (returns (g_id g) (snd r)) /\
    Justified (combine (seq 0 (length items)) items) past (snd r).
Proof.
  intros Hs r. unfold r, run_group. clear r.
  set (st0 := {| running := []; g_err := None; g_panic := None |}).
  set (todo := combine (seq 0 (length items)) items).
  rewrite bind_eq.
  set (L := launch task g todo st0 env past).
  assert (Hb : snd (fst L) = false) by now apply launch_blocked.
  assert (PL : Progress past st0 todo (fst (fst L)) (snd L))
    by now apply launch_progress.
  assert (NL : task_returns -> g_panic (fst (fst L)) = None)
    by (intros Hret; now apply launch_nopanic).
  destruct (fst L) as [st b] eqn:HL. cbn [fst snd] in Hb, PL, NL. subst b.
  destruct (g_panic st) as [v|] eqn:Hp.
  { cbn [ret fst snd]. split; [discriminate|]. split; [|discriminate].
    intros Hret. specialize (NL Hret). discriminate. }
  rewrite bind_eq.
  set (F := finish_tasks task g (length (running st)) st env (past ++ snd L)).
  assert (PF : Progress (past ++ snd L) st [] (fst F) (snd F))
    by apply finish_tasks_progress.
  assert (NF : task_returns -> g_panic (fst F) = None)
    by (intros Hret; now apply finish_tasks_nopanic).
  destruct (g_panic (fst F)) as [v|] eqn:HpF.
  { cbn [ret fst snd]. split; [discriminate|]. split; [|discriminate].
    intros Hret. specialize (NF Hret). discriminate. }
  rewrite bind_eq. cbn [emit ret fst snd].
  split; [discriminate|]. split; [intros _; eexists; reflexivity|].
  intros e [= <-].
  assert (Hlen : length (running (fst F)) = 0).
  { unfold F. rewrite finish_tasks_length by exact HpF. lia. }
  assert (Hnil : running (fst F) = [])
    by (destruct (running (fst F)); [reflexivity | discriminate]).
  pose proof (Progress_trans _ _ _ _ _ _ _ _ PL PF) as P.
  destruct (P HpF) as (_ & Hperm & Herr & _ & HJ).
  rewrite app_nil_r in Hperm, HJ. cbn [running app st0 g_err] in Hperm, Herr, HJ.
  rewrite Hnil in Hperm. cbn [map] in Hperm. rewrite app_nil_r in Hperm.
  unfold todo in Hperm. rewrite map_fst_combine_seq in Hperm.
  assert (Hrets : returns (g_id g) (snd L ++ snd F ++ [EvCancel (g_id g)] ++ [])
                  = returns (g_id g) (snd L ++ snd F)).
  { rewrite app_assoc, returns_app. simpl. now rewrite app_nil_r. }
  rewrite Hrets. split; [assumption|]. split; [assumption|].
  rewrite app_assoc. apply Justified_app; [assumption|].
  now apply Justified_quiet.
Qed.

End TaskGroupProofs.

(** ** Schedules

    What a run of a task group looks like from outside: a sequence of
    steps, each either a [g.Go] that spawns the goroutine of an item, or
    one goroutine running its function from start to end. *)
Inductive step : Type :=
| StepGo (i : nat)
| StepRun (i : nat).

(** The indices spawned, and the indices run, in the order of the schedule. *)
Fixpoint started (sched : list step) : list nat :=
  match sched with
  | [] => []
  | StepGo i :: rest => i :: started rest
  | StepRun _ :: rest => started rest
  end.

Fixpoint completed (sched : list step) : list nat :=
  match sched with
  | [] => []
  | StepGo _ :: rest => completed rest
  | StepRun i :: rest => i :: completed rest
  end.

(** No goroutine runs before the [g.Go] that spawns it, given the indices
    [live] spawned earlier. *)
Definition Ordered (live : list nat) (sched : list step) : Prop :=
  forall s1 s2, sched = s1 ++ s2 -> incl (completed s1) (live ++ started s1).

Section Replay.

Variable T : Type.
Variable task : nat -> T -> M (outcome (option error)).
Variable gid : nat.
Variable items : list T.

(** The log of a schedule, from the error [err] the group already keeps:
    a [StepGo] logs the spawn; a [StepRun i] calls the function of item [i]
    once, logs its return, and cancels the group context if this is the
    first error.  The result lists what each call returned, in order, and
    the panic that ended the replay, if any. *)
Fixpoint replay (sched : list step) (err : option error)
  : M (list (nat * option error) * option string) :=
  match sched with
  | [] => ret ([], None)
  | StepGo i :: rest => emit (EvGo gid i) ;;; replay rest err
  | StepRun i :: rest =>
      match nth_error items i with
      | None => replay rest err
      | Some x =>
          r <- task i x ;;
          match r with
          | Panic v => ret ([], Some v)
          | Ret e =>
              emit (EvTaskReturn gid i e) ;;;
              match e, err with
              | Some _, None => emit (EvCancel gid)
              | _, _ => ret tt
              end ;;;
              rs <- replay rest (kept err [(i, e)]) ;;
              ret ((i, e) :: fst rs, snd rs)
          end
      end
  end.

End Replay.

Lemma started_app a b : started (a ++ b) = started a ++ started b.
Proof.
  induction a as [|[i|i] a IH]; cbn; rewrite ?IH; reflexivity.
Qed.

Lemma completed_app a b : completed (a ++ b) = completed a ++ completed b.
Proof.
  induction a as [|[i|i] a IH]; cbn; rewrite ?IH; reflexivity.
Qed.

Section ReplayProofs.

Variable T : Type.
Variable task : nat -> T -> M (outcome (option error)).
Variable g : Group.
Variable env : Env.
Variable items : list T.

Lemma replay_go i rest err past :
  replay T task (g_id g) items (StepGo i :: rest) err env past
  = (fst (replay T task (g_id g) items rest err env (past ++ [EvGo (g_id g) i])),
     EvGo (g_id g) i :: snd (replay T task (g_id g) items rest err env (past ++ [EvGo (g_id g) i]))).
Proof.
  cbn [replay]. rewrite bind_eq. reflexivity.
Qed.

Lemma replay_run_ret i x e rest err past :
  nth_error items i = Some x ->
  fst (task i x env past) = Ret e ->
  let tail := match e, err with
              | Some _, None => [EvCancel (g_id g)]
              | _, _ => []
              end in
  let es := snd (task i x env past) ++ EvTaskReturn (g_id g) i e :: tail in
  let rs := replay T task (g_id g) items rest (kept err [(i, e)]) env (past ++ es) in
  replay T task (g_id g) items (StepRun i :: rest) err env past
  = (((i, e) :: fst (fst rs), snd (fst rs)), es ++ snd rs).
Proof.
  intros Hx He tail es rs. cbn [replay]. rewrite Hx, bind_eq, He.
  rewrite bind_eq. cbn [emit fst snd]. rewrite bind_eq.
  assert (Ht : forall q,
             (match e, err with
              | Some _, None => emit (EvCancel (g_id g))
              | _, _ => ret tt
              end) env q = (tt, tail)).
  { intros q. unfold tail. destruct e, err; reflexivity. }
  rewrite Ht. cbn [fst snd]. rewrite bind_eq. cbn [ret fst snd].
  replace (((past ++ snd (task i x env past)) ++ [EvTaskReturn (g_id g) i e]) ++ tail)
    with (past ++ es)
    by (unfold es; rewrite <- !app_assoc; reflexivity).
  fold rs. rewrite app_nil_r. unfold es. rewrite <- !app_assoc. reflexivity.
Qed.

Lemma replay_run_panic i x v rest err past :
  nth_error items i = Some x ->
  fst (task i x env past) = Panic v ->
  replay T task (g_id g) items (StepRun i :: rest) err env past
  = (([], Some v), snd (task i x env past)).
Proof.
  intros Hx Hv. cbn [replay]. rewrite Hx, bind_eq, Hv. cbn [ret fst snd].
  now rewrite app_nil_r.
Qed.

Lemma replay_app s1 : forall s2 err past,
  let r1 := replay T task (g_id g) items s1 err env past in
  replay T task (g_id g) items (s1 ++ s2) err env past
  = match snd (fst r1) with
    | Some v => ((fst (fst r1), Some v), snd r1)
    | None =>
        let r2 := replay T task (g_id g) items s2 (kept err (fst (fst r1))) env (past ++ snd r1) in
        ((fst (fst r1) ++ fst (fst r2), snd (fst r2)), snd r1 ++ snd r2)
    end.
Proof.
  induction s1 as [|[i|i] s1 IH]; intros s2 err past.
  - cbn [app replay ret fst snd kept fold_left]. rewrite app_nil_r.
    now destruct (replay T task (g_id g) items s2 err env past) as [[rs p] es].
  - cbn zeta. cbn [app]. rewrite !replay_go. cbn [fst snd].
    rewrite IH. cbn zeta.
    destruct (snd (fst (replay T task (g_id g) items s1 err env (past ++ [EvGo (g_id g) i])))); [reflexivity|].
    rewrite <- app_assoc. reflexivity.
  - cbn zeta. cbn [app].
    destruct (nth_error items i) as [x|] eqn:Hx.
    + destruct (fst (task i x env past)) as [e|v] eqn:Hr.
      * rewrite !(replay_run_ret i x e _ err past Hx Hr). cbn [fst snd].
        rewrite IH. cbn zeta.
        destruct (snd (fst (replay T task (g_id g) items s1 _ env _))); [reflexivity|].
        rewrite <- !app_assoc.
        change (kept err ((i, e) :: ?l)) with (kept (kept err [(i, e)]) l).
        reflexivity.
      * rewrite !(replay_run_panic i x v _ err past Hx Hr). reflexivity.
    + cbn [replay]. rewrite Hx. apply IH.
Qed.


Lemma replay_nopanic sched : forall err past,
  (forall i x q, exists r, fst (task i x env q) = Ret r) ->
  snd (fst (replay T task (g_id g) items sched err env past)) = None.
Proof.
  induction sched as [|[i|i] sched IH]; intros err past Hret; [reflexivity| |].
  - rewrite replay_go. cbn [fst]. now apply IH.
  - destruct (nth_error items i) as [x|] eqn:Hx.
    + destruct (Hret i x past) as [e He].
      rewrite (replay_run_ret i x e _ err past Hx He). cbn [fst snd]. now apply IH.
    + cbn [replay]. rewrite Hx. now apply IH.
Qed.

Lemma Ordered_nil live : Ordered live [].
Proof.
  intros s1 s2 H. symmetry in H. apply app_eq_nil in H as [-> _].
  intros a [].
Qed.

Lemma Ordered_app live live2 f1 f2 :
  Ordered live f1 -> Ordered live2 f2 ->
  incl live2 (live ++ started f1) ->
  Ordered live (f1 ++ f2).
Proof.
  intros H1 H2 Hlive s1 s2 H.
  apply app_eq_app in H. destruct H as (l & [[Hl Hr] | [Hl Hr]]).
  - now apply (H1 s1 l).
  - subst s1. rewrite completed_app, started_app.
    apply incl_app.
    + rewrite app_assoc. apply incl_appl. apply (H1 f1 []). now rewrite app_nil_r.
    + intros a Ha. apply (H2 l s2 Hr) in Ha.
      apply in_app_or in Ha as [Ha | Ha].
      * apply Hlive in Ha. rewrite app_assoc. apply in_or_app. now left.
      * rewrite app_assoc. apply in_or_app. now right.
Qed.

(** Every spawned task carries the item of its index. *)
Definition Listed (l : list (nat * T)) : Prop :=
  forall i x, In (i, x) l -> nth_error items i = Some x.

(** From state [st] the group reached [st'] and logged [es], spawning the
    tasks [extra] on the way: the log is the replay of a schedule that runs
    tasks spawned before or on the way, each at most once. *)
Definition Sim (past : list event) (st : gstate T) (extra : list (nat * T))
    (st' : gstate T) (es : list event) : Prop :=
  exists frag,
    snd (replay T task (g_id g) items frag (g_err st) env past) = es /\
    snd (fst (replay T task (g_id g) items frag (g_err st) env past)) = g_panic st' /\
    (g_panic st' = None ->
       g_err st'
       = kept (g_err st) (fst (fst (replay T task (g_id g) items frag (g_err st) env past))) /\
       map fst (fst (fst (replay T task (g_id g) items frag (g_err st) env past)))
       = completed frag /\
       started frag = map fst extra /\
       Permutation (map fst (running st ++ extra))
                   (completed frag ++ map fst (running st')) /\
       incl (running st') (running st ++ extra) /\
       Ordered (map fst (running st)) frag).

Lemma Sim_refl past st : g_panic st = None -> Sim past st [] st [].
Proof.
  intros Hp. exists []. cbn [replay ret fst snd]. split; [reflexivity|].
  split; [now rewrite Hp|]. intros _. rewrite app_nil_r.
  repeat split; try reflexivity.
  - apply incl_refl.
  - apply Ordered_nil.
Qed.

Lemma Sim_stop past st x x' st1 es v :
  g_panic st1 = Some v -> Sim past st x st1 es -> Sim past st x' st1 es.
Proof.
  intros Hv (frag & Hes & Hp & _). exists frag.
  split; [assumption|]. split; [assumption|]. intros H. congruence.
Qed.

Lemma Sim_seq past st x1 st1 es1 x2 st2 es2 :
  Sim past st x1 st1 es1 ->
  g_panic st1 = None ->
  Sim (past ++ es1) st1 x2 st2 es2 ->
  Sim past st (x1 ++ x2) st2 (es1 ++ es2).
Proof.
  intros (f1 & Hes1 & Hp1 & H1) Hnp (f2 & Hes2 & Hp2 & H2).
  destruct (H1 Hnp) as (Herr1 & Hres1 & Hst1 & Hperm1 & Hincl1 & Hord1).
  exists (f1 ++ f2). rewrite replay_app. cbn zeta.
  rewrite Hp1, Hnp, <- Herr1, Hes1. cbn [fst snd].
  split; [now rewrite Hes2|]. split; [assumption|].
  intros Hp. destruct (H2 Hp) as (Herr2 & Hres2 & Hst2 & Hperm2 & Hincl2 & Hord2).
  split; [|split; [|split; [|split; [|split]]]].
  - now rewrite kept_app, <- Herr1.
  - now rewrite map_app, completed_app, Hres1, Hres2.
  - now rewrite started_app, map_app, Hst1, Hst2.
  - rewrite (app_assoc (running st) x1 x2), (map_app fst (running st ++ x1) x2).
    rewrite Hperm1, completed_app. rewrite <- !app_assoc.
    apply Permutation_app_head. rewrite <- map_app. exact Hperm2.
  - intros a Ha. apply Hincl2 in Ha. rewrite app_assoc.
    apply in_app_or in Ha as [Ha | Ha]; apply in_or_app; [left | now right].
    now apply Hincl1.
  - apply (Ordered_app _ (map fst (running st1))); [assumption | assumption |].
    rewrite Hst1, <- map_app. intros a Ha.
    apply in_map_iff in Ha as (b & <- & Hb). apply in_map. now apply Hincl1.
Qed.

Lemma run_task_Panic_run st k i x v past :
  nth_error (running st) k = Some (i, x) ->
  fst (task i x env past) = Panic v ->
  run_task task g st k env past
  = ({| running := remove_nth k (running st); g_err := g_err st;
        g_panic := Some v |},
     snd (task i x env past)).
Proof.
  intros Hk Hr. unfold run_task. rewrite Hk, bind_eq, Hr. cbn [ret fst snd].
  now rewrite app_nil_r.
Qed.

Lemma run_task_sim st k past :
  g_panic st = None -> Listed (running st) ->
  Sim past st [] (fst (run_task task g st k env past))
                 (snd (run_task task g st k env past)).
Proof.
  intros Hp Hlist.
  destruct (nth_error (running st) k) as [[i x]|] eqn:Hk;
    [|unfold run_task; rewrite Hk; now apply Sim_refl].
  assert (Hin : In (i, x) (running st)) by now apply (nth_error_In _ k).
  pose proof (Hlist i x Hin) as Hx.
  exists [StepRun i].
  destruct (fst (task i x env past)) as [r|v] eqn:Hr.
  - rewrite (run_task_Ret _ _ _ _ _ _ _ _ _ _ Hk Hr).
    rewrite (replay_run_ret i x r [] (g_err st) past Hx Hr).
    cbn [replay ret fst snd running g_err g_panic completed started map].
    rewrite !app_nil_r.
    split; [destruct r, (g_err st); reflexivity|].
    split; [now rewrite Hp|]. intros _.
    split; [reflexivity|]. split; [reflexivity|]. split; [reflexivity|].
    split; [|split].
    + change ([i] ++ map fst (remove_nth k (running st)))
        with (map fst ((i, x) :: remove_nth k (running st))).
      apply Permutation_map. now apply remove_nth_perm.
    + apply remove_nth_incl.
    + intros s1 s2 H. destruct s1 as [|a s1].
      * intros b [].
      * injection H as <- H. symmetry in H. apply app_eq_nil in H as [-> _].
        cbn [completed started]. rewrite app_nil_r.
        intros b [<- | []]. now apply (in_map fst _ (i, x)).
  - rewrite (run_task_Panic_run _ _ _ _ _ _ Hk Hr).
    rewrite (replay_run_panic i x v [] (g_err st) past Hx Hr).
    cbn [fst snd g_panic].
    split; [reflexivity|]. split; [reflexivity|]. discriminate.
Qed.

Lemma run_task_listed st k past :
  Listed (running st) -> Listed (running (fst (run_task task g st k env past))).
Proof.
  intros Hlist.
  destruct (nth_error (running st) k) as [a|] eqn:Hk.
  - rewrite (run_task_running _ _ _ _ _ _ _ _ Hk).
    intros i x Hin. apply Hlist. now apply (remove_nth_incl _ k).
  - unfold run_task. now rewrite Hk.
Qed.

Lemma finish_tasks_sim n : forall st past,
  g_panic st = None -> Listed (running st) ->
  Sim past st [] (fst (finish_tasks task g n st env past))
                 (snd (finish_tasks task g n st env past)).
Proof.
  induction n as [|n IH]; intros st past Hp Hlist; [now apply Sim_refl|].
  destruct (running st) as [|a l] eqn:Hrun.
  { cbn [finish_tasks]. rewrite Hp, Hrun. now apply Sim_refl. }
  rewrite finish_tasks_S by (try assumption; rewrite Hrun; discriminate).
  cbn [fst snd]. rewrite <- Hrun in *.
  set (k := pick env past mod length (running st)).
  pose proof (run_task_sim st k past Hp Hlist) as S1.
  pose proof (run_task_listed st k past Hlist) as L1.
  destruct (g_panic (fst (run_task task g st k env past))) as [v|] eqn:Hp1.
  - rewrite (finish_tasks_panicked _ _ _ _ _ _ v) by assumption.
    cbn [fst snd]. now rewrite app_nil_r.
  - change (@nil (nat * T)) with (@nil (nat * T) ++ []).
    eapply Sim_seq; [exact S1 | exact Hp1 | now apply IH].
Qed.

Lemma finish_tasks_listed n : forall st past,
  Listed (running st) ->
  Listed (running (fst (finish_tasks task g n st env past))).
Proof.
  induction n as [|n IH]; intros st past Hlist; [assumption|].
  destruct (g_panic st) as [v|] eqn:Hp.
  { now rewrite (finish_tasks_panicked _ _ _ _ _ _ v) by assumption. }
  destruct (running st) as [|a l] eqn:Hrun.
  { cbn [finish_tasks]. rewrite Hp, Hrun. cbn [ret fst]. now rewrite Hrun. }
  rewrite finish_tasks_S by (try assumption; rewrite Hrun; discriminate).
  cbn [fst]. apply IH. rewrite <- Hrun in *. now apply run_task_listed.
Qed.

Lemma acquire_sim st past :
  g_panic st = None -> Listed (running st) ->
  Sim past st [] (fst (fst (acquire task g st env past)))
                 (snd (acquire task g st env past)).
Proof.
  intros Hp Hlist. rewrite acquire_eq.
  destruct (g_sem g) as [limit|]; [|now apply Sim_refl].
  destruct (limit =? 0); [now apply Sim_refl|].
  cbn [fst snd]. now apply finish_tasks_sim.
Qed.

Lemma acquire_listed st past :
  Listed (running st) ->
  Listed (running (fst (fst (acquire task g st env past)))).
Proof.
  intros Hlist. rewrite acquire_eq.
  destruct (g_sem g) as [limit|]; [|assumption].
  destruct (limit =? 0); [assumption|].
  cbn [fst]. now apply finish_tasks_listed.
Qed.

Lemma acquire_panicked st past v :
  g_panic st = Some v ->
  fst (fst (acquire task g st env past)) = st /\ snd (acquire task g st env past) = [].
Proof.
  intros Hp. rewrite acquire_eq.
  destruct (g_sem g) as [limit|]; [|now split].
  destruct (limit =? 0); [now split|].
  now rewrite (finish_tasks_panicked _ _ _ _ _ _ v) by assumption.
Qed.

Lemma go_sim past st i x :
  g_panic st = None ->
  Sim past st [(i, x)] (spawned T st i x) [EvGo (g_id g) i].
Proof.
  intros Hp. exists [StepGo i]. rewrite replay_go.
  cbn [replay ret fst snd spawned running g_err g_panic completed started map].
  split; [reflexivity|]. split; [now rewrite Hp|]. intros _.
  repeat split; try reflexivity.
  - apply incl_refl.
  - intros s1 s2 H. destruct s1 as [|a s1]; [intros b []|].
    injection H as <- H. symmetry in H. apply app_eq_nil in H as [-> _].
    intros b [].
Qed.

Lemma launch_sim todo : forall st past,
  g_sem g <> Some 0 -> g_panic st = None -> Listed (running st ++ todo) ->
  Sim past st todo (fst (fst (launch task g todo st env past)))
                   (snd (launch task g todo st env past)).
Proof.
  induction todo as [|[i x] rest IH]; intros st past Hs Hp Hlist.
  { now apply Sim_refl. }
  assert (Hl0 : Listed (running st)).
  { intros j y Hin. apply Hlist. apply in_or_app. now left. }
  rewrite launch_cons.
  set (F := finish_tasks task g (yield env past) st env past).
  set (A := acquire task g (fst F) env (past ++ snd F)).
  pose proof (finish_tasks_sim (yield env past) st past Hp Hl0) as SF. fold F in SF.
  pose proof (finish_tasks_listed (yield env past) st past Hl0) as LF. fold F in LF.
  pose proof (acquire_blocked T task g env (fst F) (past ++ snd F) Hs) as Hb.
  fold A in Hb.
  destruct (g_panic (fst F)) as [v|] eqn:HpF.
  { destruct (acquire_panicked (fst F) (past ++ snd F) v HpF) as [HA1 HA2].
    fold A in HA1, HA2. rewrite HA1, HpF, HA2. cbn [fst snd]. rewrite HA1, app_nil_r.
    now apply (Sim_stop past st [] _ (fst F) (snd F) v). }
  pose proof (acquire_sim (fst F) (past ++ snd F) HpF LF) as SA. fold A in SA.
  pose proof (acquire_listed (fst F) (past ++ snd F) LF) as LA. fold A in LA.
  assert (SFA : Sim past st [] (fst (fst A)) (snd F ++ snd A)).
  { change (@nil (nat * T)) with (@nil (nat * T) ++ []).
    now apply (Sim_seq past st [] (fst F) (snd F) [] (fst (fst A)) (snd A)). }
  destruct (g_panic (fst (fst A))) as [v|] eqn:HpA.
  { cbn [fst snd]. now apply (Sim_stop past st [] _ _ _ v). }
  rewrite Hb. cbn [fst snd].
  assert (Hinc : incl (running (fst (fst A))) (running st)).
  { destruct SFA as (frag & _ & _ & H). destruct (H HpA) as (_ & _ & _ & _ & Hi & _).
    now rewrite app_nil_r in Hi. }
  assert (Hgo : forall st' tl,
             Sim ((past ++ snd F ++ snd A) ++ [EvGo (g_id g) i])
                 (spawned T (fst (fst A)) i x) rest st' tl ->
             Sim past st ((i, x) :: rest) st' (snd F ++ snd A ++ EvGo (g_id g) i :: tl)).
  { intros st' tl H.
    pose proof (Sim_seq _ _ _ _ _ _ _ _ (go_sim (past ++ snd F ++ snd A) _ i x HpA)
                  HpA H) as R1.
    pose proof (Sim_seq _ _ _ _ _ _ _ _ SFA HpA R1) as R2.
    rewrite <- app_assoc in R2. exact R2. }
  replace (past ++ snd F ++ snd A ++ [EvGo (g_id g) i])
    with ((past ++ snd F ++ snd A) ++ [EvGo (g_id g) i])
    by (now rewrite <- !app_assoc).
  apply Hgo.
  apply IH; [assumption | assumption |].
  intros j y Hin. cbn [spawned running] in Hin. rewrite <- app_assoc in Hin.
  apply in_app_or in Hin as [Hin | Hin].
  - apply LA. exact Hin.
  - apply Hlist. apply in_or_app. now right.
Qed.

(** A group whose semaphore is not of capacity zero: the loop and [Wait]
    produce the replay of a schedule.  If a task panics the call crashes
    at that point of the schedule; otherwise the schedule spawns the items
    in order, runs every one of them exactly once and after its spawn, and
    the call returns the first error the runs returned. *)
Lemma run_group_replay (past : list event) :
  g_sem g <> Some 0 ->
  exists sched,
    match snd (fst (replay T task (g_id g) items sched None env past)) with
    | Some v =>
        run_group task g items env past
        = (Crashed v, snd (replay T task (g_id g) items sched None env past))
    | None =>
        run_group task g items env past
        = (Returned (kept None (fst (fst (replay T task (g_id g) items sched None
                                            env past)))),
           snd (replay T task (g_id g) items sched None env past)
             ++ [EvCancel (g_id g)]) /\
        map fst (fst (fst (replay T task (g_id g) items sched None env past)))
        = completed sched /\
        started sched = seq 0 (length items) /\
        Permutation (seq 0 (length items)) (completed sched) /\
        Ordered [] sched
    end.
Proof.
  intros Hs. unfold run_group.
  set (st0 := {| running := []; g_err := None; g_panic := None |}).
  set (todo := combine (seq 0 (length items)) items).
  assert (Htodo : Listed (running st0 ++ todo)).
  { intros i x Hin. apply in_combine_seq in Hin. destruct Hin as [_ Hnth].
    now rewrite Nat.sub_0_r in Hnth. }
  rewrite bind_eq.
  set (L := launch task g todo st0 env past).
  pose proof (launch_sim todo st0 past Hs eq_refl Htodo) as SL. fold L in SL.
  pose proof (launch_blocked T task g env todo st0 past Hs) as Hb. fold L in Hb.
  destruct (fst L) as [st b] eqn:HL. cbn [fst snd] in Hb, SL. subst b.
  destruct (g_panic st) as [v|] eqn:Hp.
  { destruct SL as (frag & Hes & Hpf & _). exists frag.
    change (g_err st0) with (@None error) in Hes, Hpf.
    rewrite Hpf, Hes, Hp. cbn [ret fst snd]. now rewrite app_nil_r. }
  assert (Lst : Listed (running st)).
  { destruct SL as (frag & _ & _ & H). destruct (H Hp) as (_ & _ & _ & _ & Hi & _).
    intros i x Hin. apply Htodo. now apply Hi. }
  rewrite bind_eq.
  set (F := finish_tasks task g (length (running st)) st env (past ++ snd L)).
  pose proof (finish_tasks_sim (length (running st)) st (past ++ snd L) Hp Lst) as SF.
  fold F in SF.
  pose proof (Sim_seq past st0 todo st (snd L) [] (fst F) (snd F) SL Hp SF) as S.
  rewrite app_nil_r in S. destruct S as (frag & Hes & Hpf & H).
  change (g_err st0) with (@None error) in Hes, Hpf, H.
  exists frag. rewrite Hpf, Hes.
  destruct (g_panic (fst F)) as [v|] eqn:HpF.
  { cbn [ret fst snd]. now rewrite app_nil_r. }
  cbn match. destruct (H eq_refl) as (Herr & Hres & Hst & Hperm & _ & Hord).
  assert (Hlen : length (running (fst F)) = 0).
  { unfold F. rewrite finish_tasks_length by exact HpF. lia. }
  assert (Hnil : running (fst F) = [])
    by (destruct (running (fst F)); [reflexivity | discriminate]).
  rewrite bind_eq. cbn [emit ret fst snd].
  rewrite Hnil in Hperm. cbn [map running app st0] in Hperm, Hord.
  rewrite app_nil_r in Hperm. unfold todo in Hperm, Hst.
  rewrite map_fst_combine_seq in Hperm, Hst.
  rewrite Herr, app_nil_r, <- app_assoc. repeat split; assumption.
Qed.

End ReplayProofs.

(** ** GoForEach *)

(** C7.  [GoForEach] over [items], under every scheduler.  The call never
    blocks, and it returns when no invocation of the per-item function
    panics.  Its log is the replay of a schedule of spawns and runs; when
    it returns, the schedule spawns the items in order and runs every item
    exactly once, after its spawn, so the per-item function is invoked
    exactly once per item, on the group context.  The result is nil if and
    only if every invocation returned nil; a non-nil result is the error
    one of the invocations returned.  If an invocation panics, the call
    crashes at that point of the schedule. *)
Theorem GoForEach_result (T : Type) (env : Env) (ctx : Context)
    (items : list T) (fn : Context -> T -> M (outcome (option error)))
    (past : list event) :
  let gid := length past in
  let gCtx := {| ctx_span := ctx_span ctx; ctx_groups := gid :: ctx_groups ctx |} in
  let r := GoForEach ctx items fn env past in
  fst r <> Blocked /\
  ((forall x past', exists e, fst (fn gCtx x env past') = Ret e) ->
   exists e, fst r = Returned e) /\
  exists sched,
    let run := replay T (fun _ x => fn gCtx x) gid items sched None env
                 (past ++ [EvWithContext]) in
    let calls := fst (fst run) in
    match snd (fst run) with
    | Some v => r = (Crashed v, EvWithContext :: snd run)
    | None =>
        exists e,
          r = (Returned e, EvWithContext :: snd run ++ [EvCancel gid]) /\
          started sched = seq 0 (length items) /\
          Permutation (seq 0 (length items)) (completed sched) /\
          Ordered [] sched /\
          map fst calls = completed sched /\
          (e = None <-> forall i ri, In (i, ri) calls -> ri = None) /\
          (forall err, e = Some err -> exists i, In (i, Some err) calls)
    end.
Proof.
  intros gid gCtx r.
  set (g := {| g_id := gid; g_sem := None |}).
  set (task := fun (_ : nat) (item : T) => fn gCtx item).
  set (G := run_group task g items env (past ++ [EvWithContext])).
  assert (Hr : r = (fst G, EvWithContext :: snd G)).
  { unfold r, GoForEach. rewrite bind_eq. reflexivity. }
  assert (Hsem : g_sem g <> Some 0) by discriminate.
  destruct (run_group_replay T task g env items (past ++ [EvWithContext]) Hsem)
    as (sched & Hrun).
  fold G in Hrun. change (g_id g) with gid in Hrun.
  set (run := replay T task gid items sched None env (past ++ [EvWithContext])) in *.
  assert (Hnp : (forall x past', exists e, fst (fn gCtx x env past') = Ret e) ->
                snd (fst run) = None).
  { intros Hret. apply (replay_nopanic T task g env items sched None).
    intros i x q. apply Hret. }
  rewrite Hr. cbn [fst].
  destruct (snd (fst run)) as [v|] eqn:Hp.
  - rewrite Hrun. cbn [fst snd].
    split; [discriminate|]. split.
    { intros Hret. specialize (Hnp Hret). discriminate. }
    exists sched. cbn zeta. fold task run. rewrite Hp. reflexivity.
  - destruct Hrun as (HG & Hcalls & Hst & Hperm & Hord).
    rewrite HG. cbn [fst snd].
    split; [discriminate|]. split; [intros _; eexists; reflexivity|].
    exists sched. cbn zeta. fold task run. rewrite Hp.
    exists (kept None (fst (fst run))).
    split; [reflexivity|]. split; [assumption|]. split; [assumption|].
    split; [assumption|]. split; [assumption|]. split.
    + apply kept_None_iff.
    + intros err. apply kept_None_Some.
Qed.

(** A per-item function that logs its item and fails on the items 2 and 5. *)
Definition fn_fails_on_2_and_5 : Context -> nat -> M (outcome (option error)) :=
  fun _ x _ _ =>
    (Ret (if x =? 2 then Some (errorString "two")
          else if x =? 5 then Some (errorString "five") else None),
     [EvWork x]).

(** A scheduler that always completes the most recently spawned task. *)
Definition env_last_first : Env :=
  {| ext := fun _ _ => None;
     yield := fun _ => 0;
     pick := fun past =>
       length (filter (fun e => match e with EvGo _ _ => true | _ => false end) past)
       - length (filter (fun e => match e with EvTaskReturn _ _ _ => true | _ => false end)
                        past)
       - 1 |}.

(** The representative error depends on the schedule: the same fan-out
    returns the error of item 2 under one scheduler and of item 5 under
    another. *)
Example GoForEach_first_observed_error :
  fst (GoForEach ctx_background [1; 2; 5] fn_fails_on_2_and_5 env_ok [])
    = Returned (Some (errorString "two")) /\
  GoForEach ctx_background [1; 2; 5] fn_fails_on_2_and_5 env_last_first []
    = (Returned (Some (errorString "five")),
       [EvWithContext; EvGo 0 0; EvGo 0 1; EvGo 0 2;
        EvWork 5; EvTaskReturn 0 2 (Some (errorString "five")); EvCancel 0;
        EvWork 2; EvTaskReturn 0 1 (Some (errorString "two"));
        EvWork 1; EvTaskReturn 0 0 None; EvCancel 0]).
Proof. split; reflexivity. Qed.

Lemma GoForEach_result_witness :
  let gid := 0 in
  let gCtx := {| ctx_span := None; ctx_groups := [0] |} in
  let r := GoForEach ctx_background [1; 2; 5] fn_fails_on_2_and_5 env_last_first [] in
  fst r <> Blocked /\
  ((forall x past', exists e,
       fst (fn_fails_on_2_and_5 gCtx x env_last_first past') = Ret e) ->
   exists e, fst r = Returned e) /\
  exists sched,
    let run := replay nat (fun _ x => fn_fails_on_2_and_5 gCtx x) gid [1; 2; 5]
                 sched None env_last_first ([] ++ [EvWithContext]) in
    let calls := fst (fst run) in
    match snd (fst run) with
    | Some v => r = (Crashed v, EvWithContext :: snd run)
    | None =>
        exists e,
          r = (Returned e, EvWithContext :: snd run ++ [EvCancel gid]) /\
          started sched = seq 0 3 /\
          Permutation (seq 0 3) (completed sched) /\
          Ordered [] sched /\
          map fst calls = completed sched /\
          (e = None <-> forall i ri, In (i, ri) calls -> ri = None) /\
          (forall err, e = Some err -> exists i, In (i, Some err) calls)
    end.
Proof.
  exact (GoForEach_result nat env_last_first ctx_background [1; 2; 5]
           fn_fails_on_2_and_5 []).
Defined.

(** The schedule behind [GoForEach_first_observed_error] under the
    scheduler that completes the most recent task first: three spawns,
    then the items 5, 2 and 1 each run once. *)
Example GoForEach_schedule_last_first :
  let sched := [StepGo 0; StepGo 1; StepGo 2; StepRun 2; StepRun 1; StepRun 0] in
  let run := replay nat (fun _ x => fn_fails_on_2_and_5 {| ctx_span := None; ctx_groups := [0] |} x) 0 [1; 2; 5]
               sched None env_last_first [EvWithContext] in
  GoForEach ctx_background [1; 2; 5] fn_fails_on_2_and_5 env_last_first []
  = (Returned (kept None (fst (fst run))), EvWithContext :: snd run ++ [EvCancel 0]) /\
  fst (fst run) = [(2, Some (errorString "five")); (1, Some (errorString "two"));
                   (0, None)].
Proof. split; reflexivity. Qed.

(** ** GoWithLimit and GoWithLimitAndSpan *)

Definition fn_succeeds : Context -> nat -> M (outcome (option error)) :=
  fun _ x _ _ => (Ret None, [EvWork x]).

(** C8, as stated, fails: with the bound -1 neither combinator reports a
    configuration error; both launch and run the task and return nil. *)
Lemma GoWithLimit_negative_bound_runs_tasks :
  GoWithLimit ctx_background (-1) [7] fn_succeeds env_ok []
    = (Returned None,
       [EvWithContext; EvGo 0 0; EvWork 7; EvTaskReturn 0 0 None; EvCancel 0]) /\
  GoWithLimitAndSpan ctx_background "item" (-1) [7] fn_succeeds env_ok []
    = (Returned None,
       [EvWithContext; EvGo 0 0;
        EvSpanStart 2 "item-0" None;
        EvLog DebugLevel "Starting span" "item-0" (Some 2) None;
        EvWork 7;
        EvLog DebugLevel "Completed span" "item-0" (Some 2) None;
        EvSpanEnd 2; EvTaskReturn 0 0 None; EvCancel 0]).
Proof. split; reflexivity. Qed.

(** The group after [errgroup.WithContext] and [SetLimit(0)] blocks on the
    first [g.Go]; with nothing to launch it returns nil. *)
Lemma run_group_limit_zero (T : Type)
    (task : nat -> T -> M (outcome (option error))) (gid : nat) (env : Env)
    (items : list T) (past : list event) :
  run_group task {| g_id := gid; g_sem := Some 0 |} items env past
  = match items with
    | [] => (Returned None, [EvCancel gid])
    | _ :: _ => (Blocked, [])
    end.
Proof.
  destruct items as [|x rest]; [reflexivity|].
  unfold run_group. cbn [length seq combine launch].
  rewrite !bind_eq. cbn [fst snd].
  destruct (yield env past); reflexivity.
Qed.

(** C8, amended.  [GoWithLimit] and [GoWithLimitAndSpan] do not validate
    the bound; they hand it to the task group as it is.  With a negative
    bound they behave exactly as the unbounded [GoForEach] and
    [GoForEachWithSpan].  With the bound 0 they report no error either:
    for an empty item list they return nil, and otherwise the first
    [g.Go] blocks before any task is launched and the call never
    returns. *)
Theorem GoWithLimit_no_validation (T : Type) (env : Env) (ctx : Context)
    (name : string) (concurrency : Z) (items : list T)
    (fn : Context -> T -> M (outcome (option error))) (past : list event) :
  (concurrency <= 0)%Z ->
  if (concurrency <? 0)%Z then
    GoWithLimit ctx concurrency items fn env past
      = GoForEach ctx items fn env past /\
    GoWithLimitAndSpan ctx name concurrency items fn env past
      = GoForEachWithSpan ctx name items fn env past
  else
    match items with
    | [] =>
        GoWithLimit ctx concurrency items fn env past
          = (Returned None, [EvWithContext; EvCancel (length past)]) /\
        GoWithLimitAndSpan ctx name concurrency items fn env past
          = (Returned None, [EvWithContext; EvCancel (length past)])
    | _ :: _ =>
        GoWithLimit ctx concurrency items fn env past
          = (Blocked, [EvWithContext]) /\
        GoWithLimitAndSpan ctx name concurrency items fn env past
          = (Blocked, [EvWithContext])
    end.
Proof.
  intros Hle.
  destruct (concurrency <? 0)%Z eqn:Hneg.
  - unfold GoWithLimit, GoWithLimitAndSpan, GoForEach, GoForEachWithSpan.
    rewrite !bind_eq. cbn [WithContext fst snd]. unfold SetLimit.
    rewrite Hneg. split; reflexivity.
  - assert (concurrency = 0%Z) as -> by (apply Z.ltb_ge in Hneg; lia).
    unfold GoWithLimit, GoWithLimitAndSpan.
    rewrite !bind_eq. cbn [WithContext fst snd]. unfold SetLimit.
    cbn [Z.ltb Z.compare Z.to_nat g_id].
    rewrite !run_group_limit_zero.
    destruct items; split; reflexivity.
Qed.

Lemma GoWithLimit_no_validation_witness :
  GoWithLimit ctx_background 0 [7; 8] fn_succeeds env_ok []
    = (Blocked, [EvWithContext]) /\
  GoWithLimitAndSpan ctx_background "item" 0 [7; 8] fn_succeeds env_ok []
    = (Blocked, [EvWithContext]).
Proof.
  apply (GoWithLimit_no_validation nat env_ok ctx_background "item" 0 [7; 8]
           fn_succeeds []).
  lia.
Defined.

(** * Further properties of the package *)

(** ** Cleanup chains *)

(** The exporters a cleanup closure shuts down, in the order it reaches
    them. *)
Fixpoint chain_exporters (c : cleanupFn) : list Handle :=
  match c with
  | cleanupOne exporter => [exporter]
  | cleanupBoth oldCleanup exporter => chain_exporters oldCleanup ++ [exporter]
  | cleanupPrev prev exporter =>
      match prev with
      | Some p => chain_exporters p ++ [exporter]
      | None => [exporter]
      end
  end.

(** Chains as [SetupTracing] builds them, and as [SetupMetrics] builds
    them. *)
Fixpoint trace_chain (c : cleanupFn) : bool :=
  match c with
  | cleanupOne _ => true
  | cleanupBoth oldCleanup _ => trace_chain oldCleanup
  | cleanupPrev _ _ => false
  end.

Fixpoint metric_chain (c : cleanupFn) : bool :=
  match c with
  | cleanupPrev prev _ =>
      match prev with
      | Some p => metric_chain p
      | None => true
      end
  | _ => false
  end.

(** What each of the objects [hs] answers to [Shutdown] when they are shut
    down one after the other. *)
Fixpoint answers (env : Env) (past : list event) (hs : list Handle)
  : list (option error) :=
  match hs with
  | [] => []
  | h :: rest =>
      ext env (EvShutdown h) past :: answers env (past ++ [EvShutdown h]) rest
  end.

Fixpoint first_some (rs : list (option error)) : option error :=
  match rs with
  | [] => None
  | Some e :: _ => Some e
  | None :: rest => first_some rest
  end.

(** The objects of [hs] up to and including the first one that fails to
    shut down. *)
Fixpoint until_failure (env : Env) (past : list event) (hs : list Handle)
  : list Handle :=
  match hs with
  | [] => []
  | h :: rest =>
      h :: match ext env (EvShutdown h) past with
           | Some _ => []
           | None => until_failure env (past ++ [EvShutdown h]) rest
           end
  end.

Lemma answers_snoc env l : forall past x,
  answers env past (l ++ [x])
  = answers env past l ++ [ext env (EvShutdown x) (past ++ map EvShutdown l)].
Proof.
  induction l as [|h l IH]; intros past x; simpl.
  - now rewrite app_nil_r.
  - rewrite IH. now rewrite <- app_assoc.
Qed.

Lemma first_some_app a b :
  first_some (a ++ b)
  = match first_some a with Some e => Some e | None => first_some b end.
Proof.
  induction a as [|[e|] a IH]; simpl; [reflexivity | reflexivity | exact IH].
Qed.

Lemma until_failure_snoc env l : forall past x,
  until_failure env past (l ++ [x])
  = match first_some (answers env past l) with
    | Some _ => until_failure env past l
    | None => l ++ [x]
    end.
Proof.
  induction l as [|h l IH]; intros past x; simpl.
  - now destruct (ext env (EvShutdown x) past).
  - destruct (ext env (EvShutdown h) past); [reflexivity|].
    rewrite IH. now destruct (first_some (answers env (past ++ [EvShutdown h]) l)).
Qed.

Lemma until_failure_all env l : forall past,
  first_some (answers env past l) = None -> until_failure env past l = l.
Proof.
  induction l as [|h l IH]; intros past H; simpl in *; [reflexivity|].
  destruct (ext env (EvShutdown h) past); [discriminate|].
  now rewrite IH.
Qed.

Lemma first_some_None_iff rs :
  first_some rs = None <-> Forall (fun r => r = None) rs.
Proof.
  induction rs as [|[e|] rs IH]; simpl.
  - split; [constructor | reflexivity].
  - split; [discriminate | intros H; inversion H; discriminate].
  - rewrite IH. split; [now constructor | intros H; now inversion H].
Qed.

Lemma first_some_In rs e : first_some rs = Some e -> In (Some e) rs.
Proof.
  induction rs as [|[e'|] rs IH]; simpl; [discriminate | | ].
  - intros [= ->]. now left.
  - intros H. right. now apply IH.
Qed.

Lemma until_failure_prefix env hs : forall past,
  exists skipped,
    hs = until_failure env past hs ++ skipped /\
    (first_some (answers env past hs) = None -> skipped = []).
Proof.
  induction hs as [|h hs IH]; intros past; simpl.
  - now exists [].
  - destruct (ext env (EvShutdown h) past) as [e|].
    + exists hs. split; [reflexivity | discriminate].
    + destruct (IH (past ++ [EvShutdown h])) as (skipped & Hs & Hn).
      exists skipped. split; [now rewrite <- Hs | assumption].
Qed.

(** A trace chain runs every [Shutdown] and keeps the first error. *)
Lemma run_trace_chain (env : Env) (c : cleanupFn) (past : list event) :
  trace_chain c = true ->
  run_cleanup c env past
  = (first_some (answers env past (chain_exporters c)),
     map EvShutdown (chain_exporters c)).
Proof.
  revert past. induction c as [x | old IH x | prev x]; intros past Hc.
  - cbn [run_cleanup chain_exporters answers first_some map]. unfold call.
    now destruct (ext env (EvShutdown x) past).
  - simpl in Hc. cbn [run_cleanup chain_exporters].
    rewrite !bind_eq, (IH past Hc). unfold call. cbn [fst snd].
    rewrite answers_snoc, first_some_app, map_app. cbn [map first_some].
    destruct (first_some (answers env past (chain_exporters old))) as [e|];
      cbn [ret fst snd]; rewrite app_nil_r.
    + reflexivity.
    + now destruct (ext env (EvShutdown x) _).
  - discriminate.
Qed.

(** A metric chain stops at the first [Shutdown] that fails. *)
Lemma run_metric_chain (env : Env) : forall (c : cleanupFn) (past : list event),
  metric_chain c = true ->
  run_cleanup c env past
  = (first_some (answers env past (chain_exporters c)),
     map EvShutdown (until_failure env past (chain_exporters c))).
Proof.
  fix IH 1. intros [x | old x | [p|] x] past Hc; try discriminate.
  - simpl in Hc. cbn [run_cleanup chain_exporters].
    rewrite bind_eq, (IH p past Hc). cbn [fst snd].
    rewrite answers_snoc, first_some_app, until_failure_snoc.
    destruct (first_some (answers env past (chain_exporters p))) as [e|] eqn:Hp.
    + cbn [ret fst snd]. now rewrite app_nil_r.
    + rewrite (until_failure_all _ _ _ Hp), map_app. unfold call.
      cbn [fst snd map first_some].
      now destruct (ext env (EvShutdown x) _).
  - cbn [run_cleanup chain_exporters answers until_failure first_some map].
    unfold call. now destruct (ext env (EvShutdown x) past).
Qed.

(** X1.  The cleanup chain of a trace provider is fail safe: it calls
    [Shutdown] on every exporter of the chain, in the order they were
    added, whatever the earlier ones returned; it returns nil exactly when
    every exporter returned nil, and otherwise the first error an exporter
    returned. *)
Theorem trace_cleanup_shuts_down_every_exporter (env : Env) (c : cleanupFn)
    (past : list event) :
  trace_chain c = true ->
  snd (run_cleanup c env past) = map EvShutdown (chain_exporters c) /\
  (forall h, In h (chain_exporters c) ->
     In (EvShutdown h) (snd (run_cleanup c env past))) /\
  fst (run_cleanup c env past)
    = first_some (answers env past (chain_exporters c)) /\
  (fst (run_cleanup c env past) = None <->
   Forall (fun r => r = None) (answers env past (chain_exporters c))) /\
  (forall e, fst (run_cleanup c env past) = Some e ->
     In (Some e) (answers env past (chain_exporters c))).
Proof.
  intros Hc. rewrite (run_trace_chain env c past Hc). cbn [fst snd].
  split; [reflexivity|]. split; [|split; [reflexivity|split]].
  - intros h Hh. now apply in_map.
  - apply first_some_None_iff.
  - apply first_some_In.
Qed.

(** An environment in which only the console exporter of traces (object 2)
    fails to shut down, and one in which only that of metrics (object 7)
    does. *)
Definition env_exporter2_stuck : Env :=
  {| ext := fun e _ => match e with
                       | EvShutdown 2 => Some (errorString "stdout closed")
                       | _ => None
                       end;
     yield := fun _ => 0; pick := fun _ => 0 |}.

Definition env_exporter7_stuck : Env :=
  {| ext := fun e _ => match e with
                       | EvShutdown 7 => Some (errorString "stdout closed")
                       | _ => None
                       end;
     yield := fun _ => 0; pick := fun _ => 0 |}.

Lemma trace_cleanup_shuts_down_every_exporter_witness :
  snd (run_cleanup (cleanupBoth (cleanupOne 2) 4) env_exporter2_stuck [])
    = [EvShutdown 2; EvShutdown 4] /\
  fst (run_cleanup (cleanupBoth (cleanupOne 2) 4) env_exporter2_stuck [])
    = Some (errorString "stdout closed").
Proof.
  destruct (trace_cleanup_shuts_down_every_exporter env_exporter2_stuck
              (cleanupBoth (cleanupOne 2) 4) [] eq_refl) as (Hev & _ & Hr & _).
  split; [exact Hev | exact Hr].
Defined.

(** X2.  The cleanup chain of a metric provider is fail fast: it calls
    [Shutdown] on the exporters in the order they were added and stops at
    the first one that returns an error, which it returns; the exporters
    added after that one are not shut down.  When none fails, all are shut
    down and the result is nil. *)
Theorem metric_cleanup_stops_at_first_failure (env : Env) (c : cleanupFn)
    (past : list event) :
  metric_chain c = true ->
  fst (run_cleanup c env past)
    = first_some (answers env past (chain_exporters c)) /\
  snd (run_cleanup c env past)
    = map EvShutdown (until_failure env past (chain_exporters c)) /\
  exists skipped,
    chain_exporters c = until_failure env past (chain_exporters c) ++ skipped /\
    (fst (run_cleanup c env past) = None -> skipped = []).
Proof.
  intros Hc. rewrite (run_metric_chain env c past Hc). cbn [fst snd].
  split; [reflexivity|]. split; [reflexivity|].
  apply until_failure_prefix.
Qed.

Lemma metric_cleanup_stops_at_first_failure_witness :
  fst (run_cleanup (cleanupPrev (Some (cleanupPrev None 7)) 9) env_exporter7_stuck [])
    = Some (errorString "stdout closed") /\
  snd (run_cleanup (cleanupPrev (Some (cleanupPrev None 7)) 9) env_exporter7_stuck [])
    = [EvShutdown 7].
Proof.
  destruct (metric_cleanup_stops_at_first_failure env_exporter7_stuck
              (cleanupPrev (Some (cleanupPrev None 7)) 9) [] eq_refl)
    as (Hr & Hev & _).
  split; [exact Hr | exact Hev].
Defined.

(** ** Setting up the sub-providers *)

Definition is_new (e : event) : bool :=
  match e with EvNew _ => true | _ => false end.

(** Case analysis on every SDK constructor result and every configuration
    flag a setup function looks at. *)
Ltac setup_cases :=
  repeat (cbn [fst snd app ret negb];
          match goal with
          | |- context [negb ?b] => destruct b eqn:?
          | |- context [ext ?env (EvNew ?k) ?p] =>
              destruct (ext env (EvNew k) p) eqn:?
          | |- context [if ?b then _ else _] => destruct b eqn:?
          end).

Lemma setup_never_shuts_down_aux (cfg : Config) (env : Env) (past : list event) :
  forallb is_new (snd (SetupLogging cfg env past)) = true /\
  forallb is_new (snd (SetupTracing cfg env past)) = true /\
  forallb is_new (snd (SetupMetrics cfg env past)) = true.
Proof.
  split; [|split].
  - unfold SetupLogging, bind, new. setup_cases; reflexivity.
  - unfold SetupTracing, setup_console_trace, setup_otlp_trace, dial, bind, new, make.
    setup_cases; reflexivity.
  - unfold SetupMetrics, setup_console_metric, setup_otlp_metric, dial, bind, new, make.
    setup_cases; reflexivity.
Qed.

(** X3.  The setup functions only construct: whatever the configuration
    and whichever step fails, [SetupLogging], [SetupTracing] and
    [SetupMetrics] never call [Shutdown] on anything.  An exporter created
    before a later step fails is therefore left open by the failed
    setup. *)
Theorem setup_never_shuts_down (cfg : Config) (env : Env) (past : list event)
    (h : Handle) :
  ~ In (EvShutdown h) (snd (SetupLogging cfg env past)) /\
  ~ In (EvShutdown h) (snd (SetupTracing cfg env past)) /\
  ~ In (EvShutdown h) (snd (SetupMetrics cfg env past)).
Proof.
  destruct (setup_never_shuts_down_aux cfg env past) as (Hl & Ht & Hm).
  assert (Hno : forall es, forallb is_new es = true -> ~ In (EvShutdown h) es).
  { intros es Hall Hin. rewrite forallb_forall in Hall.
    specialize (Hall _ Hin). discriminate. }
  split; [|split]; now apply Hno.
Qed.

(** The console exporter is created, the OTLP exporter is refused: the
    setup fails and the console exporter stays open. *)
Example SetupTracing_leaves_console_exporter_open :
  SetupTracing cfg_full
    {| ext := fun e _ => match e with
                         | EvNew OtlpTraceExporter => Some (errorString "refused")
                         | _ => None
                         end;
       yield := fun _ => 0; pick := fun _ => 0 |} []
  = (Err (Errorf_w "failed to create OTLP exporter: " (errorString "refused")),
     [EvNew Resource; EvNew StdoutTraceExporter;
      EvNew (GrpcConn "localhost:4317"); EvNew OtlpTraceExporter]).
Proof. reflexivity. Qed.

(** The objects of the kinds [want] created by the events [es], the first
    of which has position [base] in the log. *)
Fixpoint created (want : kind -> bool) (base : nat) (es : list event)
  : list Handle :=
  match es with
  | [] => []
  | EvNew k :: rest =>
      (if want k then [base] else []) ++ created want (S base) rest
  | _ :: rest => created want (S base) rest
  end.

Definition is_span_exporter (k : kind) : bool :=
  match k with StdoutTraceExporter | OtlpTraceExporter => true | _ => false end.

Definition is_metric_exporter (k : kind) : bool :=
  match k with StdoutMetricExporter | OtlpMetricExporter => true | _ => false end.

Definition is_tracer_provider (k : kind) : bool :=
  match k with TracerProvider => true | _ => false end.

Definition is_meter_provider (k : kind) : bool :=
  match k with MeterProvider => true | _ => false end.

Definition chain_of (cleanup : option cleanupFn) : list Handle :=
  match cleanup with
  | Some c => chain_exporters c
  | None => []
  end.

Definition is_stdout_trace (k : kind) : bool :=
  match k with StdoutTraceExporter => true | _ => false end.

Definition is_otlp_trace (k : kind) : bool :=
  match k with OtlpTraceExporter => true | _ => false end.

Definition is_stdout_metric (k : kind) : bool :=
  match k with StdoutMetricExporter => true | _ => false end.

Definition is_otlp_metric (k : kind) : bool :=
  match k with OtlpMetricExporter => true | _ => false end.

Ltac positions :=
  cbn [fst snd created is_span_exporter is_metric_exporter is_tracer_provider
       is_meter_provider is_stdout_trace is_otlp_trace is_stdout_metric
       is_otlp_metric app chain_of chain_exporters trace_chain metric_chain
       tp_provider tp_cleanup mp_meterProvider mp_cleanup length];
  rewrite ?length_app; cbn [length];
  repeat split; try reflexivity; try assumption; try discriminate;
  try (intros; reflexivity);
  try (intros Hno; discriminate Hno);
  try (intros [Hc Ho]; first [discriminate Hc | discriminate Ho]);
  try (intros c Hc; first [discriminate Hc | injection Hc as <-; reflexivity]);
  try (repeat f_equal; lia).

(** X4.  When [SetupTracing] succeeds, the provider it returns is the SDK
    tracer provider it created, and its cleanup chain holds exactly the
    span exporters it created, in creation order: none is left out of the
    later shutdown.  The exporters created are those configured: one
    console exporter exactly when the console exporter is enabled, one
    OTLP exporter exactly when an endpoint is set; with no exporter
    configured the cleanup is nil, and only then. *)
Theorem SetupTracing_registers_every_exporter (cfg : Config) (env : Env)
    (past : list event) (tp : TraceProvider_t) :
  fst (SetupTracing cfg env past) = Ok tp ->
  created is_tracer_provider (length past) (snd (SetupTracing cfg env past))
    = [tp_provider tp] /\
  chain_of (tp_cleanup tp)
    = created is_span_exporter (length past) (snd (SetupTracing cfg env past)) /\
  length (created is_stdout_trace (length past) (snd (SetupTracing cfg env past)))
    = (if EnableConsoleExporter cfg then 1 else 0) /\
  length (created is_otlp_trace (length past) (snd (SetupTracing cfg env past)))
    = (if is_empty (OTLPEndpoint cfg) then 0 else 1) /\
  (EnableConsoleExporter cfg = false /\ is_empty (OTLPEndpoint cfg) = true
   <-> tp_cleanup tp = None) /\
  (forall c, tp_cleanup tp = Some c -> trace_chain c = true).
Proof.
  unfold SetupTracing, setup_console_trace, setup_otlp_trace, dial, bind, new, make,
    ret.
  setup_cases; intros H; try discriminate H; injection H as <-; positions.
Qed.

Lemma SetupTracing_registers_every_exporter_witness :
  created is_tracer_provider 1 (snd (SetupTracing cfg_full env_ok [EvNew Logger]))
    = [5] /\
  chain_of (Some (cleanupBoth (cleanupOne 2) 4))
    = created is_span_exporter 1 (snd (SetupTracing cfg_full env_ok [EvNew Logger])) /\
  length (created is_stdout_trace 1 (snd (SetupTracing cfg_full env_ok [EvNew Logger])))
    = 1 /\
  length (created is_otlp_trace 1 (snd (SetupTracing cfg_full env_ok [EvNew Logger])))
    = 1 /\
  (EnableConsoleExporter cfg_full = false /\ is_empty (OTLPEndpoint cfg_full) = true
   <-> Some (cleanupBoth (cleanupOne 2) 4) = None) /\
  (forall c, Some (cleanupBoth (cleanupOne 2) 4) = Some c -> trace_chain c = true).
Proof.
  exact (SetupTracing_registers_every_exporter cfg_full env_ok [EvNew Logger]
           {| tp_provider := 5; tp_cleanup := Some (cleanupBoth (cleanupOne 2) 4) |}
           eq_refl).
Defined.

(** X5.  When [SetupMetrics] succeeds with metrics enabled, it returns a
    metric provider whose cleanup chain holds exactly the metric exporters
    it created, in creation order, and whose meter provider is the SDK
    meter provider it created.  The exporters created are those
    configured: one console exporter exactly when the console exporter is
    enabled, one OTLP exporter exactly when an endpoint is set; with no
    exporter configured the provider has neither a meter provider nor a
    cleanup, and only then. *)
Theorem SetupMetrics_registers_every_exporter (cfg : Config) (env : Env)
    (past : list event) (r : option MetricProvider_t) :
  EnableMetrics cfg = true ->
  fst (SetupMetrics cfg env past) = Ok r ->
  exists mp,
    r = Some mp /\
    created is_meter_provider (length past) (snd (SetupMetrics cfg env past))
      = match mp_meterProvider mp with Some h => [h] | None => [] end /\
    chain_of (mp_cleanup mp)
      = created is_metric_exporter (length past) (snd (SetupMetrics cfg env past)) /\
    length (created is_stdout_metric (length past) (snd (SetupMetrics cfg env past)))
      = (if EnableConsoleExporter cfg then 1 else 0) /\
    length (created is_otlp_metric (length past) (snd (SetupMetrics cfg env past)))
      = (if is_empty (OTLPEndpoint cfg) then 0 else 1) /\
    (EnableConsoleExporter cfg = false /\ is_empty (OTLPEndpoint cfg) = true
     <-> mp_cleanup mp = None) /\
    (mp_cleanup mp = None <-> mp_meterProvider mp = None) /\
    (forall c, mp_cleanup mp = Some c -> metric_chain c = true).
Proof.
  intros Hm.
  unfold SetupMetrics, setup_console_metric, setup_otlp_metric, dial, bind, new, make,
    ret.
  rewrite Hm.
  setup_cases; intros H; try discriminate H; injection H as <-;
    eexists; (split; [reflexivity|]); positions.
Qed.

Lemma SetupMetrics_registers_every_exporter_witness :
  exists mp,
    Some {| mp_meterProvider := Some 4;
            mp_cleanup := Some (cleanupPrev (Some (cleanupPrev None 1)) 3) |}
      = Some mp /\
    created is_meter_provider (length (@nil event))
      (snd (SetupMetrics cfg_full env_ok []))
      = match mp_meterProvider mp with Some h => [h] | None => [] end /\
    chain_of (mp_cleanup mp)
      = created is_metric_exporter (length (@nil event))
          (snd (SetupMetrics cfg_full env_ok [])) /\
    length (created is_stdout_metric (length (@nil event))
              (snd (SetupMetrics cfg_full env_ok [])))
      = (if EnableConsoleExporter cfg_full then 1 else 0) /\
    length (created is_otlp_metric (length (@nil event))
              (snd (SetupMetrics cfg_full env_ok [])))
      = (if is_empty (OTLPEndpoint cfg_full) then 0 else 1) /\
    (EnableConsoleExporter cfg_full = false /\
     is_empty (OTLPEndpoint cfg_full) = true
     <-> mp_cleanup mp = None) /\
    (mp_cleanup mp = None <-> mp_meterProvider mp = None) /\
    (forall c, mp_cleanup mp = Some c -> metric_chain c = true).
Proof.
  exact (SetupMetrics_registers_every_exporter cfg_full env_ok [] _ eq_refl eq_refl).
Defined.

(** ** Shutting down the sub-providers *)

(** X6.  When the SDK tracer provider shuts down without error,
    [TraceProvider.Shutdown] goes on to the cleanup chain: every exporter
    of the chain is shut down, in order, also after one of them failed,
    and the first exporter error is returned (nil if none, or if there is
    no cleanup). *)
Theorem TraceProvider_Shutdown_runs_cleanup (env : Env) (tp : TraceProvider_t)
    (past : list event) :
  ext env (EvShutdown (tp_provider tp)) (past ++ [EvEnter TraceProvider_Shutdown])
    = None ->
  match tp_cleanup tp with
  | Some c => trace_chain c = true
  | None => True
  end ->
  TraceProvider.Shutdown tp env past
  = (first_some
       (answers env
          (past ++ [EvEnter TraceProvider_Shutdown; EvShutdown (tp_provider tp)])
          (chain_of (tp_cleanup tp))),
     EvEnter TraceProvider_Shutdown :: EvShutdown (tp_provider tp)
     :: map EvShutdown (chain_of (tp_cleanup tp))).
Proof.
  intros Hp Hc. unfold TraceProvider.Shutdown.
  rewrite !bind_eq. unfold emit, call. cbn [fst snd]. rewrite Hp.
  replace ((past ++ [EvEnter TraceProvider_Shutdown])
           ++ [EvShutdown (tp_provider tp)])
    with (past ++ [EvEnter TraceProvider_Shutdown; EvShutdown (tp_provider tp)])
    by now rewrite <- app_assoc.
  destruct (tp_cleanup tp) as [c|]; [|reflexivity].
  now rewrite (run_trace_chain env c _ Hc).
Qed.

Lemma TraceProvider_Shutdown_runs_cleanup_witness :
  TraceProvider.Shutdown tp_two_exporters env_exporter2_stuck []
  = (Some (errorString "stdout closed"),
     [EvEnter TraceProvider_Shutdown; EvShutdown 5; EvShutdown 2; EvShutdown 4]).
Proof.
  exact (TraceProvider_Shutdown_runs_cleanup env_exporter2_stuck tp_two_exporters []
           eq_refl eq_refl).
Defined.

(** The SDK objects a metric provider owns, in the order [Shutdown]
    reaches them: the meter provider, then the exporters of the chain. *)
Definition metric_objects (mp : MetricProvider_t) : list Handle :=
  match mp_meterProvider mp with Some h => [h] | None => [] end
  ++ chain_of (mp_cleanup mp).

(** X7.  [MetricProvider.Shutdown] is fail fast over everything it owns:
    it shuts down the SDK meter provider (when there is one) and then the
    exporters of the cleanup chain, stops at the first [Shutdown] that
    returns an error and returns that error; what comes after it is not
    shut down.  A provider with neither meter provider nor cleanup returns
    nil without calling the SDK. *)
Theorem MetricProvider_Shutdown_fail_fast (env : Env) (mp : MetricProvider_t)
    (past : list event) :
  match mp_cleanup mp with
  | Some c => metric_chain c = true
  | None => True
  end ->
  MetricProvider.Shutdown mp env past
  = (first_some
       (answers env (past ++ [EvEnter MetricProvider_Shutdown]) (metric_objects mp)),
     EvEnter MetricProvider_Shutdown
     :: map EvShutdown
          (until_failure env (past ++ [EvEnter MetricProvider_Shutdown])
             (metric_objects mp))).
Proof.
  intros Hc. unfold MetricProvider.Shutdown, metric_objects.
  rewrite !bind_eq. unfold emit. cbn [fst snd].
  destruct (mp_meterProvider mp) as [h|].
  - unfold call. cbn [fst snd app answers until_failure first_some map].
    destruct (ext env (EvShutdown h) (past ++ [EvEnter MetricProvider_Shutdown]))
      as [e|]; [reflexivity|].
    destruct (mp_cleanup mp) as [c|]; [|reflexivity].
    rewrite (run_metric_chain env c _ Hc). reflexivity.
  - cbn [ret fst snd app]. rewrite app_nil_r.
    destruct (mp_cleanup mp) as [c|]; [|reflexivity].
    rewrite (run_metric_chain env c _ Hc). reflexivity.
Qed.

Lemma MetricProvider_Shutdown_fail_fast_witness :
  MetricProvider.Shutdown
    {| mp_meterProvider := Some 10;
       mp_cleanup := Some (cleanupPrev (Some (cleanupPrev None 7)) 9) |}
    env_exporter7_stuck []
  = (Some (errorString "stdout closed"),
     [EvEnter MetricProvider_Shutdown; EvShutdown 10; EvShutdown 7]).
Proof.
  exact (MetricProvider_Shutdown_fail_fast env_exporter7_stuck
           {| mp_meterProvider := Some 10;
              mp_cleanup := Some (cleanupPrev (Some (cleanupPrev None 7)) 9) |}
           [] eq_refl).
Defined.

(** ** NewProvider *)

(** X8.  When [SetupLogging] fails, [NewProvider] stops there: it returns
    the error wrapped as "failed to setup logging", sets up neither
    tracing nor metrics and shuts nothing down. *)
Theorem NewProvider_logging_failure (env : Env) (cfg : Config)
    (past : list event) (e : error) :
  fst (SetupLogging cfg env past) = Err e ->
  NewProvider cfg env past
  = (Err (Errorf_w "failed to setup logging: " e), [EvNew Logger]).
Proof.
  unfold NewProvider, SetupLogging. rewrite !bind_eq. unfold new.
  destruct (ext env (EvNew Logger) past) as [e'|]; cbn [fst snd ret];
    [|discriminate].
  now intros [= ->].
Qed.

Definition env_no_logger : Env :=
  {| ext := fun e _ => match e with
                       | EvNew Logger => Some (errorString "no sink")
                       | _ => None
                       end;
     yield := fun _ => 0; pick := fun _ => 0 |}.

Lemma NewProvider_logging_failure_witness :
  NewProvider cfg_full env_no_logger []
  = (Err (Errorf_w "failed to setup logging: " (errorString "no sink")),
     [EvNew Logger]).
Proof.
  exact (NewProvider_logging_failure env_no_logger cfg_full []
           (errorString "no sink") eq_refl).
Defined.

(** X9.  When logging is set up and [SetupTracing] fails, [NewProvider]
    shuts the log sub-provider down, and only it, and returns the tracing
    error wrapped as "failed to setup tracing", whatever the logger's
    [Sync] returned; metrics are not set up. *)
Theorem NewProvider_tracing_failure (env : Env) (cfg : Config)
    (past : list event) (lp : LogProvider_t) (e : error) :
  let s1 := SetupLogging cfg env past in
  let s2 := SetupTracing cfg env (past ++ snd s1) in
  fst s1 = Ok lp -> fst s2 = Err e ->
  NewProvider cfg env past
  = (Err (Errorf_w "failed to setup tracing: " e),
     snd s1 ++ snd s2 ++ [EvEnter LogProvider_Shutdown; EvShutdown (lp_logger lp)]).
Proof.
  intros s1 s2 H1 H2. unfold NewProvider.
  rewrite bind_eq. fold s1. rewrite H1.
  rewrite bind_eq. fold s2. rewrite H2.
  rewrite bind_eq, LogProvider_Shutdown_run. cbn [fst snd ret].
  now rewrite app_nil_r.
Qed.

Definition env_no_resource : Env :=
  {| ext := fun e _ => match e with
                       | EvNew Resource => Some (errorString "merge conflict")
                       | EvShutdown 0 => Some (errorString "sync failed")
                       | _ => None
                       end;
     yield := fun _ => 0; pick := fun _ => 0 |}.

Lemma NewProvider_tracing_failure_witness :
  NewProvider cfg_full env_no_resource []
  = (Err (Errorf_w "failed to setup tracing: "
            (Errorf_w "failed to create resource: " (errorString "merge conflict"))),
     [EvNew Logger; EvNew Resource; EvEnter LogProvider_Shutdown; EvShutdown 0]).
Proof.
  exact (NewProvider_tracing_failure env_no_resource cfg_full []
           {| lp_logger := 0 |}
           (Errorf_w "failed to create resource: " (errorString "merge conflict"))
           eq_refl eq_refl).
Defined.

(** X10.  A successful [NewProvider] shuts nothing down: its log holds
    only constructions.  The provider it returns keeps the configuration,
    always owns a trace and a log sub-provider, and owns a metric
    sub-provider exactly when metrics are enabled. *)
Theorem NewProvider_success (env : Env) (cfg : Config) (past : list event)
    (p : Provider_t) :
  fst (NewProvider cfg env past) = Ok p ->
  forallb is_new (snd (NewProvider cfg env past)) = true /\
  config p = cfg /\
  traceProvider p <> None /\
  logProvider p <> None /\
  (metricProvider p <> None <-> EnableMetrics cfg = true).
Proof.
  intros Hnew.
  destruct (setup_never_shuts_down_aux cfg env past) as (Hl & _ & _).
  revert Hnew. unfold NewProvider.
  rewrite !bind_eq.
  destruct (fst (SetupLogging cfg env past)) as [lp|] eqn:H1; [|discriminate].
  rewrite !bind_eq.
  set (past1 := past ++ snd (SetupLogging cfg env past)).
  destruct (setup_never_shuts_down_aux cfg env past1) as (_ & Ht & Hm).
  destruct (fst (SetupTracing cfg env past1)) as [tp|] eqn:H2;
    [|rewrite !bind_eq; discriminate].
  destruct (EnableMetrics cfg) eqn:Hen.
  - rewrite !bind_eq.
    set (past2 := past1 ++ snd (SetupTracing cfg env past1)).
    destruct (setup_never_shuts_down_aux cfg env past2) as (_ & _ & Hm2).
    destruct (fst (SetupMetrics cfg env past2)) as [mpo|] eqn:H3;
      [|rewrite !bind_eq; discriminate].
    cbn [fst snd ret]. intros [= <-]. cbn [config traceProvider logProvider metricProvider].
    rewrite app_nil_r, !forallb_app, Hl, Ht, Hm2.
    repeat split; try discriminate; trivial.
    intros _. destruct mpo; [discriminate|].
    exfalso. now apply (SetupMetrics_enabled cfg env past2 Hen).
  - cbn [fst snd ret]. intros [= <-]. cbn [config traceProvider logProvider metricProvider].
    rewrite app_nil_r, !forallb_app, Hl, Ht.
    repeat split; try discriminate; trivial. intros H; now elim H.
Qed.

Lemma NewProvider_success_witness :
  forallb is_new (snd (NewProvider cfg_full env_ok [])) = true /\
  config provider_full = cfg_full /\
  traceProvider provider_full <> None /\
  logProvider provider_full <> None /\
  (metricProvider provider_full <> None <-> EnableMetrics cfg_full = true).
Proof.
  exact (NewProvider_success env_ok cfg_full [] provider_full eq_refl).
Defined.

(** X11.  With metrics disabled, [NewProvider] does not call
    [SetupMetrics]: once logging and tracing are set up it returns a
    provider without metric sub-provider, and [Provider.Shutdown] on that
    provider tears down the trace sub-provider and then the log
    sub-provider only. *)
Theorem NewProvider_metrics_disabled (env : Env) (cfg : Config)
    (past : list event) (lp : LogProvider_t) (tp : TraceProvider_t) :
  EnableMetrics cfg = false ->
  let s1 := SetupLogging cfg env past in
  let s2 := SetupTracing cfg env (past ++ snd s1) in
  fst s1 = Ok lp -> fst s2 = Ok tp ->
  let p := {| config := cfg; traceProvider := Some tp;
              metricProvider := None; logProvider := Some lp |} in
  NewProvider cfg env past = (Ok p, snd s1 ++ snd s2) /\
  forall past',
    enters (snd (Provider.Shutdown p env past'))
      = [TraceProvider_Shutdown; LogProvider_Shutdown] /\
    snd (Provider.Shutdown p env past')
      = snd (TraceProvider.Shutdown tp env past')
        ++ [EvEnter LogProvider_Shutdown; EvShutdown (lp_logger lp)].
Proof.
  intros Hm s1 s2 H1 H2 p. split.
  - unfold NewProvider. rewrite Hm.
    rewrite bind_eq. fold s1. rewrite H1.
    rewrite bind_eq. fold s2. rewrite H2.
    cbn [fst snd ret]. now rewrite app_nil_r.
  - intros past'. split; [apply Provider_Shutdown_enters|].
    rewrite Provider_Shutdown_run. cbn [snd p metricProvider traceProvider
      logProvider sub_shutdown ret app].
    now rewrite app_nil_r, LogProvider_Shutdown_run.
Qed.

Definition cfg_no_metrics : Config :=
  {| ServiceName := "optl-service"; ServiceVersion := "v0.1.0";
     Environment := "production"; OTLPEndpoint := "";
     EnableConsoleExporter := true; EnableMetrics := false; EnableLogs := true;
     TLSConfig_Enabled := false; RetryConfig_Enabled := false |}.

Lemma NewProvider_metrics_disabled_witness :
  let p := {| config := cfg_no_metrics;
              traceProvider := Some {| tp_provider := 3;
                                       tp_cleanup := Some (cleanupOne 2) |};
              metricProvider := None;
              logProvider := Some {| lp_logger := 0 |} |} in
  NewProvider cfg_no_metrics env_ok []
  = (Ok p, [EvNew Logger; EvNew Resource; EvNew StdoutTraceExporter;
            EvNew TracerProvider]) /\
  forall past',
    enters (snd (Provider.Shutdown p env_ok past'))
      = [TraceProvider_Shutdown; LogProvider_Shutdown] /\
    snd (Provider.Shutdown p env_ok past')
      = snd (TraceProvider.Shutdown
               {| tp_provider := 3; tp_cleanup := Some (cleanupOne 2) |}
               env_ok past')
        ++ [EvEnter LogProvider_Shutdown; EvShutdown 0].
Proof.
  exact (NewProvider_metrics_disabled env_ok cfg_no_metrics []
           {| lp_logger := 0 |}
           {| tp_provider := 3; tp_cleanup := Some (cleanupOne 2) |}
           eq_refl eq_refl eq_refl).
Defined.

(** The error a teardown stage of [Provider.Shutdown] appends when its
    sub-provider returned [r]: the error of the sub-provider, wrapped
    under the message of the stage. *)
Definition stage_error (prefix : string) (r : option error) : list error :=
  match r with
  | Some e => [wrapError (prefix +++ Error e) e]
  | None => []
  end.

(** X12.  The aggregate error of [Provider.Shutdown] is built with [%v]:
    it is a flat message over one to three stage errors and wraps none of
    them ([errors.Unwrap] gives nil).  The stage errors it lists are, in
    the order metrics, tracing, logging, one per sub-provider whose
    [Shutdown] returned an error, and each wraps exactly the error that
    sub-provider returned, under the message of its stage. *)
Theorem Provider_Shutdown_error_is_flat (env : Env) (p : Provider_t)
    (past : list event) (agg : error) :
  let m := sub_shutdown (metricProvider p) MetricProvider.Shutdown env past in
  let t := sub_shutdown (traceProvider p) TraceProvider.Shutdown env
             (past ++ snd m) in
  let l := sub_shutdown (logProvider p) LogProvider.Shutdown env
             (past ++ snd m ++ snd t) in
  fst (Provider.Shutdown p env past) = Some agg ->
  Unwrap agg = None /\
  exists errs,
    agg = Errorf_v "errors during shutdown: " errs /\
    errs = stage_error "failed to shutdown metrics: " (fst m)
           ++ stage_error "failed to shutdown tracing: " (fst t)
           ++ stage_error "failed to shutdown logging: " (fst l) /\
    1 <= length errs <= 3 /\
    Forall (fun e => exists inner,
                Unwrap e = Some inner /\
                (fst m = Some inner \/ fst t = Some inner \/ fst l = Some inner))
           errs.
Proof.
  intros m t l. rewrite Provider_Shutdown_run. cbn [fst]. fold m t l.
  set (errs := collect _ (fst l) (collect _ (fst t) (collect _ (fst m) []))).
  assert (Herrs : errs = stage_error "failed to shutdown metrics: " (fst m)
                         ++ stage_error "failed to shutdown tracing: " (fst t)
                         ++ stage_error "failed to shutdown logging: " (fst l)).
  { unfold errs, collect, stage_error, Errorf_w.
    destruct (fst m), (fst t), (fst l); reflexivity. }
  assert (Hlen : length errs <= 3).
  { rewrite Herrs. unfold stage_error.
    destruct (fst m), (fst t), (fst l); cbn; lia. }
  assert (Hwrap : Forall (fun e => exists inner,
                            Unwrap e = Some inner /\
                            (fst m = Some inner \/ fst t = Some inner \/
                             fst l = Some inner)) errs).
  { rewrite Herrs. unfold stage_error.
    destruct (fst m), (fst t), (fst l); cbn [app];
      repeat constructor; eexists; (split; [reflexivity|]); auto. }
  destruct (0 <? length errs) eqn:Hpos; [|discriminate].
  intros [= <-]. split; [reflexivity|].
  exists errs. apply Nat.ltb_lt in Hpos.
  split; [reflexivity|]. split; [exact Herrs|]. split; [lia | exact Hwrap].
Qed.

Lemma Provider_Shutdown_error_is_flat_witness :
  Unwrap (errorString
    "errors during shutdown: [failed to shutdown metrics: meter provider stuck]")
    = None /\
  exists errs,
    errorString
      "errors during shutdown: [failed to shutdown metrics: meter provider stuck]"
      = Errorf_v "errors during shutdown: " errs /\
    errs = [wrapError "failed to shutdown metrics: meter provider stuck"
              (errorString "meter provider stuck")] /\
    1 <= length errs <= 3 /\
    Forall (fun e => exists inner,
                Unwrap e = Some inner /\
                (Some (errorString "meter provider stuck") = Some inner \/
                 None = Some inner \/ None = Some inner))
           errs.
Proof.
  exact (Provider_Shutdown_error_is_flat env_meter_stuck provider_full startup_log
           _ eq_refl).
Defined.

(** ** Single task groups *)

(** The group context [errgroup.WithContext] derives from [ctx] when the
    log is [past]. *)
Definition group_context (ctx : Context) (past : list event) : Context :=
  {| ctx_span := ctx_span ctx; ctx_groups := length past :: ctx_groups ctx |}.

(** What the goroutine of a group logs after its function returned. *)
Definition task_epilogue (gid i : nat) (err : option error) (kept_before : option error)
  : list event :=
  EvTaskReturn gid i err
  :: match err, kept_before with
     | Some _, None => [EvCancel gid]
     | _, _ => []
     end.

Lemma run_group_single (T : Type) (task : nat -> T -> M (outcome (option error)))
    (gid : nat) (env : Env) (x : T) (q : list event) :
  let w := task 0 x env (q ++ [EvGo gid 0]) in
  run_group task {| g_id := gid; g_sem := None |} [x] env q
  = match fst w with
    | Ret err =>
        (Returned err,
         EvGo gid 0 :: snd w ++ task_epilogue gid 0 err None ++ [EvCancel gid])
    | Panic v => (Crashed v, EvGo gid 0 :: snd w)
    end.
Proof.
  intros w.
  unfold run_group, launch, acquire, bind, emit, ret.
  cbn [length seq combine g_sem g_id fst snd app].
  assert (Hidle : forall c q', finish_tasks task {| g_id := gid; g_sem := None |} c
                    {| running := []; g_err := None; g_panic := None |} env q'
                  = ({| running := []; g_err := None; g_panic := None |}, []))
    by (intros [|c] q'; reflexivity).
  rewrite Hidle. cbn [fst snd app g_panic running g_err length].
  cbn [finish_tasks g_panic running length].
  unfold run_task, bind, emit, ret. cbn [running fst snd app].
  rewrite Nat.mod_1_r. cbn [nth_error].
  rewrite !app_nil_r. fold w.
  destruct w as [[[e|]|v] tev]; cbn [fst snd g_panic g_err g_id app task_epilogue];
    rewrite ?app_nil_r, <- ?app_assoc; reflexivity.
Qed.

(** X13.  [GoWithContext] runs the function exactly once, in a goroutine of
    a new group and on a context of that group, whatever the scheduler
    does; it returns exactly the error the function returned, and the
    group context is cancelled once for a non-nil error and once more by
    [Wait].  If the function panics nothing is returned. *)
Theorem GoWithContext_returns_work_result (env : Env) (ctx : Context) (fn : Work)
    (past : list event) :
  let gid := length past in
  let w := fn (group_context ctx past) env (past ++ [EvWithContext; EvGo gid 0]) in
  GoWithContext ctx fn env past
  = match fst w with
    | Ret err =>
        (Returned err,
         EvWithContext :: EvGo gid 0
         :: snd w ++ task_epilogue gid 0 err None ++ [EvCancel gid])
    | Panic v => (Crashed v, EvWithContext :: EvGo gid 0 :: snd w)
    end.
Proof.
  intros gid w. unfold GoWithContext. rewrite bind_eq.
  cbn [WithContext fst snd]. rewrite run_group_single. fold gid.
  replace ((past ++ [EvWithContext]) ++ [EvGo gid 0])
    with (past ++ [EvWithContext; EvGo gid 0]) by now rewrite <- app_assoc.
  change (fn _ env (past ++ [EvWithContext; EvGo gid 0])) with w.
  destruct (fst w); reflexivity.
Qed.

(** X14.  [GoWithSpan] runs the function once inside a span of the given
    name, opened on the group context, and returns exactly the error the
    function returned; the span is closed in the goroutine before the
    group records the return, and also when the function panics. *)
Theorem GoWithSpan_closes_span_in_goroutine (env : Env) (ctx : Context)
    (name : string) (fn : Work) (past : list event) :
  let gid := length past in
  let gCtx := group_context ctx past in
  let past1 := past ++ [EvWithContext; EvGo gid 0] in
  let span := length past1 in
  let work := fn (span_context gCtx past1) env (past1 ++ span_prologue gCtx name past1) in
  GoWithSpan ctx name fn env past
  = match fst work with
    | Ret err =>
        (Returned err,
         EvWithContext :: EvGo gid 0
         :: (span_prologue gCtx name past1 ++ snd work
             ++ report name span (Ret err) ++ [EvSpanEnd span])
            ++ task_epilogue gid 0 err None ++ [EvCancel gid])
    | Panic v =>
        (Crashed v,
         EvWithContext :: EvGo gid 0
         :: span_prologue gCtx name past1 ++ snd work ++ [EvSpanEnd span])
    end.
Proof.
  intros gid gCtx past1 span work. unfold GoWithSpan, GoWithContext.
  rewrite bind_eq. cbn [WithContext fst snd]. rewrite run_group_single.
  cbv beta. fold gid.
  replace ((past ++ [EvWithContext]) ++ [EvGo gid 0]) with past1
    by (unfold past1; now rewrite <- app_assoc).
  change {| ctx_span := ctx_span ctx; ctx_groups := gid :: ctx_groups ctx |}
    with gCtx.
  rewrite (WithSpan_run gCtx name fn env past1).
  fold span work. cbn [fst snd].
  destruct (fst work) as [err|v]; [reflexivity|].
  cbn [report app]. reflexivity.
Qed.

(** ** Fan-out with a limit, fan-out with spans *)

(** What [run_group_spec] gives for a combinator that creates its group
    with [errgroup.WithContext] on the log [past]. *)
Lemma fanout_spec (T : Type) (env : Env) (items : list T)
    (task : nat -> T -> M (outcome (option error))) (sem : option nat)
    (past : list event) :
  let gid := length past in
  let G := run_group task {| g_id := gid; g_sem := sem |} items env
             (past ++ [EvWithContext]) in
  sem <> Some 0 ->
  (forall i x past', returns gid (snd (task i x env past')) = []) ->
  fst G <> Blocked /\
  ((forall i x past', exists e, fst (task i x env past') = Ret e) ->
   exists e, fst G = Returned e) /\
  forall e, fst G = Returned e ->
    Permutation (seq 0 (length items))
                (map fst (returns gid (EvWithContext :: snd G))) /\
    (forall pre i ri post,
       EvWithContext :: snd G = pre ++ EvTaskReturn gid i ri :: post ->
       exists pre0 x,
         nth_error items i = Some x /\
         pre = pre0 ++ snd (task i x env (past ++ pre0)) /\
         fst (task i x env (past ++ pre0)) = Ret ri) /\
    (e = None <->
     forall i ri, In (i, ri) (returns gid (EvWithContext :: snd G)) -> ri = None) /\
    (forall err, e = Some err ->
       exists i, In (i, Some err) (returns gid (EvWithContext :: snd G))).
Proof.
  intros gid G Hsem Hquiet.
  set (g := {| g_id := gid; g_sem := sem |}).
  destruct (run_group_spec T task g env Hquiet items (past ++ [EvWithContext]) Hsem)
    as (Hnb & Hret & Hspec).
  fold G in Hnb, Hret, Hspec.
  split; [assumption|]. split; [assumption|].
  intros e He. destruct (Hspec e He) as (Hperm & Hkept & HJ).
  change (returns gid (EvWithContext :: snd G)) with (returns (g_id g) (snd G)).
  split; [assumption|]. split; [|split].
  - intros pre i ri post H.
    destruct pre as [|a pre]; [discriminate|]. injection H as <- H.
    destruct (HJ pre i ri post H) as (pre0 & x & Hin & Hpre & Hri).
    apply in_combine_seq in Hin. destruct Hin as [_ Hnth].
    rewrite Nat.sub_0_r in Hnth.
    exists (EvWithContext :: pre0), x.
    rewrite <- app_assoc in Hpre, Hri. cbn [app] in Hpre, Hri.
    split; [assumption|]. split; [cbn [app]; now rewrite <- Hpre | assumption].
  - rewrite Hkept. apply kept_None_iff.
  - intros err ->. now apply kept_None_Some.
Qed.

(** X15.  [GoWithLimit] with a bound of at least 1, under every scheduler:
    the call never blocks and returns when no invocation panics.  Its log
    is the replay of a schedule of spawns and runs; when it returns, the
    schedule spawns the items in order and runs every item exactly once,
    after its spawn, so the per-item function is invoked exactly once per
    item, on the group context.  The result is nil if and only if every
    invocation returned nil, and a non-nil result is the error one of the
    invocations returned. *)
Theorem GoWithLimit_result (T : Type) (env : Env) (ctx : Context)
    (concurrency : Z) (items : list T)
    (fn : Context -> T -> M (outcome (option error))) (past : list event) :
  let gid := length past in
  let gCtx := group_context ctx past in
  let r := GoWithLimit ctx concurrency items fn env past in
  (1 <= concurrency)%Z ->
  fst r <> Blocked /\
  ((forall x past', exists e, fst (fn gCtx x env past') = Ret e) ->
   exists e, fst r = Returned e) /\
  exists sched,
    let run := replay T (fun _ x => fn gCtx x) gid items sched None env
                 (past ++ [EvWithContext]) in
    let calls := fst (fst run) in
    match snd (fst run) with
    | Some v => r = (Crashed v, EvWithContext :: snd run)
    | None =>
        exists e,
          r = (Returned e, EvWithContext :: snd run ++ [EvCancel gid]) /\
          started sched = seq 0 (length items) /\
          Permutation (seq 0 (length items)) (completed sched) /\
          Ordered [] sched /\
          map fst calls = completed sched /\
          (e = None <-> forall i ri, In (i, ri) calls -> ri = None) /\
          (forall err, e = Some err -> exists i, In (i, Some err) calls)
    end.
Proof.
  intros gid gCtx r HK.
  set (g := {| g_id := gid; g_sem := Some (Z.to_nat concurrency) |}).
  set (task := fun (_ : nat) (item : T) => fn gCtx item).
  set (G := run_group task g items env (past ++ [EvWithContext])).
  assert (Hr : r = (fst G, EvWithContext :: snd G)).
  { unfold r, GoWithLimit. rewrite bind_eq. cbn [WithContext fst snd].
    unfold SetLimit. cbn [g_id].
    destruct (concurrency <? 0)%Z eqn:Hneg; [apply Z.ltb_lt in Hneg; lia|].
    reflexivity. }
  assert (Hsem : g_sem g <> Some 0) by (cbn [g g_sem]; intros [= H0]; lia).
  destruct (run_group_replay T task g env items (past ++ [EvWithContext]) Hsem)
    as (sched & Hrun).
  fold G in Hrun. change (g_id g) with gid in Hrun.
  set (run := replay T task gid items sched None env (past ++ [EvWithContext])) in *.
  assert (Hnp : (forall x past', exists e, fst (fn gCtx x env past') = Ret e) ->
                snd (fst run) = None).
  { intros Hret. apply (replay_nopanic T task g env items sched None).
    intros i x q. apply Hret. }
  rewrite Hr. cbn [fst].
  destruct (snd (fst run)) as [v|] eqn:Hp.
  - rewrite Hrun. cbn [fst snd].
    split; [discriminate|]. split.
    { intros Hret. specialize (Hnp Hret). discriminate. }
    exists sched. cbn zeta. fold task run. rewrite Hp. reflexivity.
  - destruct Hrun as (HG & Hcalls & Hst & Hperm & Hord).
    rewrite HG. cbn [fst snd].
    split; [discriminate|]. split; [intros _; eexists; reflexivity|].
    exists sched. cbn zeta. fold task run. rewrite Hp.
    exists (kept None (fst (fst run))).
    split; [reflexivity|]. split; [assumption|]. split; [assumption|].
    split; [assumption|]. split; [assumption|]. split.
    + apply kept_None_iff.
    + intros err. apply kept_None_Some.
Qed.

Lemma GoWithLimit_result_witness :
  let gid := 0 in
  let gCtx := group_context ctx_background [] in
  let r := GoWithLimit ctx_background 2 [1; 2; 5] fn_fails_on_2_and_5 env_last_first [] in
  fst r <> Blocked /\
  ((forall x past', exists e,
      fst (fn_fails_on_2_and_5 gCtx x env_last_first past') = Ret e) ->
   exists e, fst r = Returned e) /\
  exists sched,
    let run := replay nat (fun _ x => fn_fails_on_2_and_5 gCtx x) gid [1; 2; 5]
                 sched None env_last_first ([] ++ [EvWithContext]) in
    let calls := fst (fst run) in
    match snd (fst run) with
    | Some v => r = (Crashed v, EvWithContext :: snd run)
    | None =>
        exists e,
          r = (Returned e, EvWithContext :: snd run ++ [EvCancel gid]) /\
          started sched = seq 0 3 /\
          Permutation (seq 0 3) (completed sched) /\
          Ordered [] sched /\
          map fst calls = completed sched /\
          (e = None <-> forall i ri, In (i, ri) calls -> ri = None) /\
          (forall err, e = Some err -> exists i, In (i, Some err) calls)
    end.
Proof.
  apply (GoWithLimit_result nat env_last_first ctx_background 2 [1; 2; 5]
           fn_fails_on_2_and_5 []).
  lia.
Defined.

(** With the bound 2 the third spawn waits for a slot: under the scheduler
    that completes the most recent task first, item 2 runs before item 5 is
    spawned. *)
Example GoWithLimit_schedule_last_first :
  let sched := [StepGo 0; StepGo 1; StepRun 1; StepGo 2; StepRun 2; StepRun 0] in
  let run := replay nat (fun _ x => fn_fails_on_2_and_5 {| ctx_span := None; ctx_groups := [0] |} x) 0 [1; 2; 5]
               sched None env_last_first [EvWithContext] in
  GoWithLimit ctx_background 2 [1; 2; 5] fn_fails_on_2_and_5 env_last_first []
  = (Returned (kept None (fst (fst run))), EvWithContext :: snd run ++ [EvCancel 0]) /\
  fst (fst run) = [(1, Some (errorString "two")); (2, Some (errorString "five"));
                   (0, None)].
Proof. split; reflexivity. Qed.

Lemma WithSpan_quiet (gid : nat) (ctx : Context) (name : string) (fn : Work)
    (env : Env) (past : list event) :
  (forall c past', returns gid (snd (fn c env past')) = []) ->
  returns gid (snd (WithSpan ctx name fn env past)) = [].
Proof.
  intros Hq. rewrite WithSpan_run. cbn [snd].
  rewrite !returns_app, Hq.
  destruct (fst (fn _ env _)) as [[e|]|v]; reflexivity.
Qed.



(** ** Bounded concurrency *)

(** The goroutines of group [gid] holding a semaphore slot: one more after
    each [g.Go], one less after each task return. *)
Definition flight_step (gid : nat) (cur : nat) (e : event) : nat :=
  match e with
  | EvGo g _ => if g =? gid then S cur else cur
  | EvTaskReturn g _ _ => if g =? gid then pred cur else cur
  | _ => cur
  end.

Definition in_flight (gid : nat) (cur : nat) (es : list event) : nat :=
  fold_left (flight_step gid) es cur.

(** The largest number of slots held at any point of the log [es], starting
    from [cur]. *)
Fixpoint peak (gid : nat) (cur : nat) (es : list event) : nat :=
  match es with
  | [] => cur
  | e :: rest => Nat.max cur (peak gid (flight_step gid cur e) rest)
  end.

(** A log without [g.Go] and task return events of group [gid]. *)
Definition calm (gid : nat) (es : list event) : bool :=
  forallb (fun e => match e with
                    | EvGo g _ | EvTaskReturn g _ _ => negb (g =? gid)
                    | _ => true
                    end) es.

Lemma in_flight_app gid cur a b :
  in_flight gid cur (a ++ b) = in_flight gid (in_flight gid cur a) b.
Proof. apply fold_left_app. Qed.

Lemma peak_ge gid es : forall cur, cur <= peak gid cur es.
Proof. destruct es; intros cur; simpl; lia. Qed.

Lemma in_flight_le_peak gid es : forall cur, in_flight gid cur es <= peak gid cur es.
Proof.
  unfold in_flight.
  induction es as [|e es IH]; intros cur; simpl; [lia|].
  specialize (IH (flight_step gid cur e)). lia.
Qed.

Lemma peak_app gid a : forall cur b,
  peak gid cur (a ++ b)
  = Nat.max (peak gid cur a) (peak gid (in_flight gid cur a) b).
Proof.
  induction a as [|e a IH]; intros cur b; simpl.
  - pose proof (peak_ge gid b cur). lia.
  - rewrite IH. unfold in_flight. lia.
Qed.

Lemma calm_neutral gid es : forall cur,
  calm gid es = true -> in_flight gid cur es = cur /\ peak gid cur es = cur.
Proof.
  induction es as [|e es IH]; intros cur Hc; [now split|].
  simpl in Hc. apply andb_true_iff in Hc. destruct Hc as [He Hes].
  assert (Hstep : flight_step gid cur e = cur).
  { destruct e; try reflexivity; simpl in *; now destruct (g =? gid). }
  destruct (IH cur Hes) as [Hf Hp].
  unfold in_flight in *. simpl. rewrite Hstep. split; [assumption | lia].
Qed.

Section Flight.

Variable T : Type.
Variable task : nat -> T -> M (outcome (option error)).
Variable g : Group.
Variable env : Env.

(** The task functions neither spawn into this group nor write its return
    records. *)
Hypothesis task_calm : forall i x past, calm (g_id g) (snd (task i x env past)) = true.

(** From [st] to [st'] over the log [es]: the slots held never exceed
    those held at the start, no task was added, and unless a task panicked
    the slots held at the end are those of the tasks still spawned. *)
Definition Draining (st st' : gstate T) (es : list event) : Prop :=
  peak (g_id g) (length (running st)) es <= length (running st) /\
  length (running st') <= length (running st) /\
  (g_panic st' = None ->
   in_flight (g_id g) (length (running st)) es = length (running st')).

Lemma Draining_refl st : Draining st st [].
Proof. repeat split; simpl; auto. Qed.

Lemma Draining_trans st st1 st2 es1 es2 :
  Draining st st1 es1 ->
  (g_panic st1 = None -> Draining st1 st2 es2) ->
  (g_panic st1 <> None -> st2 = st1 /\ es2 = []) ->
  Draining st st2 (es1 ++ es2).
Proof.
  intros (Hp1 & Hl1 & Hf1) H2 Hstop.
  destruct (g_panic st1) as [v|] eqn:Hst1.
  - destruct Hstop as [-> ->]; [discriminate|]. rewrite app_nil_r.
    split; [assumption|]. split; [assumption|]. intros Hn. congruence.
  - destruct (H2 eq_refl) as (Hp2 & Hl2 & Hf2).
    split; [|split].
    + rewrite peak_app, (Hf1 eq_refl). lia.
    + lia.
    + intros Hn. now rewrite in_flight_app, (Hf1 eq_refl), (Hf2 Hn).
Qed.

Lemma run_task_Panic_events st k i x v past :
  nth_error (running st) k = Some (i, x) ->
  fst (task i x env past) = Panic v ->
  snd (run_task task g st k env past) = snd (task i x env past).
Proof.
  intros Hk Hr. unfold run_task. rewrite Hk, bind_eq, Hr. cbn [ret snd].
  now rewrite app_nil_r.
Qed.

Lemma run_task_draining st k past :
  Draining st (fst (run_task task g st k env past))
              (snd (run_task task g st k env past)).
Proof.
  destruct (nth_error (running st) k) as [[i x]|] eqn:Hk;
    [|unfold run_task; rewrite Hk; apply Draining_refl].
  pose proof (remove_nth_length _ _ _ Hk) as Hlen.
  destruct (calm_neutral _ _ (length (running st)) (task_calm i x past)) as [Hf Hp].
  destruct (fst (task i x env past)) as [r|v] eqn:Hr.
  - rewrite (run_task_Ret _ _ _ _ _ _ _ _ _ _ Hk Hr). cbn [fst snd running g_panic].
    assert (Htail : calm (g_id g)
                      (match r, g_err st with
                       | Some _, None => [EvCancel (g_id g)] | _, _ => [] end) = true)
      by (destruct r, (g_err st); reflexivity).
    set (tail := match r, g_err st with
                 | Some _, None => [EvCancel (g_id g)] | _, _ => [] end) in *.
    change (snd (task i x env past) ++ EvTaskReturn (g_id g) i r :: tail)
      with (snd (task i x env past) ++ [EvTaskReturn (g_id g) i r] ++ tail).
    destruct (calm_neutral _ _ (length (running st) - 1) Htail) as [Hft Hpt].
    assert (Hstep : in_flight (g_id g) (length (running st)) [EvTaskReturn (g_id g) i r]
                    = length (running st) - 1)
      by (unfold in_flight; simpl; now rewrite Nat.eqb_refl, Nat.sub_1_r).
    assert (Hpk : peak (g_id g) (length (running st)) [EvTaskReturn (g_id g) i r]
                  = length (running st))
      by (simpl; rewrite Nat.eqb_refl, <- Nat.sub_1_r; lia).
    split; [|split].
    + rewrite !peak_app, Hp, Hf, Hpk, Hstep, Hpt. lia.
    + simpl. lia.
    + intros _. rewrite !in_flight_app, Hf, Hstep, Hft. simpl. lia.
  - unfold Draining. rewrite (run_task_Panic_events _ _ _ _ _ _ Hk Hr).
    rewrite (run_task_running _ _ _ _ _ _ _ _ Hk).
    split; [lia|]. split; [lia|].
    intros Hn. rewrite (run_task_Panic _ _ _ _ _ _ _ _ _ _ Hk Hr) in Hn.
    discriminate.
Qed.

Lemma finish_tasks_draining n : forall st past,
  Draining st (fst (finish_tasks task g n st env past))
              (snd (finish_tasks task g n st env past)).
Proof.
  induction n as [|n IH]; intros st past; [apply Draining_refl|].
  destruct (g_panic st) as [v|] eqn:Hp.
  { rewrite (finish_tasks_panicked _ _ _ _ _ _ v) by assumption.
    apply Draining_refl. }
  destruct (running st) as [|a l] eqn:Hrun.
  { cbn [finish_tasks]. rewrite Hp, Hrun. apply Draining_refl. }
  rewrite finish_tasks_S by (try assumption; rewrite Hrun; discriminate).
  cbn [fst snd].
  eapply Draining_trans.
  - apply run_task_draining.
  - intros _. apply IH.
  - intros Hpan.
    destruct (g_panic (fst (run_task task g st _ env past))) as [v|] eqn:E;
      [|now elim Hpan].
    rewrite (finish_tasks_panicked _ _ _ _ _ _ v) by assumption. now split.
Qed.

Variable K : nat.
Hypothesis sem_K : g_sem g = Some K.
Hypothesis K_pos : 1 <= K.

Lemma acquire_bounded st past :
  length (running st) <= K ->
  let A := acquire task g st env past in
  Draining st (fst (fst A)) (snd A) /\
  (g_panic (fst (fst A)) = None -> length (running (fst (fst A))) < K) /\
  (g_panic st <> None -> fst (fst A) = st /\ snd A = []).
Proof.
  intros Hlen A. unfold A. rewrite acquire_eq, sem_K.
  destruct (K =? 0) eqn:HK0; [apply Nat.eqb_eq in HK0; lia|].
  cbn [fst snd]. split; [apply finish_tasks_draining|]. split.
  - intros Hn. rewrite finish_tasks_length by assumption. lia.
  - intros Hp. destruct (g_panic st) as [v|] eqn:E; [|now elim Hp].
    rewrite (finish_tasks_panicked _ _ _ _ _ _ v) by assumption. now split.
Qed.

Lemma launch_bounded todo : forall st past,
  length (running st) <= K ->
  let L := launch task g todo st env past in
  peak (g_id g) (length (running st)) (snd L) <= K /\
  (g_panic (fst (fst L)) = None ->
   in_flight (g_id g) (length (running st)) (snd L)
     = length (running (fst (fst L))) /\
   length (running (fst (fst L))) <= K).
Proof.
  induction todo as [|[i x] rest IH]; intros st past Hlen L.
  { unfold L. simpl. split; [lia|]. intros _. split; [reflexivity | assumption]. }
  unfold L. rewrite launch_cons.
  set (F := finish_tasks task g (yield env past) st env past).
  pose proof (finish_tasks_draining (yield env past) st past) as DF. fold F in DF.
  assert (HlenF : length (running (fst F)) <= K) by (destruct DF as (_ & ? & _); lia).
  destruct (acquire_bounded (fst F) (past ++ snd F) HlenF) as (DA & HltA & HstopA).
  set (A := acquire task g (fst F) env (past ++ snd F)) in *.
  assert (DFA : Draining st (fst (fst A)) (snd F ++ snd A)).
  { apply (Draining_trans st (fst F)); [assumption | intros _; assumption | assumption]. }
  assert (Hb : snd (fst A) = false).
  { unfold A. apply acquire_blocked. rewrite sem_K. intros [= H0]. lia. }
  destruct (g_panic (fst (fst A))) as [v|] eqn:HpA.
  { cbn [fst snd]. destruct DFA as (Hpk & _ & _).
    split; [lia | rewrite HpA; discriminate]. }
  rewrite Hb. cbn [fst snd].
  destruct DFA as (Hpk & HlA & HfA). specialize (HfA HpA). specialize (HltA eq_refl).
  set (st3 := spawned T (fst (fst A)) i x).
  assert (Hlen3 : length (running st3) = S (length (running (fst (fst A))))).
  { unfold st3, spawned. cbn [running]. rewrite length_app. simpl. lia. }
  destruct (IH st3 (past ++ snd F ++ snd A ++ [EvGo (g_id g) i])) as (HpkL & HfL);
    [lia|].
  set (Lr := launch task g rest st3 env _) in *.
  assert (Hgo : flight_step (g_id g) (length (running (fst (fst A)))) (EvGo (g_id g) i)
                = length (running st3))
    by (cbn [flight_step]; now rewrite Nat.eqb_refl, Hlen3).
  replace (snd F ++ snd A ++ EvGo (g_id g) i :: snd Lr)
    with ((snd F ++ snd A) ++ EvGo (g_id g) i :: snd Lr)
    by now rewrite <- app_assoc.
  split.
  - rewrite peak_app, HfA. cbn [peak]. rewrite Hgo. lia.
  - intros Hn. rewrite in_flight_app, HfA.
    unfold in_flight at 1. cbn [fold_left]. rewrite Hgo. now apply HfL.
Qed.

Lemma run_group_bounded (items : list T) (past : list event) :
  peak (g_id g) 0 (snd (run_group task g items env past)) <= K.
Proof.
  unfold run_group. rewrite bind_eq.
  set (st0 := {| running := []; g_err := None; g_panic := None |}).
  destruct (launch_bounded (combine (seq 0 (length items)) items) st0 past)
    as (HpkL & HfL); [simpl; lia|].
  set (L := launch task g (combine (seq 0 (length items)) items) st0 env past) in *.
  cbn [st0 running length] in HpkL, HfL.
  assert (Hb : snd (fst L) = false).
  { unfold L. apply launch_blocked. rewrite sem_K. intros [= H0]. lia. }
  destruct (fst L) as [st b] eqn:HL. cbn [fst snd] in *. subst b.
  destruct (g_panic st) as [v|] eqn:Hp.
  { cbn [ret fst snd]. now rewrite app_nil_r. }
  destruct (HfL eq_refl) as (Hfl & Hlen).
  rewrite bind_eq.
  pose proof (finish_tasks_draining (length (running st)) st (past ++ snd L))
    as (HpkF & _ & _).
  set (F := finish_tasks task g (length (running st)) st env (past ++ snd L)) in *.
  assert (Htail : forall tail,
            calm (g_id g) tail = true ->
            peak (g_id g) 0 (snd L ++ snd F ++ tail) <= K).
  { intros tail Hc. rewrite !peak_app, Hfl.
    destruct (calm_neutral _ _ (in_flight (g_id g) (length (running st)) (snd F)) Hc)
      as [_ ->].
    pose proof (in_flight_le_peak (g_id g) (snd F) (length (running st))). lia. }
  cbn [fst snd].
  destruct (g_panic (fst F)); [apply Htail; reflexivity|].
  rewrite bind_eq. apply Htail. reflexivity.
Qed.

End Flight.

Lemma WithSpan_calm (gid : nat) (ctx : Context) (name : string) (fn : Work)
    (env : Env) (past : list event) :
  (forall c past', calm gid (snd (fn c env past')) = true) ->
  calm gid (snd (WithSpan ctx name fn env past)) = true.
Proof.
  intros Hc. rewrite WithSpan_run. cbn [snd]. unfold calm in *.
  rewrite !forallb_app, Hc.
  destruct (fst (fn _ env _)) as [[e|]|v]; reflexivity.
Qed.


(** The bound is reached: with limit 2 and three items, two goroutines
    hold a slot at some point. *)
Example GoWithLimit_peak_reached :
  peak 0 0 (snd (GoWithLimit ctx_background 2 [1; 2; 5] fn_fails_on_2_and_5 env_ok []))
  = 2.
Proof. reflexivity. Qed.


(** * Properties of the services and of the configuration *)

(** ** Slices updated in place *)

Lemma set_nth_length (l : bytes) (i : nat) (v : Z) :
  length (set_nth l i v) = length l.
Proof.
  revert i. induction l as [|x l IH]; intros [|i]; cbn; try reflexivity.
  now rewrite IH.
Qed.

Lemma set_nth_app (a l : bytes) (k : nat) (v : Z) :
  set_nth (a ++ l) (length a + k) v = a ++ set_nth l k v.
Proof.
  induction a as [|x a IH]; cbn; [reflexivity|]. now rewrite IH.
Qed.

Lemma set_nth_middle (a : bytes) (x : Z) (l : bytes) (v : Z) :
  set_nth (a ++ x :: l) (length a) v = a ++ v :: l.
Proof.
  rewrite <- (Nat.add_0_r (length a)). now rewrite set_nth_app.
Qed.

Lemma swap_at_length (l : bytes) (i j : nat) :
  length (swap_at l i j) = length l.
Proof. unfold swap_at. now rewrite !set_nth_length. Qed.

Lemma swap_at_ends (a : bytes) (x : Z) (m : bytes) (y : Z) (b : bytes) :
  swap_at (a ++ x :: m ++ y :: b) (length a) (length a + S (length m))
  = a ++ y :: m ++ x :: b.
Proof.
  unfold swap_at.
  rewrite app_nth2_plus. cbn [nth]. rewrite nth_middle.
  rewrite (nth_middle a (m ++ y :: b) x 0%Z).
  rewrite set_nth_middle, set_nth_app. cbn [set_nth].
  now rewrite set_nth_middle.
Qed.

Lemma swap_at_adjacent (a : bytes) (x y : Z) (b : bytes) :
  swap_at (a ++ x :: y :: b) (length a) (length a + 1) = a ++ y :: x :: b.
Proof. exact (swap_at_ends a x [] y b). Qed.

(** *** The reversal loop of [transformData] *)

Lemma reverse_loop_spec (fuel : nat) :
  forall (m a b : bytes),
    length m <= 2 * fuel + 1 ->
    Processor.reverse_loop fuel (Z.of_nat (length a))
      (Z.of_nat (length a + length m) - 1) (a ++ m ++ b)
    = a ++ rev m ++ b.
Proof.
  induction fuel as [|fuel IH]; intros m a b Hlen.
  - destruct m as [|x [|y m]]; cbn in Hlen; try lia; reflexivity.
  - cbn [Processor.reverse_loop].
    destruct m as [|x m].
    { cbn [length rev app]. rewrite Nat.add_0_r.
      destruct (Z.ltb_spec (Z.of_nat (length a)) (Z.of_nat (length a) - 1)); [lia|].
      reflexivity. }
    destruct (exists_last (l := x :: m)) as [m' [y Hm]]; [discriminate|].
    destruct m' as [|x' m'].
    { cbn in Hm. injection Hm as -> ->. cbn [length rev app].
      destruct (Z.ltb_spec (Z.of_nat (length a)) (Z.of_nat (length a + 1) - 1)); [lia|].
      reflexivity. }
    cbn in Hm. injection Hm as <- ->.
    cbn [length] in Hlen |- *. rewrite length_app in Hlen |- *.
    cbn [length] in Hlen |- *.
    destruct (Z.ltb_spec (Z.of_nat (length a))
                (Z.of_nat (length a + S (length m' + 1)) - 1)); [|lia].
    rewrite Nat2Z.id.
    replace (Z.to_nat (Z.of_nat (length a + S (length m' + 1)) - 1))
      with (length a + S (length m')) by lia.
    change (a ++ (x :: m' ++ [y]) ++ b) with (a ++ x :: (m' ++ [y]) ++ b).
    rewrite <- (app_assoc m' [y] b). cbn [app].
    rewrite swap_at_ends.
    replace (a ++ y :: m' ++ x :: b) with ((a ++ [y]) ++ m' ++ (x :: b))
      by (now rewrite <- app_assoc).
    replace (Z.of_nat (length a) + 1)%Z with (Z.of_nat (length (a ++ [y])))
      by (rewrite length_app; cbn; lia).
    replace (Z.of_nat (length a + S (length m' + 1)) - 1 - 1)%Z
      with (Z.of_nat (length (a ++ [y]) + length m') - 1)%Z
      by (rewrite length_app; cbn; lia).
    rewrite IH by lia.
    cbn [rev]. rewrite rev_app_distr. cbn [rev app].
    rewrite <- !app_assoc. reflexivity.
Qed.

Lemma reverse_loop_rev (data : bytes) :
  Processor.reverse_loop (length data) 0 (Z.of_nat (length data) - 1) data
  = rev data.
Proof.
  pose proof (reverse_loop_spec (length data) data [] []) as H.
  cbn [length app Nat.add] in H. rewrite !app_nil_r in H.
  apply H. lia.
Qed.

(** *** The increment loop of [preprocess] *)

Definition bump (b : Z) : Z := if (b <? 255)%Z then (b + 1)%Z else b.

Lemma increment_loop_spec (l : bytes) :
  forall a : bytes,
    Analyzer.increment_loop (length l) (length a) (a ++ l) = a ++ map bump l.
Proof.
  induction l as [|x l IH]; intros a; [reflexivity|].
  cbn [length Analyzer.increment_loop map].
  rewrite nth_middle.
  replace (if (x <? 255)%Z then set_nth (a ++ x :: l) (length a) (x + 1)%Z
           else a ++ x :: l)
    with ((a ++ [bump x]) ++ l).
  - replace (S (length a)) with (length (a ++ [bump x]))
      by (rewrite length_app; cbn; lia).
    rewrite IH. now rewrite <- app_assoc.
  - unfold bump. rewrite <- app_assoc. cbn [app].
    destruct (x <? 255)%Z; [now rewrite set_nth_middle | reflexivity].
Qed.

(** *** The pair loop of [detectPatterns] *)

Fixpoint swap_pairs (l : bytes) : bytes :=
  match l with
  | x :: y :: rest => y :: x :: swap_pairs rest
  | _ => l
  end.

Lemma pairs_loop_done (fuel i : nat) (result : bytes) :
  length result <= i -> Analyzer.pairs_loop fuel i result = result.
Proof.
  intros H. destruct fuel; cbn [Analyzer.pairs_loop]; [reflexivity|].
  destruct (Nat.ltb_spec i (length result)); [lia | reflexivity].
Qed.

Lemma pairs_loop_spec (fuel : nat) :
  forall (l a : bytes),
    length l <= 2 * fuel ->
    Analyzer.pairs_loop fuel (length a) (a ++ l) = a ++ swap_pairs l.
Proof.
  induction fuel as [|fuel IH]; intros l a Hlen.
  - destruct l; cbn in Hlen; [reflexivity | lia].
  - cbn [Analyzer.pairs_loop]. rewrite length_app.
    destruct l as [|x [|y l]].
    + cbn [length]. destruct (Nat.ltb_spec (length a) (length a + 0)); [lia|].
      reflexivity.
    + cbn [length]. destruct (Nat.ltb_spec (length a) (length a + 1)); [|lia].
      destruct (Nat.ltb_spec (length a + 1) (length a + 1)); [lia|].
      apply pairs_loop_done. rewrite length_app. cbn. lia.
    + cbn [length] in Hlen |- *.
      destruct (Nat.ltb_spec (length a) (length a + S (S (length l)))); [|lia].
      destruct (Nat.ltb_spec (length a + 1) (length a + S (S (length l)))); [|lia].
      rewrite swap_at_adjacent.
      replace (a ++ y :: x :: l) with ((a ++ [y; x]) ++ l)
        by (now rewrite <- app_assoc).
      replace (length a + 2) with (length (a ++ [y; x]))
        by (rewrite length_app; cbn; lia).
      rewrite IH by lia. cbn [swap_pairs]. now rewrite <- app_assoc.
Qed.

Lemma swap_pairs_involutive (l : bytes) : swap_pairs (swap_pairs l) = l.
Proof.
  assert (H : forall n (l : bytes), length l <= n -> swap_pairs (swap_pairs l) = l).
  { induction n as [|n IH]; intros [|x [|y k]] Hk; cbn in Hk; try lia;
      try reflexivity.
    cbn [swap_pairs]. rewrite IH by lia. reflexivity. }
  apply (H (length l)). lia.
Qed.

Lemma swap_pairs_length (l : bytes) : length (swap_pairs l) = length l.
Proof.
  assert (H : forall n (l : bytes), length l <= n -> length (swap_pairs l) = length l).
  { induction n as [|n IH]; intros [|x [|y k]] Hk; cbn in Hk; try lia;
      try reflexivity.
    cbn [swap_pairs length]. rewrite IH by lia. reflexivity. }
  apply (H (length l)). lia.
Qed.

Lemma swap_pairs_Permutation (l : bytes) : Permutation (swap_pairs l) l.
Proof.
  assert (H : forall n (l : bytes), length l <= n -> Permutation (swap_pairs l) l).
  { induction n as [|n IH]; intros [|x [|y k]] Hk; cbn in Hk; try lia;
      try apply Permutation_refl.
    cbn [swap_pairs]. rewrite perm_swap. do 2 apply perm_skip. apply IH. lia. }
  apply (H (length l)). lia.
Qed.

(** X18.  [transformData] returns the input reversed and no error, for
    every input (the empty slice included); its span is opened, completed
    without a recorded error, and closed. *)
Theorem transformData_reverses (ctx : Context) (data : bytes) (env : Env)
    (past : list event) :
  Processor.transformData ctx data env past
  = (Ret (rev data, None),
     span_prologue ctx "processor.transform_data" past
       ++ [EvLog DebugLevel "Completed span" "processor.transform_data"
             (Some (length past)) None;
           EvSpanEnd (length past)]).
Proof.
  unfold Processor.transformData. rewrite bind_eq, WithSpan_run.
  unfold ret. cbn [fst snd report app]. rewrite reverse_loop_rev.
  rewrite app_nil_r. reflexivity.
Qed.

(** X19.  When the random draw does not make it fail, [detectPatterns]
    exchanges the bytes of every adjacent pair (a last byte without a
    partner stays): the output is a rearrangement of the input, and
    running it on its own output gives the input back. *)
Theorem detectPatterns_swaps_neighbours (data : bytes) :
  Analyzer.detectPatterns false data = (swap_pairs data, None) /\
  Analyzer.detectPatterns false (swap_pairs data) = (data, None) /\
  Permutation (swap_pairs data) data.
Proof.
  assert (H : forall l, Analyzer.detectPatterns false l = (swap_pairs l, None)).
  { intros l. unfold Analyzer.detectPatterns.
    f_equal. apply (pairs_loop_spec (length l) l []). lia. }
  split; [apply H|]. split.
  - rewrite H, swap_pairs_involutive. reflexivity.
  - apply swap_pairs_Permutation.
Qed.

(** X20.  [preprocess] never fails and adds one to every byte, stopping
    at 255: on a slice of bytes the output has the same length, every
    output byte lies in 1..255, and byte [i] is [min 255 (data[i] + 1)]. *)
Theorem preprocess_saturates (data : bytes) :
  Forall (fun b => 0 <= b <= 255)%Z data ->
  exists out,
    Analyzer.preprocess data = (out, None) /\
    length out = length data /\
    Forall (fun b => 1 <= b <= 255)%Z out /\
    forall i, i < length data -> nth i out 0%Z = Z.min 255 (nth i data 0 + 1)%Z.
Proof.
  intros Hbytes. exists (map bump data).
  assert (Hb : forall b, (0 <= b <= 255)%Z ->
                 (1 <= bump b <= 255)%Z /\ bump b = Z.min 255 (b + 1)).
  { intros b Hb. unfold bump. destruct (Z.ltb_spec b 255); lia. }
  split; [|split; [|split]].
  - unfold Analyzer.preprocess.
    f_equal. exact (increment_loop_spec data []).
  - apply length_map.
  - apply Forall_map. eapply Forall_impl; [|exact Hbytes].
    intros b Hr. apply (Hb b Hr).
  - intros i Hi.
    rewrite (nth_indep (map bump data) 0%Z (bump 0)) by (now rewrite length_map).
    rewrite map_nth. apply Hb.
    rewrite Forall_forall in Hbytes. apply Hbytes. now apply nth_In.
Qed.

Lemma preprocess_saturates_witness :
  exists out,
    Analyzer.preprocess [0; 254; 255]%Z = (out, None) /\
    length out = 3 /\
    Forall (fun b => 1 <= b <= 255)%Z out /\
    forall i, i < 3 -> nth i out 0%Z = Z.min 255 (nth i [0; 254; 255] 0 + 1)%Z.
Proof.
  apply (preprocess_saturates [0; 254; 255]%Z).
  repeat constructor; lia.
Defined.

(** ** The storage service *)

Lemma map_get_put_same {V} (m : gomap V) (key : string) (v : V) :
  map_get (map_put m key v) key = Some v.
Proof. unfold map_put. cbn [map_get]. now rewrite String.eqb_refl. Qed.

Lemma map_get_put_other {V} (m : gomap V) (key other : string) (v : V) :
  other <> key -> map_get (map_put m key v) other = map_get m other.
Proof.
  intros Hne. unfold map_put. cbn [map_get].
  destruct (String.eqb_spec key other) as [->|_]; [contradiction|].
  induction m as [|[k w] m IH]; [reflexivity|].
  cbn [filter fst map_get].
  destruct (String.eqb_spec k key) as [->|Hk]; cbn [negb].
  - destruct (String.eqb_spec key other) as [->|_]; [contradiction | exact IH].
  - cbn [map_get]. rewrite IH. reflexivity.
Qed.

Lemma GetData_result (s : Storage_t) (ctx : Context) (id : string) (env : Env)
    (past : list event) :
  fst (Storage.GetData s ctx id env past)
  = match map_get (s_data s) id with
    | Some data => Ret (data, None)
    | None =>
        Ret ([], Some (Errorf_w "storage operation failed: "
                         (errorString ("data with id " +++ id +++ " not found"))))
    end.
Proof.
  unfold Storage.GetData, defer. rewrite bind_eq.
  unfold ContextWithSpan. cbn [fst snd].
  rewrite !bind_fst. rewrite WithSpan_run. unfold ret. cbn [fst snd].
  destruct (map_get (s_data s) id); reflexivity.
Qed.

(** X21.  What [StoreData] stores, [GetData] returns: after
    [StoreData(id, data)] a [GetData(id)] gives exactly [data] and no
    error, and the other keys are untouched.  This holds also when
    [StoreData] returns an error: data of more than 1000000 bytes is
    written before the size is checked, and the error reports a failed
    store although the data is there. *)
Theorem StoreData_then_GetData (s : Storage_t) (ctx : Context) (id : string)
    (data : bytes) (env : Env) (past : list event) :
  exists s',
    fst (Storage.StoreData s ctx id data env past)
    = Ret (s', if (1000000 <? Z.of_nat (length data))%Z
               then Some (Errorf_w "storage operation failed: "
                            (errorString "data too large to store"))
               else None) /\
    (forall ctx' env' past',
        fst (Storage.GetData s' ctx' id env' past') = Ret (data, None)) /\
    (forall other, other <> id ->
        map_get (s_data s') other = map_get (s_data s) other).
Proof.
  exists {| s_name := s_name s; s_data := map_put (s_data s) id data |}.
  split; [|split].
  - unfold Storage.StoreData, defer. rewrite bind_eq.
    unfold ContextWithSpan. cbn [fst snd].
    rewrite !bind_fst. rewrite WithSpan_run. unfold ret. cbn [fst snd].
    destruct (1000000 <? Z.of_nat (length data))%Z; reflexivity.
  - intros ctx' env' past'. rewrite GetData_result. cbn [s_data].
    now rewrite map_get_put_same.
  - intros other Hne. cbn [s_data]. now apply map_get_put_other.
Qed.

(** X22.  [GetData] of an identifier that was never stored returns no
    data and the error "storage operation failed: data with id <id> not
    found", which wraps the error of the read.  The read error is recorded
    on the inner span and on the outer one, and both spans are closed,
    the inner one first. *)
Theorem GetData_missing (s : Storage_t) (ctx : Context) (id : string) (env : Env)
    (past : list event) :
  map_get (s_data s) id = None ->
  let outer := length past in
  let inner := S (length past) in
  let err := errorString ("data with id " +++ id +++ " not found") in
  Storage.GetData s ctx id env past
  = (Ret ([], Some (wrapError
                      ("storage operation failed: data with id " +++ id
                         +++ " not found") err)),
     [EvSpanStart outer "storage.get_data" (ctx_span ctx);
      EvSpanStart inner "storage.read_operation" (Some outer);
      EvLog DebugLevel "Starting span" "storage.read_operation" (Some inner) None;
      EvRecordError inner err;
      EvSetStatusError inner (Error err);
      EvLog ErrorLevel "Span error" "storage.read_operation" (Some inner) (Some err);
      EvSpanEnd inner;
      EvRecordError outer err;
      EvSpanEnd outer]).
Proof.
  intros Hmiss outer inner err.
  unfold Storage.GetData, defer. rewrite bind_eq.
  unfold ContextWithSpan. cbn [fst snd].
  rewrite !bind_eq. rewrite WithSpan_run. unfold ret, emit. cbn [fst snd].
  rewrite Hmiss. cbn [fst snd report app span_prologue span_context ctx_span].
  rewrite length_app. cbn [length]. rewrite Nat.add_1_r.
  reflexivity.
Qed.

Lemma GetData_missing_witness :
  Storage.GetData (NewStorage "main") ctx_background "42" env_ok []
  = (Ret ([], Some (wrapError "storage operation failed: data with id 42 not found"
                      (errorString "data with id 42 not found"))),
     [EvSpanStart 0 "storage.get_data" None;
      EvSpanStart 1 "storage.read_operation" (Some 0);
      EvLog DebugLevel "Starting span" "storage.read_operation" (Some 1) None;
      EvRecordError 1 (errorString "data with id 42 not found");
      EvSetStatusError 1 "data with id 42 not found";
      EvLog ErrorLevel "Span error" "storage.read_operation" (Some 1)
        (Some (errorString "data with id 42 not found"));
      EvSpanEnd 1;
      EvRecordError 0 (errorString "data with id 42 not found");
      EvSpanEnd 0]).
Proof.
  exact (GetData_missing (NewStorage "main") ctx_background "42" env_ok [] eq_refl).
Defined.

(** ** Resource attributes of the configuration *)

(** [strings.Join(parts, sep)] *)
Fixpoint join (sep : string) (parts : list string) : string :=
  match parts with
  | [] => EmptyString
  | [p] => p
  | p :: rest => p +++ sep +++ join sep rest
  end.

(** [strings.ContainsRune(s, c)] for a one byte [c] *)
Fixpoint contains (c : ascii) (s : string) : bool :=
  match s with
  | EmptyString => false
  | String d rest => Ascii.eqb d c || contains c rest
  end.

(** The text [key=value] of an attribute. *)
Definition entry (kv : string * string) : string := fst kv +++ "=" +++ snd kv.

(** The value of the last pair with the given key. *)
Fixpoint last_value (key : string) (ps : list (string * string)) : option string :=
  match ps with
  | [] => None
  | (k, v) :: rest =>
      match last_value key rest with
      | Some w => Some w
      | None => if String.eqb k key then Some v else None
      end
  end.

Lemma contains_app (c : ascii) (s t : string) :
  contains c (s +++ t) = contains c s || contains c t.
Proof.
  induction s as [|d s IH]; cbn; [reflexivity|].
  rewrite IH. now rewrite orb_assoc.
Qed.

Lemma split_on_clean (sep : ascii) (s : string) :
  contains sep s = false -> split_on sep s = [s].
Proof.
  induction s as [|d s IH]; cbn; [reflexivity|].
  intros H. apply orb_false_iff in H as [Hd Hs].
  rewrite Hd, (IH Hs). reflexivity.
Qed.

Lemma split_on_app (sep : ascii) (p rest : string) :
  contains sep p = false ->
  split_on sep (p +++ String sep rest) = p :: split_on sep rest.
Proof.
  induction p as [|d p IH]; cbn.
  - intros _. now rewrite Ascii.eqb_refl.
  - intros H. apply orb_false_iff in H as [Hd Hp].
    rewrite Hd, (IH Hp). reflexivity.
Qed.

Lemma split_on_join (sep : ascii) (parts : list string) :
  parts <> [] ->
  Forall (fun p => contains sep p = false) parts ->
  split_on sep (join (String sep EmptyString) parts) = parts.
Proof.
  intros Hne Hall. induction Hall as [|p rest Hp Hrest IH]; [contradiction|].
  destruct rest as [|q rest].
  - cbn [join]. now apply split_on_clean.
  - change (join (String sep EmptyString) (p :: q :: rest))
      with (p +++ String sep (join (String sep EmptyString) (q :: rest))).
    rewrite split_on_app by exact Hp. rewrite IH by discriminate. reflexivity.
Qed.

Lemma cut_app (sep : ascii) (k v : string) :
  contains sep k = false -> cut sep (k +++ String sep v) = Some (k, v).
Proof.
  induction k as [|d k IH]; cbn.
  - intros _. now rewrite Ascii.eqb_refl.
  - intros H. apply orb_false_iff in H as [Hd Hk].
    rewrite Hd, (IH Hk). reflexivity.
Qed.

Lemma cut_clean (sep : ascii) (s : string) :
  contains sep s = false -> cut sep s = None.
Proof.
  induction s as [|d s IH]; cbn; [reflexivity|].
  intros H. apply orb_false_iff in H as [Hd Hs].
  rewrite Hd, (IH Hs). reflexivity.
Qed.

Lemma split_on_parts (sep c : ascii) (s : string) :
  contains c s = false ->
  Forall (fun p => contains c p = false) (split_on sep s).
Proof.
  induction s as [|d s IH]; cbn [contains split_on].
  - intros _. repeat constructor.
  - intros H. apply orb_false_iff in H as [Hd Hs]. specialize (IH Hs).
    destruct (Ascii.eqb d sep).
    + constructor; [reflexivity | exact IH].
    + destruct (split_on sep s) as [|hd tl].
      * repeat constructor. cbn. now rewrite Hd.
      * inversion IH as [|? ? Hhd Htl]; subst. constructor; [|exact Htl].
        cbn. now rewrite Hd, Hhd.
Qed.

(** The loop of [parseResourceAttributes] over the pairs. *)
Definition collect_attributes (parts : list string) (attributes : gomap string)
  : gomap string :=
  fold_left
    (fun attributes pair =>
       match cut "=" pair with
       | Some (k, v) => map_put attributes k v
       | None => attributes
       end)
    parts attributes.

Lemma collect_attributes_cons (p : string) (parts : list string)
    (attributes : gomap string) :
  collect_attributes (p :: parts) attributes
  = collect_attributes parts
      match cut "=" p with
      | Some (k, v) => map_put attributes k v
      | None => attributes
      end.
Proof. reflexivity. Qed.

Lemma collect_attributes_entries (ps : list (string * string)) :
  Forall (fun kv => contains "=" (fst kv) = false) ps ->
  forall (attributes : gomap string) (key : string),
    map_get (collect_attributes (map entry ps) attributes) key
    = match last_value key ps with
      | Some w => Some w
      | None => map_get attributes key
      end.
Proof.
  induction 1 as [|[k v] ps Hk _ IH]; intros attributes key; [reflexivity|].
  cbn [map fst] in Hk |- *. rewrite collect_attributes_cons.
  change (entry (k, v)) with (k +++ String "=" v).
  rewrite (cut_app "=" k v Hk), IH. cbn [last_value].
  destruct (last_value key ps); [reflexivity|].
  destruct (String.eqb_spec k key) as [->|Hne].
  - apply map_get_put_same.
  - apply map_get_put_other. congruence.
Qed.

Lemma collect_attributes_junk (parts : list string) (attributes : gomap string) :
  Forall (fun p => contains "=" p = false) parts ->
  collect_attributes parts attributes = attributes.
Proof.
  induction 1 as [|p parts Hp _ IH]; [reflexivity|].
  rewrite collect_attributes_cons, (cut_clean "=" p Hp). exact IH.
Qed.

(** X23.  [parseResourceAttributes] reads back what was written as
    [k1=v1,k2=v2,...]: when no key contains a comma or an equals sign and
    no value contains a comma, every key is bound to the value of its last
    occurrence, and no other key is bound.  Values may contain equals
    signs, and keys and values may be empty. *)
Theorem parseResourceAttributes_round_trip (ps : list (string * string))
    (key : string) :
  Forall (fun kv => contains "," (fst kv) = false /\
                    contains "=" (fst kv) = false /\
                    contains "," (snd kv) = false) ps ->
  map_get (parseResourceAttributes (join "," (map entry ps))) key
  = last_value key ps.
Proof.
  intros Hps. destruct ps as [|kv ps]; [reflexivity|].
  unfold parseResourceAttributes.
  assert (Hfull : is_empty (join "," (map entry (kv :: ps))) = false).
  { destruct kv as [[|c k] v]; destruct ps; reflexivity. }
  rewrite Hfull. rewrite split_on_join.
  - fold (collect_attributes (map entry (kv :: ps)) []).
    rewrite collect_attributes_entries.
    + now destruct (last_value key (kv :: ps)).
    + eapply Forall_impl; [|exact Hps]. intros a Ha. apply Ha.
  - discriminate.
  - apply Forall_map. eapply Forall_impl; [|exact Hps].
    intros [k v] (Hk & _ & Hv). unfold entry. cbn [fst snd] in *.
    rewrite !contains_app, Hk, Hv. reflexivity.
Qed.

Lemma parseResourceAttributes_round_trip_witness :
  map_get (parseResourceAttributes
             (join "," (map entry [("team", "a"); ("expr", "x=y"); ("team", "b")]%string)))
    "team"
  = last_value "team" [("team", "a"); ("expr", "x=y"); ("team", "b")]%string.
Proof.
  apply (parseResourceAttributes_round_trip
           [("team", "a"); ("expr", "x=y"); ("team", "b")]%string "team").
  repeat constructor.
Defined.

(** X24.  Text without an equals sign gives no attribute at all:
    [parseResourceAttributes] drops every entry that has no [=] and
    reports nothing, so such a setting yields the empty map. *)
Theorem parseResourceAttributes_ignores_malformed (attributesStr : string) :
  contains "=" attributesStr = false ->
  parseResourceAttributes attributesStr = [].
Proof.
  intros Hno. unfold parseResourceAttributes.
  destruct (is_empty attributesStr); [reflexivity|].
  apply (collect_attributes_junk (split_on "," attributesStr) []).
  now apply split_on_parts.
Qed.

Lemma parseResourceAttributes_ignores_malformed_witness :
  parseResourceAttributes "team,region:eu,," = [].
Proof.
  apply (parseResourceAttributes_ignores_malformed "team,region:eu,,").
  reflexivity.
Defined.
